(** * Random fractals in 2D: the branch-growth engine

    A shallow embedding of [pygame_2d_random_fractals.pyw]: the classes
    [Tree] and [Branch] and the function [generate_tree].

    Numbers.  Python's [float] is IEEE-754 binary64.  The engine is
    written once, over an interface [Number] of the arithmetic the
    source uses, and is run at two instances:
    - [float64], Rocq's primitive binary64 floats, which round as
      Python's do: this is the arithmetic of the program;
    - [exact], the real numbers: the arithmetic of the program with the
      rounding taken away, with which the share computed in binary64 is
      compared.
    What is proved of the engine over an arbitrary [Number] holds at
    both.  The laws of sizes and angles are proved in binary64: a
    finite binary64 value stands for a real number ([B2R]), and the
    product, the sum and the difference of two finite values are the
    real product, sum and difference rounded to the nearest value
    ([rounds]), which is derived from the specification of the
    primitive floats.

    Libraries.  [math.cos], [math.sin], [**] and [random.gauss] belong
    to Python; they are interfaces ([Math], [Random]), and total
    functions.  The generator is a state that each draw advances.

    State.  The program mutates the list of branches of the tree, the
    surface and the generator; the engine passes them along as a
    [World].  The surface is the list of the lines drawn on it.

    Exceptions.  The two that the list accesses of the loop can raise
    are modelled: [IndexError] for an index past the end of the list,
    [AttributeError] for [.activate()] on an emptied slot.  Exceptions of
    the numeric operations ([int] of a NaN, a power of zero) are not. *)

From Stdlib Require Import ZArith QArith Reals Lra Lia Floats.
From stdpp Require Import base list.

Set Warnings "-inexact-float".

(** ** Numbers *)

(** The operations of Python numbers that the source uses.  [lit] reads a
    decimal literal, [lt] is [<] ([a > b] is [lt b a]), [int] is [int()]:
    truncation toward zero.  Python's [int] constants ([0], [1], [255])
    are read as numbers of the same type: they only meet floats. *)
Class Number (F : Type) : Type := {
  lit : Q -> F;
  add : F -> F -> F;
  sub : F -> F -> F;
  mul : F -> F -> F;
  lt : F -> F -> bool;
  int : F -> Z
}.

(** [math.cos], [math.sin] and the power operator [**], taken as total
    functions. *)
Class Math (F : Type) : Type := {
  cos : F -> F;
  sin : F -> F;
  pow : F -> F -> F
}.

(** The generator behind [random.gauss(mu, sigma)]: a state, and a draw
    that returns a sample and the next state. *)
Class Random (F : Type) : Type := {
  rng : Type;
  gauss : rng -> F -> F -> F * rng
}.

Declare Scope py_scope.
Delimit Scope py_scope with py.
Notation "x + y" := (add x y) : py_scope.
Notation "x - y" := (sub x y) : py_scope.
Notation "x * y" := (mul x y) : py_scope.
Notation "x <? y" := (lt x y) : py_scope.
Notation "x >? y" := (lt y x) : py_scope.
Notation "x ** y" := (pow x y) (at level 30, right associativity) : py_scope.

(** *** binary64 *)

Module Float64.

(** A Python [int] as a float (exact below 2^53). *)
Definition of_Z (z : Z) : float :=
  match z with
  | Z0 => PrimFloat.zero
  | Zpos _ => PrimFloat.of_uint63 (Uint63.of_Z z)
  | Zneg p => PrimFloat.opp (PrimFloat.of_uint63 (Uint63.of_Z (Zpos p)))
  end.

(** A decimal literal [n/d]: the quotient of two exact floats is
    rounded once, to the float nearest to [n/d]. *)
Definition of_Q (q : Q) : float :=
  PrimFloat.div (of_Z (Qnum q)) (of_Z (Zpos (Qden q))).

(** [int(x)]: the integer part of [m * 2^e].  Python raises on NaN and
    on the infinities; the engine's widths are finite, and the model
    gives [0] there. *)
Definition truncate (x : float) : Z :=
  match Prim2SF x with
  | S754_finite s m e =>
      let a := match e with
               | Zneg k => Z.shiftr (Zpos m) (Zpos k)
               | _ => Z.shiftl (Zpos m) e
               end in
      if s then Z.opp a else a
  | _ => 0%Z
  end.

End Float64.

#[export] Instance float64 : Number float := {
  lit := Float64.of_Q;
  add := PrimFloat.add;
  sub := PrimFloat.sub;
  mul := PrimFloat.mul;
  lt := PrimFloat.ltb;
  int := Float64.truncate
}.

(** *** Exact arithmetic *)

Module Exact.

Definition ltb (x y : R) : bool := if Rlt_dec x y then true else false.

(** Truncation toward zero; [Int_part] is the floor. *)
Definition truncate (x : R) : Z :=
  if Rlt_dec x 0 then Z.opp (Int_part (Ropp x)) else Int_part x.

End Exact.

#[export] Instance exact : Number R := {
  lit := Q2R;
  add := Rplus;
  sub := Rminus;
  mul := Rmult;
  lt := Exact.ltb;
  int := Exact.truncate
}.

(** ** The data model *)

Section Engine.

Context {F : Type} {number : Number F} {math : Math F} {random : Random F}.

Local Open Scope py_scope.

(** Settings at the top of the source.  [MAX_BRANCH_COUNT] is 1000000 as
    shipped; it is a setting the user edits, so the engine takes it as a
    parameter. *)
Variable MAX_BRANCH_COUNT : nat.

Definition MINIMUM_BRANCH_SIZE : F := lit 0.0003%Q.

(** The list [presets]: eight numbers, read by position. *)
Record Presets : Type := mkPresets {
  preset_0 : F; preset_1 : F; preset_2 : F; preset_3 : F;
  preset_4 : F; preset_5 : F; preset_6 : F; preset_7 : F
}.

(** class [Branch].  The field [parent] is the one tree of the run; it is
    the [tree] of the [World] below. *)
Record Branch : Type := mkBranch {
  index : nat;
  pos : F * F;
  branch_size : F;
  branch_length : F;
  branch_direction : F
}.

(** class [Tree].  The field [surface] is the [surface] of the [World]. *)
Record Tree : Type := mkTree {
  branch_width : F;
  branch_width_factor : F;
  branch_length_mean : F;
  branch_length_range : F;
  branch_length_factor : F;
  branch_angle_mean : F;
  branch_angle_range : F;
  branch_angle_factor : F;
  branches : list (option Branch)
}.

Definition with_branches (t : Tree) (bs : list (option Branch)) : Tree :=
  mkTree (branch_width t) (branch_width_factor t) (branch_length_mean t)
    (branch_length_range t) (branch_length_factor t) (branch_angle_mean t)
    (branch_angle_range t) (branch_angle_factor t) bs.

(** One call of [pygame.draw.line(surface, color, pos1, pos2, width)]. *)
Record Line : Type := mkLine {
  line_color : F * F * F;
  line_start : F * F;
  line_end : F * F;
  line_width : Z
}.

(** What the program mutates: the state of the random generator, the
    surface (the lines drawn on it, oldest first) and the tree. *)
Record World : Type := mkWorld {
  random_state : rng;
  surface : list Line;
  tree : Tree
}.

(** ** Effects: state and exceptions *)

Inductive exn : Type := IndexError | AttributeError.

(** A computation ends with a value or with a raised exception; either
    way the mutations made so far stay. *)
Inductive outcome (A : Type) : Type :=
| Return (a : A) (w : World)
| Raise (e : exn) (w : World).

Arguments Return {A} a w.
Arguments Raise {A} e w.

Definition M (A : Type) : Type := World -> outcome A.

Definition ret {A : Type} (a : A) : M A := fun w => Return a w.

Definition raise {A : Type} (e : exn) : M A := fun w => Raise e w.

Definition bind {A B : Type} (c : M A) (k : A -> M B) : M B :=
  fun w => match c w with
           | Return a w' => k a w'
           | Raise e w' => Raise e w'
           end.

Notation "x <- c ;; k" := (bind c (fun x => k))
  (at level 100, c at next level, right associativity).
Notation "c ;; k" := (bind c (fun _ => k))
  (at level 100, right associativity).

Definition final_world {A : Type} (o : outcome A) : World :=
  match o with Return _ w => w | Raise _ w => w end.

(** [try: body except IndexError: handler] *)
Definition try_except_IndexError {A : Type} (body handler : M A) : M A :=
  fun w => match body w with
           | Raise IndexError w' => handler w'
           | o => o
           end.

(** The list [tree.branches]: [self.branches[i]], [self.branches[i] = v],
    [len(self.branches)] and [self.branches.append(v)].  Reading or
    writing past the end raises [IndexError].  An index is a natural
    number: the loop counts up from [0], and the index of a branch is
    a length of the list. *)
Definition branches_get (i : nat) : M (option Branch) :=
  fun w => match branches (tree w) !! i with
           | Some b => Return b w
           | None => Raise IndexError w
           end.

Definition set_tree_branches (w : World) (bs : list (option Branch)) : World :=
  mkWorld (random_state w) (surface w) (with_branches (tree w) bs).

Definition branches_set (i : nat) (v : option Branch) : M unit :=
  fun w => if decide (i < length (branches (tree w)))%nat
           then Return tt (set_tree_branches w (<[i := v]> (branches (tree w))))
           else Raise IndexError w.

Definition branches_len : M nat :=
  fun w => Return (length (branches (tree w))) w.

Definition branches_append (v : option Branch) : M unit :=
  fun w => Return tt (set_tree_branches w (branches (tree w) ++ [v])).

Definition self_parent : M Tree := fun w => Return (tree w) w.

(** [random.gauss(mu, sigma)] *)
Definition random_gauss (mu sigma : F) : M F :=
  fun w => let '(x, g) := gauss (random_state w) mu sigma in
           Return x (mkWorld g (surface w) (tree w)).

(** [pygame.draw.line(surface, color, pos1, pos2, width)] *)
Definition pygame_draw_line (color : F * F * F) (pos1 pos2 : F * F) (width : Z)
  : M unit :=
  fun w => Return tt (mkWorld (random_state w)
                        (surface w ++ [mkLine color pos1 pos2 width]) (tree w)).

(** Python's [min(a, b)] and [max(a, b)]: the first argument unless the
    second is strictly smaller (larger). *)
Definition min_ (a b : F) : F := if b <? a then b else a.
Definition max_ (a b : F) : F := if b >? a then b else a.

(** ** class Tree *)

(** [Tree.__init__]: the settings, and the first branch. *)
Definition Tree_init (initial_pos : F * F) (initial_direction : F)
    (branch_width branch_width_factor branch_length_mean branch_length_range
     branch_length_factor branch_angle_mean branch_angle_range
     branch_angle_factor : F) (g : rng) : Tree * rng :=
  let '(length_0, g') := gauss g branch_length_mean branch_length_range in
  (mkTree branch_width branch_width_factor branch_length_mean
     branch_length_range branch_length_factor branch_angle_mean
     branch_angle_range branch_angle_factor
     [Some (mkBranch 0 initial_pos (lit 1) length_0 initial_direction)],
   g').

(** Lines 72-74 of the source: the share of the first child, from the
    sample [x] of [random.gauss(0, 0.1)]. *)
Definition fold_and_clamp (x : F) : F :=
  let proportion := x in
  let proportion := if proportion <? lit 0 then lit 1 + proportion
                    else proportion in
  max_ (min_ proportion (lit 1)) (lit 0).

(** [Tree.branch_split] *)
Definition branch_split (index : nat) (pos : F * F)
    (prev_size prev_direction : F) : M unit :=
  self <- self_parent ;;
  branches_set index None ;;
  proportion <- random_gauss (lit 0) (lit 0.1%Q) ;;
  let proportion := fold_and_clamp proportion in
  let branch_1_size := prev_size * proportion in
  let branch_2_size := prev_size * (lit 1 - proportion) in
  g1 <- random_gauss (branch_length_mean self) (branch_length_range self) ;;
  let branch_1_length := g1 * (branch_1_size ** branch_length_factor self) in
  g2 <- random_gauss (branch_length_mean self) (branch_length_range self) ;;
  let branch_2_length := g2 * (branch_2_size ** branch_length_factor self) in
  g3 <- random_gauss (branch_angle_mean self) (branch_angle_range self) ;;
  let angle := g3 * (prev_size ** branch_angle_factor self) in
  let branch_1_angle := prev_direction - angle * (lit 1 - proportion) in
  let branch_2_angle := prev_direction + angle * proportion in
  n1 <- branches_len ;;
  let new_branch_1 := mkBranch n1 pos branch_1_size branch_1_length
                        branch_1_angle in
  n2 <- branches_len ;;
  let new_branch_2 := mkBranch (n2 + 1)%nat pos branch_2_size branch_2_length
                        branch_2_angle in
  branches_append (Some new_branch_1) ;;
  branches_append (Some new_branch_2).

(** ** class Branch *)

(** [Branch.draw] *)
Definition draw (color : F * F * F) (pos1 pos2 : F * F) (width : F) : M unit :=
  let '(color, width) :=
    if width <? lit 1
    then let '(c0, c1, c2) := color in
         ((c0 * width, c1 * width, c2 * width), lit 1)
    else (color, width) in
  pygame_draw_line color pos1 pos2 (int width).

(** [Branch.activate] *)
Definition activate (self : Branch) : M unit :=
  let dx := cos (branch_direction self) * branch_length self in
  let dy := sin (branch_direction self) * branch_length self in
  let final_pos := (fst (pos self) + dx, snd (pos self) + dy) in
  parent <- self_parent ;;
  draw (lit 255, lit 255, lit 255) (pos self) final_pos
    (branch_width parent * (branch_size self ** branch_width_factor parent)) ;;
  if branch_size self >? MINIMUM_BRANCH_SIZE
  then branch_split (index self) final_pos (branch_size self)
         (branch_direction self)
  else ret tt.

(** ** generate_tree *)

Inductive control : Type := Continue | Break.

(** The body of the loop: [tree.branches[i].activate()] under the
    [try]; a dead slot ([None]) has no [activate]. *)
Definition loop_body (i : nat) : M control :=
  try_except_IndexError
    (slot <- branches_get i ;;
     match slot with
     | Some branch => activate branch
     | None => raise AttributeError
     end ;;
     ret Continue)
    (ret Break).

(** [for i in range(first, first + n)] *)
Fixpoint for_range (n first : nat) : M unit :=
  match n with
  | O => ret tt
  | S n' =>
      c <- loop_body first ;;
      match c with
      | Continue => for_range n' (S first)
      | Break => ret tt
      end
  end.

Definition new_tree (surface : list Line) (pos : F * F) (angle : F)
    (presets : Presets) (g : rng) : World :=
  let '(t, g') := Tree_init pos angle (preset_0 presets) (preset_1 presets)
                    (preset_2 presets) (preset_3 presets) (preset_4 presets)
                    (preset_5 presets) (preset_6 presets) (preset_7 presets) g in
  mkWorld g' surface t.

Definition generate_tree (surface : list Line) (pos : F * F) (angle : F)
    (presets : Presets) (g : rng) : outcome unit :=
  for_range MAX_BRANCH_COUNT 0 (new_tree surface pos angle presets g).

End Engine.

Arguments Presets F : clear implicits.
Arguments Branch F : clear implicits.
Arguments Tree F : clear implicits.
Arguments Line F : clear implicits.
Arguments World F {random}.
Arguments outcome F {random} A.
Arguments M F {random} A.
Arguments Return {F random A} a w.
Arguments Raise {F random A} e w.

(** ** Specifications *)

Section Specifications.

Context {F : Type} {number : Number F} {math : Math F} {random : Random F}.

Local Open Scope py_scope.

(** The four samples one split draws, in the order it draws them, and
    the state of the generator after them. *)
Definition split_draws (t : Tree F) (g : rng) : F * F * F * F * rng :=
  let '(x, g) := gauss g (lit 0) (lit 0.1%Q) in
  let '(g1, g) := gauss g (branch_length_mean t) (branch_length_range t) in
  let '(g2, g) := gauss g (branch_length_mean t) (branch_length_range t) in
  let '(g3, g) := gauss g (branch_angle_mean t) (branch_angle_range t) in
  (x, g1, g2, g3, g).

(** From slot [i] on, every slot of the list holds a branch, and the
    branch knows its slot. *)
Definition live_from (i : nat) (bs : list (option (Branch F))) : Prop :=
  forall j, (i <= j < length bs)%nat ->
    exists b, bs !! j = Some (Some b) /\ index b = j.

(** [activated i w js w']: starting in [w], the branches in the slots
    [js = i, i+1, ...] are activated one after the other, each found in
    its slot, and the world is then [w']. *)
Inductive activated : nat -> World F -> list nat -> World F -> Prop :=
| activated_nil (i : nat) (w : World F) : activated i w [] w
| activated_cons (i : nat) (w : World F) (b : Branch F) (w1 : World F)
    (js : list nat) (w2 : World F) :
    branches (tree w) !! i = Some (Some b) ->
    activate b w = Return tt w1 ->
    activated (S i) w1 js w2 ->
    activated i w (i :: js) w2.

(** The world after the line of an activation is drawn. *)
Definition drawn (b : Branch F) (w : World F) : World F :=
  final_world (draw (lit 255, lit 255, lit 255) (pos b)
    (fst (pos b) + cos (branch_direction b) * branch_length b,
     snd (pos b) + sin (branch_direction b) * branch_length b)
    (branch_width (tree w) * (branch_size b ** branch_width_factor (tree w)))
    w).

End Specifications.

(** Two runs, each with its generator, and a relation between the states
    of the two generators: the worlds agree when the generators are
    related and the surfaces and the trees are equal; the outcomes agree
    when they end the same way in worlds that agree. *)
Section SameRuns.

Context {F : Type}.
Variables (r1 r2 : Random F).
Variable same_stream : @rng F r1 -> @rng F r2 -> Prop.

Definition same_world (w1 : @World F r1) (w2 : @World F r2) : Prop :=
  same_stream (random_state w1) (random_state w2) /\
  surface w1 = surface w2 /\ tree w1 = tree w2.

Inductive same_outcome {A : Type} : @outcome F r1 A -> @outcome F r2 A -> Prop :=
| same_return (a : A) w1 w2 :
    same_world w1 w2 -> same_outcome (Return a w1) (Return a w2)
| same_raise (e : exn) w1 w2 :
    same_world w1 w2 -> same_outcome (Raise e w1) (Raise e w2).

End SameRuns.

Arguments same_world {F r1 r2} same_stream w1 w2.
Arguments same_outcome {F r1 r2} same_stream {A} _ _.
Arguments same_return {F r1 r2} same_stream {A} a w1 w2 _.
Arguments same_raise {F r1 r2} same_stream {A} e w1 w2 _.

(** ** Concrete inputs *)

(** Runs of the engine in binary64.  The generator replays a recorded
    sequence of samples.  [cos], [sin] and [**] are given where their
    value is known exactly, at direction [0] and at exponent [0]
    ([cos 0 = 1], [sin 0 = 0], [x ** 0 = 1]); anywhere else they answer
    NaN, so a run that left these arguments would show it. *)
Module Demo.

Definition replay : Random float := {|
  rng := list float;
  gauss := fun g mu sigma =>
    match g with
    | x :: g' => (x, g')
    | [] => (mu, [])
    end
|}.

Definition at_zero : Math float := {|
  cos := fun x => if PrimFloat.eqb x 0 then 1%float else PrimFloat.nan;
  sin := fun x => if PrimFloat.eqb x 0 then x else PrimFloat.nan;
  pow := fun x y => if PrimFloat.eqb y 0 then 1%float else PrimFloat.nan
|}.

(** The same generator, with a count of the samples it has given. *)
Definition counted : Random float := {|
  rng := nat * list float;
  gauss := fun g mu sigma =>
    match snd g with
    | x :: g' => (x, (S (fst g), g'))
    | [] => (mu, (S (fst g), []))
    end
|}.

(** The two generators have the same samples left. *)
Definition same_tape (g1 : @rng float replay) (g2 : @rng float counted) : Prop :=
  g1 = snd g2.

#[local] Existing Instance replay.
#[local] Existing Instance at_zero.

(** The shipped presets with the three size exponents set to [0]. *)
Definition presets : Presets float :=
  mkPresets (lit 3) (lit 0) (lit 15) (lit 5) (lit 0)
    (lit 0.5235987755982988%Q) (lit 0.39269908169872414%Q) (lit 0).

Definition origin : float * float := (lit 100, lit 100).

(** The length of the first branch, then four samples for each of five
    splits: a first split at share [0.3], a split of the first child at
    share [0.1], and three even splits. *)
Definition samples_a : list float :=
  [lit 15;
   lit 0.3%Q; lit 15; lit 15; lit 0;
   lit 0.1%Q; lit 15; lit 15; lit 0;
   lit 0.5%Q; lit 15; lit 15; lit 0;
   lit 0.5%Q; lit 15; lit 15; lit 0;
   lit 0.5%Q; lit 15; lit 15; lit 0].

(** A first split whose sample is [0], then an even split. *)
Definition samples_b : list float :=
  [lit 15;
   lit 0; lit 15; lit 15; lit 0;
   lit 0.5%Q; lit 15; lit 15; lit 0].

Definition start (samples : list float) : World float :=
  new_tree [] origin (lit 0) presets samples.

(** The world after the first [n] turns of the loop. *)
Definition after (n : nat) (samples : list float) : World float :=
  final_world (for_range n 0 (start samples)).

Definition world_a1 : World float := Eval vm_compute in after 1 samples_a.
Definition world_a2 : World float := Eval vm_compute in after 2 samples_a.
Definition world_b1 : World float := Eval vm_compute in after 1 samples_b.
Definition world_b2 : World float := Eval vm_compute in after 2 samples_b.

(** The branch in slot [i], when there is one. *)
Definition slot (i : nat) (w : World float) : Branch float :=
  match branches (tree w) !! i with
  | Some (Some b) => b
  | _ => mkBranch 0 origin (lit 0) (lit 0) (lit 0)
  end.

End Demo.

(** ** More specifications *)

Section RunSpecifications.

Context {F : Type} {number : Number F} {math : Math F} {random : Random F}.

(** The eight settings a tree was made with. *)
Definition settings (t : Tree F) : Presets F :=
  mkPresets (branch_width t) (branch_width_factor t) (branch_length_mean t)
    (branch_length_range t) (branch_length_factor t) (branch_angle_mean t)
    (branch_angle_range t) (branch_angle_factor t).

(** The number of emptied slots of the list. *)
Definition dead_slots (bs : list (option (Branch F))) : nat :=
  length (filter (fun o => o = None) bs).

(** The lines hang together: each one starts at [origin] or where a line
    drawn before it ends. *)
Definition connected (origin : F * F) (new : list (Line F)) : Prop :=
  forall n l, new !! n = Some l ->
    line_start l = origin \/
    exists m l', (m < n)%nat /\ new !! m = Some l' /\ line_end l' = line_start l.

(** The lines [new] hang together, and every branch of the list starts
    at [origin] or at the end of one of them. *)
Definition rooted (origin : F * F) (new : list (Line F))
    (bs : list (option (Branch F))) : Prop :=
  connected origin new /\
  forall j b, bs !! j = Some (Some b) ->
    pos b = origin \/ exists m l, new !! m = Some l /\ line_end l = pos b.

End RunSpecifications.

(** A generator that counts the samples it gives: the state of [r], and
    the number of draws made so far. *)
Definition counting {F : Type} (r : Random F) : Random F := {|
  rng := nat * @rng F r;
  gauss := fun g mu sigma =>
    let '(x, g') := @gauss F r (snd g) mu sigma in (x, (S (fst g), g'))
|}.

(** A state of [r] and a state of [counting r] that holds it. *)
Definition counted_as {F : Type} (r : Random F) (g1 : @rng F r)
    (g2 : @rng F (counting r)) : Prop :=
  g1 = snd g2.

(** ** The window: buttons, clicks, frames *)

From Stdlib Require String.

(** The rest of the source is the window: the class [Button], the
    actions [clear_screen] and [save_image], and the body of the
    [while running] loop.  Positions on the screen are pairs of
    integers.  [pygame.Rect.collidepoint] is pygame's: a point is inside
    a rectangle when it is at or after its left and top edges and
    strictly before its right and bottom edges.  What a frame reads from
    pygame (the queue of events, the keys held, the mouse) is its
    [Input]; what it paints on the display is left out. *)
Module Window.

Import String.

Record Rect : Type := mkRect {
  rect_x : Z; rect_y : Z; rect_w : Z; rect_h : Z
}.

Definition collidepoint (r : Rect) (p : Z * Z) : bool :=
  (rect_x r <=? fst p)%Z && (fst p <? rect_x r + rect_w r)%Z &&
  (rect_y r <=? snd p)%Z && (snd p <? rect_y r + rect_h r)%Z.

(** The events the loop tells apart; [MOUSEBUTTONDOWN] carries
    [event.button]. *)
Inductive event : Type :=
| QUIT
| MOUSEBUTTONDOWN (button : Z)
| MOUSEBUTTONUP
| OTHER.

(** [pygame.event.get()], [pygame.key.get_pressed()] at [K_ESCAPE] and
    [K_r], [pygame.mouse.get_pos()] and [pygame.mouse.get_rel()]. *)
Record Input : Type := mkInput {
  events : list event;
  key_escape : bool;
  key_r : bool;
  mouse_pos : Z * Z;
  mouse_rel : Z * Z
}.

(** The folder of the screenshots. *)
Definition screenshots : string := "pygame_fractals_saved_screenshots/".

Section App.

Context {F : Type} {number : Number F} {math : Math F} {random : Random F}.

Local Open Scope py_scope.

(** The settings [MAX_BRANCH_COUNT] and [presets]; [random.random()],
    which draws from the generator of [random.gauss]; [str] of a float;
    and the float [2 * math.pi / 60]. *)
Variable MAX_BRANCH_COUNT : nat.
Variable presets : Presets F.
Variable random_random : rng -> F * rng.
Variable str : F -> string.
Variable rotation_step : F.

(** The module's variables that the loop changes, the generator, and
    the files [pygame.image.save] has written: a path, and the lines on
    the surface saved.  The write itself is taken to succeed (the folder
    exists). *)
Record App : Type := mkApp {
  running : bool;
  angle : F;
  fractal_surface : list (Line F);
  controls_surface_pos : Z * Z;
  controls_surface_dragged : bool;
  image_name : string;
  saved_images : list (string * list (Line F));
  generator : rng
}.

(** [clear_screen]: the surface is filled with black; no line is left. *)
Definition clear_screen (a : App) : App :=
  mkApp (running a) (angle a) [] (controls_surface_pos a)
    (controls_surface_dragged a) (image_name a) (saved_images a) (generator a).

(** [save_image]; the slice [[2:12]] is [substring 2 10]. *)
Definition save_image (a : App) : App :=
  let '(x, g) := random_random (generator a) in
  let image_name := (substring 2 10 (str x) ++ ".png")%string in
  mkApp (running a) (angle a) (fractal_surface a) (controls_surface_pos a)
    (controls_surface_dragged a) image_name
    (saved_images a ++
       [((screenshots ++ image_name)%string, fractal_surface a)])
    g.

(** class [Button] *)
Record Button : Type := mkButton {
  rect : Rect;
  action : App -> App;
  text : string
}.

(** [Button.left_mouse_down] *)
Definition left_mouse_down (self : Button) (mouse_pos : Z * Z) (a : App) : App :=
  if collidepoint (rect self) mouse_pos then action self a else a.

Definition clear_screen_button : Button :=
  mkButton (mkRect 10 200 100 16) clear_screen "Clear Screen".

Definition screenshot_button : Button :=
  mkButton (mkRect 10 225 100 16) save_image "Save Screenshot".

Definition buttons : list Button := [clear_screen_button; screenshot_button].

(** The size of [controls_surface], and the height of its title bar. *)
Definition controls_surface_size : Z * Z := (120, 260)%Z.

Definition title_bar (a : App) : Rect :=
  mkRect (fst (controls_surface_pos a)) (snd (controls_surface_pos a))
    (fst controls_surface_size) 16.

Definition controls_panel (a : App) : Rect :=
  mkRect (fst (controls_surface_pos a)) (snd (controls_surface_pos a))
    (fst controls_surface_size) (snd controls_surface_size).

(** The mouse, as the panel and its buttons see it. *)
Definition on_panel (a : App) (p : Z * Z) : Z * Z :=
  (fst p - fst (controls_surface_pos a), snd p - snd (controls_surface_pos a))%Z.

(** A position of the mouse as a point of the surface. *)
Definition point (p : Z * Z) : F * F :=
  (lit (inject_Z (fst p)), lit (inject_Z (snd p))).

(** The call [generate_tree(fractal_surface, mouse_pos, angle, presets)]
    of the loop: an exception it raised would end the program. *)
Definition draw_fractal (a : App) (p : Z * Z) : exn + App :=
  match generate_tree MAX_BRANCH_COUNT (fractal_surface a) (point p) (angle a)
          presets (generator a) with
  | Return _ w =>
      inr (mkApp (running a) (angle a) (surface w) (controls_surface_pos a)
             (controls_surface_dragged a) (image_name a) (saved_images a)
             (random_state w))
  | Raise e _ => inl e
  end.

Definition set_running (v : bool) (a : App) : App :=
  mkApp v (angle a) (fractal_surface a) (controls_surface_pos a)
    (controls_surface_dragged a) (image_name a) (saved_images a) (generator a).

Definition set_dragged (v : bool) (a : App) : App :=
  mkApp (running a) (angle a) (fractal_surface a) (controls_surface_pos a)
    v (image_name a) (saved_images a) (generator a).

(** The left button goes down: the three [if]s of the loop, one after
    the other. *)
Definition left_click (inp : Input) (a : App) : exn + App :=
  let a := if collidepoint (title_bar a) (mouse_pos inp)
           then set_dragged true a else a in
  let a := foldl (fun a button =>
                    left_mouse_down button (on_panel a (mouse_pos inp)) a)
             a buttons in
  if negb (collidepoint (controls_panel a) (mouse_pos inp))
  then draw_fractal a (mouse_pos inp)
  else inr a.

(** The body of [for event in pygame.event.get()]. *)
Definition handle_event (inp : Input) (e : event) (a : App) : exn + App :=
  let a := match e with
           | QUIT => set_running false a
           | _ => if key_escape inp then set_running false a else a
           end in
  match (match e with
         | MOUSEBUTTONDOWN 1 => left_click inp a
         | _ => inr a
         end) with
  | inl x => inl x
  | inr a =>
      inr (match e with
           | MOUSEBUTTONUP => set_dragged false a
           | _ => a
           end)
  end.

Fixpoint handle_events (inp : Input) (es : list event) (a : App) : exn + App :=
  match es with
  | [] => inr a
  | e :: es' =>
      match handle_event inp e a with
      | inl x => inl x
      | inr a' => handle_events inp es' a'
      end
  end.

(** One turn of [while running], without the painting. *)
Definition frame (inp : Input) (a : App) : exn + App :=
  match handle_events inp (events inp) a with
  | inl x => inl x
  | inr a =>
      let angle := if key_r inp then angle a - rotation_step else angle a in
      let pos := if controls_surface_dragged a
                 then (fst (controls_surface_pos a) + fst (mouse_rel inp),
                       snd (controls_surface_pos a) + snd (mouse_rel inp))%Z
                 else controls_surface_pos a in
      inr (mkApp (running a) angle (fractal_surface a) pos
             (controls_surface_dragged a) (image_name a) (saved_images a)
             (generator a))
  end.

End App.

(** An event that clears [running]: [QUIT], or any event while ESC is
    held. *)
Definition stops (inp : Input) (e : event) : bool :=
  match e with
  | QUIT => true
  | _ => key_escape inp
  end.

(** The left button goes down. *)
Definition is_left_click (e : event) : bool :=
  match e with
  | MOUSEBUTTONDOWN 1 => true
  | _ => false
  end.

End Window.

(** A window in binary64, on the inputs of [Demo]: [random.random()]
    takes the next recorded sample; [str] is not computed (the frames
    below save no image); the panel is where the source puts it. *)
Module WindowDemo.

Definition random_random (g : @rng float Demo.replay) : float * @rng float Demo.replay :=
  match g with
  | x :: g' => (x, g')
  | [] => (0%float, [])
  end.

Definition str (x : float) : String.string := String.EmptyString.

Definition rotation_step : float := (2 * 0x1.921fb54442d18p+1 / 60)%float.

Definition initial : @Window.App float Demo.replay :=
  @Window.mkApp float Demo.replay true (lit 0) [] (600, 60)%Z false
    String.EmptyString [] Demo.samples_a.

(** The mouse moves with R held; a button is released. *)
Definition quiet : Window.Input :=
  Window.mkInput [Window.OTHER; Window.MOUSEBUTTONUP] false true
    (100, 100)%Z (3, 4)%Z.

(** A left click at [(100, 100)], away from the panel. *)
Definition click : Window.Input :=
  Window.mkInput [Window.MOUSEBUTTONDOWN 1] false false (100, 100)%Z (0, 0)%Z.

(** A left click at [(100, 100)], away from the panel, then the window
    is closed. *)
Definition click_and_quit : Window.Input :=
  Window.mkInput [Window.MOUSEBUTTONDOWN 1; Window.QUIT] false false
    (100, 100)%Z (0, 0)%Z.

(** The program after that frame. *)
Definition after_click_and_quit : @Window.App float Demo.replay :=
  Eval vm_compute in
    match @Window.frame float float64 Demo.at_zero Demo.replay 5 Demo.presets
            random_random str rotation_step click_and_quit initial with
    | inr a => a
    | inl _ => initial
    end.

End WindowDemo.

(** ** The real numbers binary64 values stand for *)

(** [2 ** e], for an integer [e]. *)
Definition bpow (e : Z) : R := powerRZ 2 e.

(** The number a float of the specification stands for; [0] for the
    infinities and NaN. *)
Definition SF2R (f : spec_float) : R :=
  match f with
  | S754_finite s m e =>
      ((if s then -1 else 1) * IZR (Zpos m) * bpow e)%R
  | _ => 0%R
  end.

(** The number a binary64 value stands for. *)
Definition B2R (x : float) : R := SF2R (Prim2SF x).

(** [mrs] is what [k] steps of [shr_1] leave of the mantissa [m]: the
    quotient by [2 ** k], the last bit shifted out, and whether a bit
    before it was set. *)
Definition shifted (m k : Z) (mrs : shr_record) : Prop :=
  (0 <= shr_m mrs)%Z /\
  exists u : Z,
    (2 * m = 2 ^ k * (2 * shr_m mrs + Z.b2z (shr_r mrs)) + u)%Z /\
    (0 <= u < 2 ^ k)%Z /\
    (shr_s mrs = true <-> 0 < u)%Z.

(** [f] is what rounding to binary64 gives for the magnitude [x > 0]
    with the sign [s]: it has the sign [s]; unless it is infinite it is
    half a unit in the last place from [x] at most; it is not above a
    binary64 value that [x] is not above, and it is finite then; it is
    not below a binary64 value that [x] is not below; and no binary64
    value is nearer to [x]. *)
Definition rounded_to (s : bool) (x : R) (f : spec_float) : Prop :=
  (f = S754_infinity s \/ f = S754_zero s \/
   exists m e, f = S754_finite s m e) /\
  (f <> S754_infinity s ->
   (Rabs (Rabs (SF2R f) - x) <= bpow (-53) * x + bpow (-1075))%R /\
   (Rabs (Rabs (SF2R f) - x) <= x)%R) /\
  (forall mg eg, bounded prec emax mg eg = true ->
     (x <= IZR (Zpos mg) * bpow eg)%R ->
     f <> S754_infinity s /\
     (Rabs (SF2R f) <= IZR (Zpos mg) * bpow eg)%R) /\
  (forall mg eg, bounded prec emax mg eg = true ->
     (IZR (Zpos mg) * bpow eg <= x)%R ->
     f <> S754_infinity s ->
     (IZR (Zpos mg) * bpow eg <= Rabs (SF2R f))%R) /\
  (forall mg eg, bounded prec emax mg eg = true ->
     f <> S754_infinity s ->
     (Rabs (Rabs (SF2R f) - x) <=
      Rabs (IZR (Zpos mg) * bpow eg - x))%R).

(** The binary64 value [z] is the real number [x] rounded: [z] is not
    NaN; it is finite whenever [x] is not larger in magnitude than some
    finite binary64 value; and when it is finite it is half a unit in
    the last place from [x] at most, on the same side of every finite
    binary64 value as [x], and as near to [x] as any of them. *)
Definition rounds (x : R) (z : float) : Prop :=
  PrimFloat.is_nan z = false /\
  (forall g, PrimFloat.is_finite g = true ->
     (Rabs x <= Rabs (B2R g))%R -> PrimFloat.is_finite z = true) /\
  (PrimFloat.is_finite z = true ->
   (Rabs (B2R z - x) <= bpow (-53) * Rabs x + bpow (-1075))%R /\
   (forall g, PrimFloat.is_finite g = true ->
      (x <= B2R g)%R -> (B2R z <= B2R g)%R) /\
   (forall g, PrimFloat.is_finite g = true ->
      (B2R g <= x)%R -> (B2R g <= B2R z)%R) /\
   (forall g, PrimFloat.is_finite g = true ->
      (Rabs (B2R z - x) <= Rabs (B2R g - x))%R)).

(** Every branch of the list has a binary64 size [s] with
    [0 <= s <= 1]. *)
Definition unit_sizes (bs : list (option (Branch float))) : Prop :=
  forall j b, bs !! j = Some (Some b) ->
    PrimFloat.leb 0 (branch_size b) = true /\
    PrimFloat.leb (branch_size b) 1 = true.

(** The sizes of the branches of the list, as real numbers, added up. *)
Definition total_value (bs : list (option (Branch float))) : R :=
  foldr (fun o acc => match o with
                      | Some b => (B2R (branch_size b) + acc)%R
                      | None => acc
                      end) 0%R bs.

(** A generator all of whose samples are numbers: where [r] gives NaN,
    the mean is given. *)
Definition numbers (r : Random float) : Random float := {|
  rng := @rng float r;
  gauss := fun g mu sigma =>
    let '(x, g') := @gauss float r g mu sigma in
    (if PrimFloat.is_nan x then mu else x, g')
|}.

(** Runs in binary64 whose generator gives numbers only: the recorded
    samples of [Demo], two activations. *)
Module NumbersDemo.

Definition generator : Random float := numbers Demo.replay.

Definition start : @World float generator :=
  @new_tree float float64 generator [] Demo.origin (lit 0) Demo.presets
    Demo.samples_a.

Definition world_2 : @World float generator :=
  Eval vm_compute in
    final_world (@for_range float float64 Demo.at_zero generator 2 0 start).

End NumbersDemo.

(** Two splits of a first branch of size [1] and direction [1]: one
    with the share [0.3] and the angle [0.5]; one with the share [0.45]
    and the angle [2.6e-16], which is of the order of the distance
    between [1] and the binary64 values next to it. *)
Module TurnDemo.

Definition wide : list float :=
  [lit 15; lit 0.3%Q; lit 15; lit 15; lit 0.5%Q].

Definition tiny : list float :=
  [lit 15; lit 0.45%Q; lit 15; lit 15; lit 2.6e-16%Q].

End TurnDemo.

(** ** Runs on a surface that already has lines *)

Section OnSurface.

Context {F : Type} {random : Random F}.

(** The world [w], with the lines [sf] on the surface before its own. *)
Definition on_surface (sf : list (Line F)) (w : World F) : World F :=
  mkWorld (random_state w) (sf ++ surface w) (tree w).

Definition outcome_on_surface {A : Type} (sf : list (Line F))
    (o : outcome F A) : outcome F A :=
  match o with
  | Return a w => Return a (on_surface sf w)
  | Raise e w => Raise e (on_surface sf w)
  end.

End OnSurface.

(** ** Facts about the numbers *)

Example float_literals :
  (lit 0.1%Q : float) = 0.1%float /\ (lit 0.0003%Q : float) = 0.0003%float
  /\ (lit 255%Q : float) = 255%float /\ (lit 2.7%Q : float) = 2.7%float.
Proof. vm_compute. auto. Qed.

Example float_int : int 2.7%float = 2%Z /\ int (-2.7)%float = (-2)%Z
  /\ int 102%float = 102%Z /\ int 0.4%float = 0%Z.
Proof. vm_compute. auto. Qed.

(** ** Facts about one activation *)

Section StepFacts.

Context {F : Type} {number : Number F} {math : Math F} {random : Random F}.

Local Open Scope py_scope.

Implicit Types (w : World F) (b : Branch F) (bs : list (option (Branch F))).

(** What a split does, when its slot exists: the slot is cleared, four
    samples are drawn, and the two children go to the end of the list. *)
Lemma branch_split_eq w i p s d :
  (i < length (branches (tree w)))%nat ->
  branch_split i p s d w =
    let t := tree w in
    let bs := branches t in
    let '(x, g1, g2, g3, g) := split_draws t (random_state w) in
    let proportion := fold_and_clamp x in
    let angle := g3 * (s ** branch_angle_factor t) in
    let size_1 := s * proportion in
    let size_2 := s * (lit 1 - proportion) in
    Return tt (mkWorld g (surface w) (with_branches t
      (<[i := None]> bs ++
         [Some (mkBranch (length bs) p size_1
                  (g1 * (size_1 ** branch_length_factor t))
                  (d - angle * (lit 1 - proportion)));
          Some (mkBranch (length bs + 1) p size_2
                  (g2 * (size_2 ** branch_length_factor t))
                  (d + angle * proportion))]))).
Proof.
  intros Hi. destruct w as [g sf t]. cbn [tree random_state surface] in *.
  unfold branch_split, bind, self_parent, branches_set, random_gauss,
    branches_len, branches_append, split_draws.
  cbn [tree random_state surface]. rewrite decide_True by done.
  cbn [set_tree_branches tree random_state surface].
  destruct (gauss g (lit 0) (lit 0.1%Q)) as [x g0].
  cbn [tree random_state surface with_branches branch_length_mean
         branch_length_range branch_angle_mean branch_angle_range branches].
  destruct (gauss g0 _ _) as [x1 g1].
  cbn [tree random_state surface with_branches branches].
  destruct (gauss g1 _ _) as [x2 g2].
  cbn [tree random_state surface with_branches branches].
  destruct (gauss g2 _ _) as [x3 g3].
  cbn [tree random_state surface with_branches branches branch_width
         branch_width_factor branch_length_mean branch_length_range
         branch_length_factor branch_angle_mean branch_angle_range
         branch_angle_factor].
  rewrite length_insert, <- app_assoc. reflexivity.
Qed.

(** A split of a slot that does not exist raises, and changes nothing. *)
Lemma branch_split_out_of_range w i p s d :
  (length (branches (tree w)) <= i)%nat ->
  branch_split i p s d w = Raise IndexError w.
Proof.
  intros Hi. unfold branch_split, bind, self_parent, branches_set.
  rewrite decide_False by lia. reflexivity.
Qed.

Lemma draw_eq (c : F * F * F) (p1 p2 : F * F) (width : F) w :
  draw c p1 p2 width w =
    Return tt (mkWorld (random_state w)
      (surface w ++
         [if width <? lit 1
          then mkLine (c.1.1 * width, c.1.2 * width, c.2 * width) p1 p2
                 (int (lit 1))
          else mkLine c p1 p2 (int width)])
      (tree w)).
Proof.
  unfold draw. destruct c as [[c0 c1] c2].
  destruct (width <? lit 1); reflexivity.
Qed.

Lemma drawn_tree b w : tree (drawn b w) = tree w.
Proof. unfold drawn. rewrite draw_eq. reflexivity. Qed.

Lemma drawn_surface b w : length (surface (drawn b w)) = S (length (surface w)).
Proof.
  unfold drawn. rewrite draw_eq. cbn. rewrite length_app. cbn. lia.
Qed.

Lemma activate_eq b w :
  activate b w =
    if branch_size b >? MINIMUM_BRANCH_SIZE
    then branch_split (index b)
           (fst (pos b) + cos (branch_direction b) * branch_length b,
            snd (pos b) + sin (branch_direction b) * branch_length b)
           (branch_size b) (branch_direction b) (drawn b w)
    else Return tt (drawn b w).
Proof.
  unfold activate, drawn, bind, self_parent. rewrite draw_eq.
  cbn [final_world]. destruct (branch_size b >? MINIMUM_BRANCH_SIZE); reflexivity.
Qed.

(** The children of a split, field by field. *)
Lemma branch_split_children w i p s d :
  (i < length (branches (tree w)))%nat ->
  exists c1 c2 w',
    branch_split i p s d w = Return tt w' /\
    branches (tree w') =
      <[i := None]> (branches (tree w)) ++ [Some c1; Some c2] /\
    surface w' = surface w /\
    let '(x, g1, g2, g3, g) := split_draws (tree w) (random_state w) in
    let proportion := fold_and_clamp x in
    let angle := g3 * (s ** branch_angle_factor (tree w)) in
    x = fst (gauss (random_state w) (lit 0) (lit 0.1%Q)) /\
    random_state w' = g /\
    index c1 = length (branches (tree w)) /\
    index c2 = S (length (branches (tree w))) /\
    pos c1 = p /\ pos c2 = p /\
    branch_size c1 = s * proportion /\
    branch_size c2 = s * (lit 1 - proportion) /\
    branch_length c1 =
      g1 * (branch_size c1 ** branch_length_factor (tree w)) /\
    branch_length c2 =
      g2 * (branch_size c2 ** branch_length_factor (tree w)) /\
    branch_direction c1 = d - angle * (lit 1 - proportion) /\
    branch_direction c2 = d + angle * proportion.
Proof.
  intros Hi. rewrite (branch_split_eq w i p s d Hi). cbv zeta.
  unfold split_draws.
  destruct (gauss (random_state w) (lit 0) (lit 0.1%Q)) as [x g0].
  destruct (gauss g0 _ _) as [x1 g1]. destruct (gauss g1 _ _) as [x2 g2].
  destruct (gauss g2 _ _) as [x3 g3].
  do 3 eexists. split; [reflexivity|]. cbn.
  rewrite Nat.add_1_r. auto 20.
Qed.

End StepFacts.

(** ** Facts about the loop *)

Section LoopFacts.

Context {F : Type} {number : Number F} {math : Math F} {random : Random F}.

Local Open Scope py_scope.

Implicit Types (w : World F) (b : Branch F) (bs : list (option (Branch F))).

Lemma loop_body_live w i b :
  branches (tree w) !! i = Some (Some b) ->
  loop_body i w =
    match activate b w with
    | Return _ w' => Return Continue w'
    | Raise IndexError w' => Return Break w'
    | Raise AttributeError w' => Raise AttributeError w'
    end.
Proof.
  intros Hb. unfold loop_body, try_except_IndexError, bind, branches_get.
  rewrite Hb. destruct (activate b w) as [[] w'|[] w']; reflexivity.
Qed.

Lemma loop_body_dead w i :
  branches (tree w) !! i = Some None ->
  loop_body i w = Raise AttributeError w.
Proof.
  intros Hb. unfold loop_body, try_except_IndexError, bind, branches_get.
  rewrite Hb. reflexivity.
Qed.

Lemma loop_body_exhausted w i :
  (length (branches (tree w)) <= i)%nat ->
  loop_body i w = Return Break w.
Proof.
  intros Hi. unfold loop_body, try_except_IndexError, bind, branches_get.
  rewrite (proj2 (lookup_ge_None _ _) Hi). reflexivity.
Qed.

(** One activation of the branch in slot [i], all later slots being
    live: it returns; the list is unchanged, or slot [i] is cleared and
    two children that know their slots are added at the end. *)
Lemma activate_live w i b :
  branches (tree w) !! i = Some (Some b) -> index b = i ->
  exists w',
    activate b w = Return tt w' /\
    length (surface w') = S (length (surface w)) /\
    ((branch_size b >? MINIMUM_BRANCH_SIZE) = false /\
       branches (tree w') = branches (tree w)
     \/
     (branch_size b >? MINIMUM_BRANCH_SIZE) = true /\
       exists c1 c2,
         branches (tree w') =
           <[i := None]> (branches (tree w)) ++ [Some c1; Some c2] /\
         index c1 = length (branches (tree w)) /\
         index c2 = S (length (branches (tree w)))).
Proof.
  intros Hb Hi.
  assert (Hlt : (i < length (branches (tree w)))%nat)
    by (eapply lookup_lt_Some; eassumption).
  rewrite activate_eq.
  destruct (branch_size b >? MINIMUM_BRANCH_SIZE) eqn:Hsize.
  - rewrite branch_split_eq by (rewrite drawn_tree, Hi; exact Hlt).
    cbv zeta. rewrite !drawn_tree, Hi. unfold drawn at 1. rewrite draw_eq.
    cbn [final_world random_state].
    destruct (split_draws _ _) as [[[[x g1] g2] g3] g].
    eexists; split; [reflexivity|]. cbn [surface tree with_branches branches].
    split; [apply drawn_surface|]. right. split; [reflexivity|].
    do 2 eexists. split; [reflexivity|]. cbn [index]. split; [reflexivity|lia].
  - eexists; split; [reflexivity|]. split; [apply drawn_surface|].
    left. rewrite drawn_tree. auto.
Qed.

Lemma live_from_step bs i c1 c2 :
  (i < length bs)%nat -> live_from i bs ->
  index c1 = length bs -> index c2 = S (length bs) ->
  live_from (S i) (<[i := None]> bs ++ [Some c1; Some c2]).
Proof.
  intros Hi Hlive H1 H2 j. rewrite length_app, length_insert. cbn [length].
  intros Hj. destruct (decide (j < length bs)%nat) as [Hlt|Hge].
  - rewrite lookup_app_l by (rewrite length_insert; exact Hlt).
    rewrite list_lookup_insert_ne by lia. apply Hlive. lia.
  - rewrite lookup_app_r by (rewrite length_insert; lia).
    rewrite length_insert.
    destruct (decide (j = length bs)) as [->|Hne].
    + rewrite Nat.sub_diag. exists c1. auto.
    + replace (j - length bs)%nat with 1%nat by lia. exists c2.
      split; [reflexivity|lia].
Qed.

Lemma live_from_weaken bs i : live_from i bs -> live_from (S i) bs.
Proof. intros H j Hj. apply H. lia. Qed.

(** The loop, from slot [first] with every slot from [first] on live:
    it returns, after activating the slots [first, first+1, ...] in this
    order, [k] of them; it stops before [n] only when slot [first + k]
    is the end of the list. *)
Lemma for_range_spec n : forall first w,
  live_from first (branches (tree w)) ->
  (first <= length (branches (tree w)))%nat ->
  exists k w',
    for_range n first w = Return tt w' /\
    (k <= n)%nat /\
    activated first w (seq first k) w' /\
    (k = n \/ length (branches (tree w')) = (first + k)%nat) /\
    (first + k <= length (branches (tree w')))%nat /\
    live_from (first + k) (branches (tree w')) /\
    length (surface w') = (length (surface w) + k)%nat.
Proof.
  induction n as [|n IH]; intros first w Hlive Hle.
  - exists 0%nat, w. cbn. rewrite !Nat.add_0_r.
    repeat split; auto using activated_nil.
  - cbn [for_range]. unfold bind at 1.
    destruct (decide (first < length (branches (tree w)))%nat) as [Hlt|Hge].
    + destruct (Hlive first) as (b & Hb & Hi); [lia|].
      rewrite (loop_body_live _ _ _ Hb).
      destruct (activate_live w first b Hb Hi) as (w1 & Hact & Hsf & Hbs).
      rewrite Hact.
      assert (Hlive1 : live_from (S first) (branches (tree w1)) /\
                       (S first <= length (branches (tree w1)))%nat).
      { destruct Hbs as [[_ ->]|[_ (c1 & c2 & -> & H1 & H2)]].
        - split; [by apply live_from_weaken|lia].
        - split; [by apply live_from_step|].
          rewrite length_app, length_insert. cbn. lia. }
      destruct Hlive1 as [Hlive1 Hle1].
      destruct (IH (S first) w1 Hlive1 Hle1)
        as (k & w' & Hrun & Hk & Hacts & Hstop & Hle' & Hlive' & Hsf').
      exists (S k), w'. rewrite Hrun.
      replace (first + S k)%nat with (S first + k)%nat by lia.
      split; [reflexivity|]. split; [lia|].
      split; [cbn [seq]; eapply activated_cons; eassumption|].
      split; [destruct Hstop; [left|right]; lia|].
      split; [exact Hle'|]. split; [exact Hlive'|]. lia.
    + rewrite loop_body_exhausted by lia.
      exists 0%nat, w. rewrite !Nat.add_0_r. cbn [seq].
      split; [reflexivity|]. split; [lia|]. split; [apply activated_nil|].
      split; [right; lia|]. split; [lia|]. split; [exact Hlive|reflexivity].
Qed.

Lemma new_tree_branches (sf : list (Line F)) p angle presets g :
  exists len, branches (tree (new_tree sf p angle presets g)) =
    [Some (mkBranch 0 p (lit 1) len angle)].
Proof.
  unfold new_tree, Tree_init. destruct (gauss g _ _) as [len g'].
  exists len. reflexivity.
Qed.

Lemma new_tree_surface (sf : list (Line F)) p angle presets g :
  surface (new_tree sf p angle presets g) = sf.
Proof.
  unfold new_tree, Tree_init. destruct (gauss g _ _) as [len g']. reflexivity.
Qed.

Lemma new_tree_live (sf : list (Line F)) p angle presets g :
  live_from 0 (branches (tree (new_tree sf p angle presets g))).
Proof.
  destruct (new_tree_branches sf p angle presets g) as [len ->].
  intros j Hj. cbn in Hj. replace j with 0%nat by lia.
  eexists. split; reflexivity.
Qed.

(** The invariant along a run: after the slots below [i] have been
    activated, every slot from [i] on is live, and the list has at
    least [i] slots. *)
Lemma activated_live : forall first w js w',
  activated first w js w' ->
  live_from first (branches (tree w)) ->
  (first <= length (branches (tree w)))%nat ->
  live_from (first + length js) (branches (tree w')) /\
  (first + length js <= length (branches (tree w')))%nat /\
  length (surface w') = (length (surface w) + length js)%nat.
Proof.
  induction 1 as [i w|i w b w1 js w2 Hb Hact Hrest IH]; intros Hlive Hle.
  - cbn. rewrite !Nat.add_0_r. auto.
  - destruct (Hlive i) as (b' & Hb' & Hi).
    { split; [lia|]. eapply lookup_lt_Some; eassumption. }
    assert (b' = b) by congruence. subst b'.
    destruct (activate_live w i b Hb Hi) as (w1' & Hact' & Hsf & Hbs).
    assert (w1' = w1) by congruence. subst w1'.
    assert (Hlt : (i < length (branches (tree w)))%nat)
      by (eapply lookup_lt_Some; eassumption).
    cbn [length]. replace (i + S (length js))%nat with (S i + length js)%nat by lia.
    replace (length (surface w) + S (length js))%nat
      with (length (surface w1) + length js)%nat by lia.
    apply IH.
    + destruct Hbs as [[_ ->]|[_ (c1 & c2 & -> & H1 & H2)]].
      * by apply live_from_weaken.
      * by apply live_from_step.
    + destruct Hbs as [[_ ->]|[_ (c1 & c2 & -> & H1 & H2)]]; [lia|].
      rewrite length_app, length_insert. cbn. lia.
Qed.

End LoopFacts.

(** ** The run of generate_tree *)

Section RunFacts.

Context {F : Type} {number : Number F} {math : Math F} {random : Random F}.

Local Open Scope py_scope.

Implicit Types (w : World F) (b : Branch F) (bs : list (option (Branch F))).

Lemma activated_snoc : forall first w js w1 b w2,
  activated first w js w1 ->
  branches (tree w1) !! (first + length js)%nat = Some (Some b) ->
  activate b w1 = Return tt w2 ->
  activated first w (js ++ [(first + length js)%nat]) w2.
Proof.
  intros first w js w1 b w2 Hrun. revert b w2.
  induction Hrun as [i w|i w b0 w1 js w2 Hb Hact Hrest IH]; intros b w3 Hb3 Hact3.
  - cbn in *. rewrite Nat.add_0_r in *.
    eapply activated_cons; eauto using activated_nil.
  - cbn [app length] in *. apply (activated_cons i w b0 w1 _ w3 Hb Hact).
    replace (i + S (length js))%nat with (S i + length js)%nat in * by lia.
    eapply IH; eassumption.
Qed.

(** The state in which the loop reaches index [i]: every slot from [i] on
    is live. *)
Lemma reached_live (sf : list (Line F)) p angle presets g i w :
  activated 0 (new_tree sf p angle presets g) (seq 0 i) w ->
  live_from i (branches (tree w)) /\ (i <= length (branches (tree w)))%nat.
Proof.
  intros Hrun.
  destruct (activated_live _ _ _ _ Hrun) as (Hlive & Hle & _).
  - apply new_tree_live.
  - lia.
  - rewrite length_seq in Hlive, Hle. auto.
Qed.

(** The whole run: it returns, having activated the slots [0 .. k-1] in
    order. *)
Lemma generate_tree_returns (MAX_BRANCH_COUNT : nat) (sf : list (Line F)) p
    angle presets g :
  exists (k : nat) w',
    generate_tree MAX_BRANCH_COUNT sf p angle presets g = Return tt w' /\
    activated 0 (new_tree sf p angle presets g) (seq 0 k) w'.
Proof.
  unfold generate_tree.
  destruct (for_range_spec MAX_BRANCH_COUNT 0 (new_tree sf p angle presets g))
    as (k & w' & Hrun & _ & Hacts & _).
  - apply new_tree_live.
  - lia.
  - eauto.
Qed.

End RunFacts.

(** ** Theorems *)

(** C3.  [generate_tree] returns, and raises nothing.  It activates the
    slots [0, 1, ..., k-1] in this order, each found in range, with
    [k <= MAX_BRANCH_COUNT]; when it stops before [MAX_BRANCH_COUNT] the
    index [k] it asked for is the length of the list.  Every activation
    draws one line, so [k] lines are added to the surface.  With
    [MAX_BRANCH_COUNT = 5] this reads: five activations, or fewer when
    the list has run out. *)
Theorem generate_tree_stops_normally :
  forall (F : Type) (number : Number F) (math : Math F) (random : Random F)
    (MAX_BRANCH_COUNT : nat) (sf : list (Line F)) (p : F * F) (angle : F)
    (presets : Presets F) (g : rng),
  exists (k : nat) (w' : World F),
    generate_tree MAX_BRANCH_COUNT sf p angle presets g = Return tt w' /\
    (k <= MAX_BRANCH_COUNT)%nat /\
    activated 0 (new_tree sf p angle presets g) (seq 0 k) w' /\
    (k = MAX_BRANCH_COUNT \/ length (branches (tree w')) = k) /\
    (k <= length (branches (tree w')))%nat /\
    length (surface w') = (length sf + k)%nat.
Proof.
  intros. unfold generate_tree.
  destruct (for_range_spec MAX_BRANCH_COUNT 0 (new_tree sf p angle presets g))
    as (k & w' & Hrun & Hk & Hacts & Hstop & Hle & _ & Hsf).
  - apply new_tree_live.
  - lia.
  - exists k, w'. rewrite new_tree_surface in Hsf. cbn [Nat.add] in Hstop, Hle.
    split; [exact Hrun|]. split; [exact Hk|]. split; [exact Hacts|].
    split; [|split; [exact Hle|exact Hsf]].
    destruct Hstop as [->|Hlen]; [left|right]; auto.
Qed.

(** C10.  In the state [w] in which the loop reaches index [i] (the
    slots below [i] activated, in order): every slot from [i] to the end
    of the list holds a branch that knows its slot, so the loop never
    meets [None].  The body of the loop raises nothing: past the end of
    the list the access [tree.branches[i]] fails and the loop breaks,
    the world unchanged; in range the branch is activated, which
    returns.  So [generate_tree] returns. *)
Theorem dead_slot_unreachable :
  forall (F : Type) (number : Number F) (math : Math F) (random : Random F)
    (MAX_BRANCH_COUNT : nat) (sf : list (Line F)) (p : F * F) (angle : F)
    (presets : Presets F) (g : rng) (i : nat) (w : World F),
  activated 0 (new_tree sf p angle presets g) (seq 0 i) w ->
  (forall j, (i <= j < length (branches (tree w)))%nat ->
     exists b, branches (tree w) !! j = Some (Some b) /\ index b = j) /\
  ((length (branches (tree w)) <= i)%nat /\ loop_body i w = Return Break w
   \/
   (i < length (branches (tree w)))%nat /\
     exists b w', branches (tree w) !! i = Some (Some b) /\
       activate b w = Return tt w' /\
       loop_body i w = Return Continue w') /\
  exists w', generate_tree MAX_BRANCH_COUNT sf p angle presets g = Return tt w'.
Proof.
  intros * Hrun. destruct (reached_live _ _ _ _ _ _ _ Hrun) as [Hlive Hle].
  split; [exact Hlive|]. split.
  - destruct (decide (i < length (branches (tree w)))%nat) as [Hlt|Hge].
    + right. split; [exact Hlt|].
      destruct (Hlive i) as (b & Hb & Hi); [lia|].
      destruct (activate_live w i b Hb Hi) as (w' & Hact & _).
      exists b, w'. rewrite (loop_body_live _ _ _ Hb), Hact. auto.
    + left. split; [lia|]. apply loop_body_exhausted. lia.
  - destruct (generate_tree_returns MAX_BRANCH_COUNT sf p angle presets g)
      as (k & w' & Hgen & _).
    eauto.
Qed.

(** C2, amended.  In the state in which the loop reaches slot [i], the
    activation of the branch [b] of slot [i] returns.  When the size of
    [b] is above [MINIMUM_BRANCH_SIZE], slot [i] is cleared to [None] and
    exactly two branches are added at the end of the list.  Otherwise
    nothing is added and the list is unchanged: slot [i] still holds
    [b]. *)
Theorem activation_clears_slot_on_split :
  forall (F : Type) (number : Number F) (math : Math F) (random : Random F)
    (sf : list (Line F)) (p : F * F) (angle : F) (presets : Presets F)
    (g : rng) (i : nat) (w : World F) (b : Branch F),
  activated 0 (new_tree sf p angle presets g) (seq 0 i) w ->
  branches (tree w) !! i = Some (Some b) ->
  exists w',
    activate b w = Return tt w' /\
    ((branch_size b >? MINIMUM_BRANCH_SIZE)%py = true /\
       branches (tree w') !! i = Some None /\
       (exists c1 c2, branches (tree w') =
          <[i := None]> (branches (tree w)) ++ [Some c1; Some c2]) /\
       length (branches (tree w')) = (length (branches (tree w)) + 2)%nat
     \/
     (branch_size b >? MINIMUM_BRANCH_SIZE)%py = false /\
       branches (tree w') = branches (tree w) /\
       branches (tree w') !! i = Some (Some b)).
Proof.
  intros * Hrun Hb. destruct (reached_live _ _ _ _ _ _ _ Hrun) as [Hlive Hle].
  assert (Hlt : (i < length (branches (tree w)))%nat)
    by (eapply lookup_lt_Some; eassumption).
  destruct (Hlive i) as (b' & Hb' & Hi); [lia|].
  assert (b' = b) by congruence. subst b'.
  destruct (activate_live w i b Hb Hi) as (w' & Hact & _ & Hbs).
  exists w'. split; [exact Hact|].
  destruct Hbs as [[Hsize Heq]|[Hsize (c1 & c2 & Heq & _)]].
  - right. rewrite Heq. auto.
  - left. split; [exact Hsize|]. rewrite Heq. split; [|split].
    + rewrite lookup_app_l by (rewrite length_insert; exact Hlt).
      apply list_lookup_insert_eq. exact Hlt.
    + eauto.
    + rewrite length_app, length_insert. reflexivity.
Qed.

(** C6.  In the state in which the loop reaches slot [i], the
    activation of the branch [b] of slot [i] returns; with it the slots
    [0 .. i] have been activated, in this order.  Every other slot of
    the list keeps its place and its content.  When [b] splits, its two
    children are at the end of the list, each in the slot its [index]
    names, and both slots are above [i].  The loop of [generate_tree]
    activates the slots [0, 1, 2, ...] in this order. *)
Theorem children_take_the_next_slots :
  forall (F : Type) (number : Number F) (math : Math F) (random : Random F)
    (MAX_BRANCH_COUNT : nat) (sf : list (Line F)) (p : F * F) (angle : F)
    (presets : Presets F) (g : rng) (i : nat) (w : World F) (b : Branch F),
  activated 0 (new_tree sf p angle presets g) (seq 0 i) w ->
  branches (tree w) !! i = Some (Some b) ->
  exists w',
    activate b w = Return tt w' /\
    activated 0 (new_tree sf p angle presets g) (seq 0 (S i)) w' /\
    (forall j, j <> i -> (j < length (branches (tree w)))%nat ->
       branches (tree w') !! j = branches (tree w) !! j) /\
    ((branch_size b >? MINIMUM_BRANCH_SIZE)%py = true ->
       exists c1 c2,
         branches (tree w') =
           <[i := None]> (branches (tree w)) ++ [Some c1; Some c2] /\
         index c1 = length (branches (tree w)) /\
         index c2 = S (length (branches (tree w))) /\
         branches (tree w') !! index c1 = Some (Some c1) /\
         branches (tree w') !! index c2 = Some (Some c2) /\
         (i < index c1)%nat /\ (i < index c2)%nat) /\
    ((branch_size b >? MINIMUM_BRANCH_SIZE)%py = false ->
       branches (tree w') = branches (tree w)) /\
    exists k wf,
      generate_tree MAX_BRANCH_COUNT sf p angle presets g = Return tt wf /\
      activated 0 (new_tree sf p angle presets g) (seq 0 k) wf.
Proof.
  intros * Hrun Hb. destruct (reached_live _ _ _ _ _ _ _ Hrun) as [Hlive Hle].
  assert (Hlt : (i < length (branches (tree w)))%nat)
    by (eapply lookup_lt_Some; eassumption).
  destruct (Hlive i) as (b' & Hb' & Hi); [lia|].
  assert (b' = b) by congruence. subst b'.
  destruct (activate_live w i b Hb Hi) as (w' & Hact & _ & Hbs).
  exists w'. split; [exact Hact|]. split; [|split; [|split; [|split]]].
  - rewrite seq_S. cbn [Nat.add].
    pose proof (activated_snoc 0 _ (seq 0 i) w b w' Hrun) as Hsnoc.
    rewrite length_seq in Hsnoc. cbn [Nat.add] in Hsnoc. auto.
  - intros j Hj Hjlt.
    destruct Hbs as [[_ ->]|[_ (c1 & c2 & -> & _)]]; [reflexivity|].
    rewrite lookup_app_l by (rewrite length_insert; exact Hjlt).
    apply list_lookup_insert_ne. auto.
  - intros Hsize.
    destruct Hbs as [[Hno _]|[_ (c1 & c2 & Heq & H1 & H2)]]; [congruence|].
    exists c1, c2. rewrite Heq, H1, H2.
    split; [reflexivity|]. split; [reflexivity|]. split; [reflexivity|].
    split; [|split; [|lia]].
    + rewrite lookup_app_r by (rewrite length_insert; lia).
      rewrite length_insert, Nat.sub_diag. reflexivity.
    + rewrite lookup_app_r by (rewrite length_insert; lia).
      rewrite length_insert.
      replace (S (length (branches (tree w))) - length (branches (tree w)))%nat
        with 1%nat by lia.
      reflexivity.
  - intros Hsize.
    destruct Hbs as [[_ Heq]|[Hyes _]]; [exact Heq|congruence].
  - destruct (generate_tree_returns MAX_BRANCH_COUNT sf p angle presets g)
      as (k & wf & Hgen & Hacts).
    eauto.
Qed.

(** ** Runs in binary64 *)

(** One step of a concrete run: the branch of the slot and the world
    after its activation are computed. *)
Ltac activate_slot :=
  lazymatch goal with
  | |- activated ?i ?w (_ :: _) _ =>
      let s := eval vm_compute in (branches (tree w) !! i) in
      lazymatch s with
      | Some (Some ?b) =>
          let o := eval vm_compute in (activate b w) in
          lazymatch o with
          | Return _ ?w1 =>
              apply (activated_cons i w b w1);
              [vm_compute; reflexivity | vm_compute; reflexivity | ]
          end
      end
  end.

Ltac run_slots := cbn [seq]; repeat activate_slot; apply activated_nil.

Section DemoRuns.

#[local] Existing Instance Demo.replay.
#[local] Existing Instance Demo.at_zero.

Lemma run_a1 : activated 0 (Demo.start Demo.samples_a) (seq 0 1) Demo.world_a1.
Proof. run_slots. Defined.

Lemma run_a2 : activated 0 (Demo.start Demo.samples_a) (seq 0 2) Demo.world_a2.
Proof. run_slots. Defined.

Lemma run_b1 : activated 0 (Demo.start Demo.samples_b) (seq 0 1) Demo.world_b1.
Proof. run_slots. Defined.

Example sizes_a1 :
  map (option_map branch_size) (branches (tree Demo.world_a1)) =
    [None; Some 0.3%float; Some 0.7%float].
Proof. vm_compute. reflexivity. Qed.

Example sizes_a2 :
  map (option_map branch_size) (branches (tree Demo.world_a2)) =
    [None; None; Some 0.7%float; Some 0.03%float; Some 0.27%float].
Proof. vm_compute. reflexivity. Qed.

Example sizes_b2 :
  map (option_map branch_size) (branches (tree Demo.world_b2)) =
    [None; Some 0%float; Some 1%float].
Proof. vm_compute. reflexivity. Qed.

(** With [MAX_BRANCH_COUNT = 5] the loop makes five activations. *)
Example five_activations :
  exists w, generate_tree 5 [] Demo.origin (lit 0) Demo.presets Demo.samples_a
            = Return tt w /\
    length (surface w) = 5%nat /\ length (branches (tree w)) = 11%nat /\
    random_state w = [] /\
    map (fun l => (line_start l, line_end l, line_width l)) (surface w) =
      [((100, 100), (115, 100), 3%Z); ((115, 100), (130, 100), 3%Z);
       ((115, 100), (130, 100), 3%Z); ((130, 100), (145, 100), 3%Z);
       ((130, 100), (145, 100), 3%Z)]%float.
Proof.
  eexists. split; [|split; [|split; [|split]]]; vm_compute; reflexivity.
Qed.

(** C10, at a concrete run: the state in which the loop reaches slot 1. *)
Lemma dead_slot_unreachable_witness :
  activated 0 (Demo.start Demo.samples_a) (seq 0 1) Demo.world_a1 /\
  ((forall j, (1 <= j < length (branches (tree Demo.world_a1)))%nat ->
      exists b, branches (tree Demo.world_a1) !! j = Some (Some b) /\
                index b = j) /\
   ((length (branches (tree Demo.world_a1)) <= 1)%nat /\
      loop_body 1 Demo.world_a1 = Return Break Demo.world_a1
    \/
    (1 < length (branches (tree Demo.world_a1)))%nat /\
      exists b w', branches (tree Demo.world_a1) !! 1%nat = Some (Some b) /\
        activate b Demo.world_a1 = Return tt w' /\
        loop_body 1 Demo.world_a1 = Return Continue w') /\
   exists w', generate_tree 5 [] Demo.origin (lit 0) Demo.presets
                Demo.samples_a = Return tt w').
Proof.
  split; [exact run_a1|].
  exact (dead_slot_unreachable float _ _ _ 5 [] Demo.origin (lit 0)
           Demo.presets Demo.samples_a 1 Demo.world_a1 run_a1).
Defined.

Lemma slot_a1 :
  branches (tree Demo.world_a1) !! 1%nat = Some (Some (Demo.slot 1 Demo.world_a1)).
Proof. vm_compute. reflexivity. Defined.

Lemma slot_b1 :
  branches (tree Demo.world_b1) !! 1%nat = Some (Some (Demo.slot 1 Demo.world_b1)).
Proof. vm_compute. reflexivity. Defined.

(** C2, as stated, fails: after the first split at sample [0], slot 1
    holds a branch of size [0]; its activation returns, and slot 1 still
    holds the branch. *)
Lemma terminal_branch_keeps_its_slot :
  activated 0 (Demo.start Demo.samples_b) (seq 0 1) Demo.world_b1 /\
  branches (tree Demo.world_b1) !! 1%nat = Some (Some (Demo.slot 1 Demo.world_b1)) /\
  branch_size (Demo.slot 1 Demo.world_b1) = 0%float /\
  activate (Demo.slot 1 Demo.world_b1) Demo.world_b1 = Return tt Demo.world_b2 /\
  branches (tree Demo.world_b2) !! 1%nat = Some (Some (Demo.slot 1 Demo.world_b1)) /\
  branches (tree Demo.world_b2) !! 1%nat <> Some None.
Proof.
  split; [exact run_b1|]. split; [exact slot_b1|].
  split; [vm_compute; reflexivity|]. split; [vm_compute; reflexivity|].
  split; [vm_compute; reflexivity|]. vm_compute. discriminate.
Qed.

(** C2, amended, at a concrete run: the branch of slot 1 splits. *)
Lemma activation_clears_slot_on_split_witness :
  (activated 0 (Demo.start Demo.samples_a) (seq 0 1) Demo.world_a1 /\
   branches (tree Demo.world_a1) !! 1%nat =
     Some (Some (Demo.slot 1 Demo.world_a1))) /\
  exists w',
    activate (Demo.slot 1 Demo.world_a1) Demo.world_a1 = Return tt w' /\
    ((branch_size (Demo.slot 1 Demo.world_a1) >? MINIMUM_BRANCH_SIZE)%py = true /\
       branches (tree w') !! 1%nat = Some None /\
       (exists c1 c2, branches (tree w') =
          <[1%nat := None]> (branches (tree Demo.world_a1)) ++ [Some c1; Some c2]) /\
       length (branches (tree w')) =
         (length (branches (tree Demo.world_a1)) + 2)%nat
     \/
     (branch_size (Demo.slot 1 Demo.world_a1) >? MINIMUM_BRANCH_SIZE)%py = false /\
       branches (tree w') = branches (tree Demo.world_a1) /\
       branches (tree w') !! 1%nat = Some (Some (Demo.slot 1 Demo.world_a1))).
Proof.
  split; [split; [exact run_a1|exact slot_a1]|].
  exact (activation_clears_slot_on_split float _ _ _ [] Demo.origin (lit 0)
           Demo.presets Demo.samples_a 1 Demo.world_a1 _ run_a1 slot_a1).
Defined.

(** C6, at a concrete run: the branch of slot 1 splits, and its children
    take the slots 3 and 4. *)
Lemma children_take_the_next_slots_witness :
  (activated 0 (Demo.start Demo.samples_a) (seq 0 1) Demo.world_a1 /\
   branches (tree Demo.world_a1) !! 1%nat =
     Some (Some (Demo.slot 1 Demo.world_a1))) /\
  exists w',
    activate (Demo.slot 1 Demo.world_a1) Demo.world_a1 = Return tt w' /\
    activated 0 (Demo.start Demo.samples_a) (seq 0 2) w' /\
    (forall j, j <> 1%nat -> (j < length (branches (tree Demo.world_a1)))%nat ->
       branches (tree w') !! j = branches (tree Demo.world_a1) !! j) /\
    ((branch_size (Demo.slot 1 Demo.world_a1) >? MINIMUM_BRANCH_SIZE)%py = true ->
       exists c1 c2,
         branches (tree w') =
           <[1%nat := None]> (branches (tree Demo.world_a1)) ++ [Some c1; Some c2] /\
         index c1 = length (branches (tree Demo.world_a1)) /\
         index c2 = S (length (branches (tree Demo.world_a1))) /\
         branches (tree w') !! index c1 = Some (Some c1) /\
         branches (tree w') !! index c2 = Some (Some c2) /\
         (1 < index c1)%nat /\ (1 < index c2)%nat) /\
    ((branch_size (Demo.slot 1 Demo.world_a1) >? MINIMUM_BRANCH_SIZE)%py = false ->
       branches (tree w') = branches (tree Demo.world_a1)) /\
    exists k wf,
      generate_tree 5 [] Demo.origin (lit 0) Demo.presets Demo.samples_a
        = Return tt wf /\
      activated 0 (Demo.start Demo.samples_a) (seq 0 k) wf.
Proof.
  split; [split; [exact run_a1|exact slot_a1]|].
  exact (children_take_the_next_slots float _ _ _ 5 [] Demo.origin (lit 0)
           Demo.presets Demo.samples_a 1 Demo.world_a1 _ run_a1 slot_a1).
Defined.

End DemoRuns.

(** ** Facts in binary64 *)

(** The specification of the primitive floats ([Prim2SF] and the
    operations on [spec_float]) gives: a sum of two numbers is not NaN
    unless they are opposite infinities, and the numbers are totally
    ordered. *)
Section Binary64Order.

Local Open Scope Z_scope.

Lemma shr_1_nonneg mrs : 0 <= shr_m mrs -> 0 <= shr_m (shr_1 mrs).
Proof.
  destruct mrs as [m r s]. destruct m as [|[p|p|]|[p|p|]]; cbn; lia.
Qed.

Lemma iter_shr_1_nonneg p : forall mrs,
  0 <= shr_m mrs -> 0 <= shr_m (SpecFloat.iter_pos shr_1 p mrs).
Proof.
  induction p as [p IH|p IH|]; intros mrs H; cbn.
  - apply IH, IH, shr_1_nonneg, H.
  - apply IH, IH, H.
  - apply shr_1_nonneg, H.
Qed.

Lemma shr_fexp_nonneg prec emax m e l :
  0 <= m -> 0 <= shr_m (fst (shr_fexp prec emax m e l)).
Proof.
  intros H. unfold shr_fexp, shr.
  assert (H0 : 0 <= shr_m (shr_record_of_loc m l)) by (destruct l as [|[]]; exact H).
  destruct (_ - e); cbn [fst]; auto using iter_shr_1_nonneg.
Qed.

Lemma round_nearest_even_nonneg m l : 0 <= m -> 0 <= round_nearest_even m l.
Proof.
  intros H. destruct l as [|[]]; cbn; try destruct (Z.even m); lia.
Qed.

Lemma binary_round_aux_not_nan prec emax sx mx ex lx :
  0 <= mx -> binary_round_aux prec emax sx mx ex lx <> S754_nan.
Proof.
  intros H. unfold binary_round_aux.
  pose proof (shr_fexp_nonneg prec emax mx ex lx H) as H1.
  destruct (shr_fexp prec emax mx ex lx) as [mrs' e']. cbn [fst] in H1.
  pose proof (shr_fexp_nonneg prec emax _ e' loc_Exact
                (round_nearest_even_nonneg _ (loc_of_shr_record mrs') H1)) as H2.
  destruct (shr_fexp prec emax _ e' loc_Exact) as [mrs'' e'']. cbn [fst] in H2.
  destruct (shr_m mrs''); [discriminate| |lia].
  destruct (_ <=? _); discriminate.
Qed.

Lemma binary_normalize_not_nan prec emax m e szero :
  binary_normalize prec emax m e szero <> S754_nan.
Proof.
  unfold binary_normalize, binary_round.
  destruct m; [discriminate| |];
    destruct (shl_align _ _ _); apply binary_round_aux_not_nan; lia.
Qed.

Lemma SFadd_not_nan prec emax x y :
  x <> S754_nan -> y <> S754_nan ->
  (forall s, x = S754_infinity s -> y = S754_infinity (negb s) -> False) ->
  SFadd prec emax x y <> S754_nan.
Proof.
  intros Hx Hy Hinf.
  destruct x as [sx|sx| |sx mx ex], y as [sy|sy| |sy my ey]; cbn;
    try congruence; try discriminate.
  - destruct sx, sy; discriminate.
  - destruct sx, sy; try discriminate; exfalso;
      [apply (Hinf true)|apply (Hinf false)]; reflexivity.
  - apply binary_normalize_not_nan.
Qed.

Lemma SFcompare_antisym x y :
  SFcompare y x = option_map CompOpp (SFcompare x y).
Proof.
  destruct x as [sx|sx| |sx mx ex], y as [sy|sy| |sy my ey]; cbn;
    try destruct sx; try destruct sy; try reflexivity.
  all: rewrite (Z.compare_antisym ex ey); destruct (ex ?= ey); cbn;
    try reflexivity.
  all: rewrite !Pos.compare_cont_antisym; cbn; reflexivity.
Qed.

Lemma SFcompare_None x y :
  SFcompare x y = None -> x = S754_nan \/ y = S754_nan.
Proof.
  destruct x as [sx|sx| |sx mx ex], y as [sy|sy| |sy my ey]; cbn; auto;
    discriminate.
Qed.

Lemma not_nan_spec (x : float) :
  PrimFloat.is_nan x = false -> Prim2SF x <> S754_nan.
Proof.
  unfold PrimFloat.is_nan. rewrite FloatAxioms.eqb_spec. intros H E. rewrite E in H.
  discriminate.
Qed.

Lemma spec_not_nan (x : float) :
  Prim2SF x <> S754_nan -> PrimFloat.is_nan x = false.
Proof.
  unfold PrimFloat.is_nan. rewrite FloatAxioms.eqb_spec. intros H.
  unfold SFeqb. destruct (Prim2SF x) as [s|s| |s m e]; cbn; try congruence.
  - destruct s; reflexivity.
  - rewrite Z.compare_refl, Pos.compare_cont_refl. destruct s; reflexivity.
Qed.

Lemma ltb_false_leb (x y : float) :
  PrimFloat.is_nan x = false -> PrimFloat.is_nan y = false ->
  PrimFloat.ltb x y = false -> PrimFloat.leb y x = true.
Proof.
  intros Hx Hy. rewrite FloatAxioms.ltb_spec, FloatAxioms.leb_spec. unfold SFltb, SFleb.
  rewrite (SFcompare_antisym (Prim2SF x) (Prim2SF y)).
  destruct (SFcompare (Prim2SF x) (Prim2SF y)) as [[]|] eqn:E; cbn; try done.
  apply SFcompare_None in E as [E|E]; [apply not_nan_spec in Hx|apply not_nan_spec in Hy];
    congruence.
Qed.

Lemma ltb_not_nan_l (x y : float) :
  PrimFloat.ltb x y = true -> PrimFloat.is_nan x = false.
Proof.
  rewrite FloatAxioms.ltb_spec. unfold SFltb. intros H. apply spec_not_nan. intros E.
  rewrite E in H. discriminate.
Qed.

Lemma one_plus_not_nan (x : float) :
  PrimFloat.is_nan x = false -> PrimFloat.is_nan (1 + x)%float = false.
Proof.
  intros Hx. apply spec_not_nan. rewrite FloatAxioms.add_spec.
  apply SFadd_not_nan.
  - vm_compute. discriminate.
  - apply not_nan_spec, Hx.
  - intros s E. vm_compute in E. discriminate.
Qed.

Lemma fold_and_clamp_float (x : float) :
  fold_and_clamp x =
    (let q := if PrimFloat.ltb x 0 then 1 + x else x in
     let m := if PrimFloat.ltb 1 q then 1 else q in
     if PrimFloat.ltb m 0 then 0 else m)%float.
Proof. reflexivity. Qed.

(** For every binary64 sample that is a number, the share is a number
    between [0] and [1]. *)
Lemma fold_and_clamp_binary64 (x : float) :
  PrimFloat.is_nan x = false ->
  PrimFloat.is_nan (fold_and_clamp x) = false /\
  PrimFloat.leb 0 (fold_and_clamp x) = true /\
  PrimFloat.leb (fold_and_clamp x) 1 = true.
Proof.
  intros Hx. rewrite fold_and_clamp_float. cbv zeta.
  set (q := if PrimFloat.ltb x 0 then (1 + x)%float else x).
  assert (Hq : PrimFloat.is_nan q = false).
  { unfold q. destruct (PrimFloat.ltb x 0); [apply one_plus_not_nan|]; exact Hx. }
  destruct (PrimFloat.ltb 1 q) eqn:H1.
  - vm_compute. auto.
  - destruct (PrimFloat.ltb q 0) eqn:H0.
    + vm_compute. auto.
    + split; [exact Hq|]. split; apply ltb_false_leb; auto.
Qed.

End Binary64Order.

(** ** Facts in exact arithmetic *)

Section ExactArith.

Context {math : Math R} {random : Random R}.

Local Open Scope R_scope.

Lemma min_exact (a b : R) : (min_ a b : R) = Rmin a b.
Proof.
  unfold min_, Rmin. cbn [lt exact]. unfold Exact.ltb.
  destruct (Rlt_dec b a), (Rle_dec a b); lra.
Qed.

Lemma max_exact (a b : R) : (max_ a b : R) = Rmax a b.
Proof.
  unfold max_, Rmax. cbn [lt exact]. unfold Exact.ltb.
  destruct (Rlt_dec a b), (Rle_dec a b); lra.
Qed.

Lemma lit_0_exact : (lit 0 : R) = 0.
Proof. cbn [lit exact]. unfold Q2R. cbn [Qnum Qden]. lra. Qed.

Lemma lit_1_exact : (lit 1 : R) = 1.
Proof. cbn [lit exact]. unfold Q2R. cbn [Qnum Qden]. lra. Qed.

Lemma fold_and_clamp_exact (x : R) :
  (fold_and_clamp x : R) = Rmax 0 (Rmin 1 (if Rlt_dec x 0 then 1 + x else x)).
Proof.
  unfold fold_and_clamp. rewrite max_exact, min_exact, lit_0_exact, lit_1_exact.
  cbn [lt add exact]. unfold Exact.ltb.
  rewrite Rmax_comm, Rmin_comm. destruct (Rlt_dec x 0); reflexivity.
Qed.

Lemma fold_and_clamp_range (x : R) : 0 <= (fold_and_clamp x : R) <= 1.
Proof.
  rewrite fold_and_clamp_exact.
  unfold Rmax, Rmin;
    repeat match goal with
      | |- context [Rle_dec ?a ?b] => destruct (Rle_dec a b)
      end; lra.
Qed.

(** The four pieces of the share. *)
Lemma fold_and_clamp_pieces (x : R) :
  (x <= -1 -> (fold_and_clamp x : R) = 0) /\
  (-1 <= x < 0 -> (fold_and_clamp x : R) = 1 + x) /\
  (0 <= x <= 1 -> (fold_and_clamp x : R) = x) /\
  (1 <= x -> (fold_and_clamp x : R) = 1).
Proof.
  rewrite fold_and_clamp_exact.
  repeat split; intros Hx; destruct (Rlt_dec x 0); try lra.
  - rewrite Rmin_right, Rmax_left by lra. reflexivity.
  - rewrite Rmin_right, Rmax_right by lra. reflexivity.
  - rewrite Rmin_right, Rmax_right by lra. reflexivity.
  - rewrite Rmin_left, Rmax_right by lra. reflexivity.
Qed.

End ExactArith.

(** C4.  For every binary64 sample [x] that is a number, the share is
    a number between [0] and [1]: it is [1 + x] for a negative [x] and
    [x] otherwise, then clamped by [max(min(., 1), 0)].  For every real
    sample [y], in exact arithmetic, the share is in [[0,1]], and is
    [1 + y] for a negative [y] and [y] otherwise, clamped to [[0,1]].
    The samples [-0.05], [1.3] and [-1.3] give [0.95], [1] and [0], in
    binary64 and in exact arithmetic. *)
Theorem proportion_in_unit_interval :
  forall (x : float) (y : R),
  PrimFloat.is_nan x = false ->
  (PrimFloat.is_nan (fold_and_clamp x) = false /\
   PrimFloat.leb 0 (fold_and_clamp x) = true /\
   PrimFloat.leb (fold_and_clamp x) 1 = true /\
   fold_and_clamp x =
     (let q := if PrimFloat.ltb x 0 then 1 + x else x in
      let m := if PrimFloat.ltb 1 q then 1 else q in
      if PrimFloat.ltb m 0 then 0 else m)%float) /\
  ((0 <= fold_and_clamp y <= 1)%R /\
   fold_and_clamp y = Rmax 0 (Rmin 1 (if Rlt_dec y 0 then 1 + y else y))%R) /\
  (fold_and_clamp (-0.05)%float = 0.95%float /\
   fold_and_clamp 1.3%float = 1%float /\
   fold_and_clamp (-1.3)%float = 0%float) /\
  (fold_and_clamp (-0.05)%R = 0.95%R /\
   fold_and_clamp 1.3%R = 1%R /\
   fold_and_clamp (-1.3)%R = 0%R).
Proof.
  intros x y Hx. split; [|split; [|split]].
  - destruct (fold_and_clamp_binary64 x Hx) as (Hn & H0 & H1).
    auto using fold_and_clamp_float.
  - split; [apply fold_and_clamp_range|apply fold_and_clamp_exact].
  - vm_compute. auto.
  - split; [|split].
    + rewrite (proj1 (proj2 (fold_and_clamp_pieces _))); lra.
    + rewrite (proj2 (proj2 (proj2 (fold_and_clamp_pieces _)))); lra.
    + rewrite (proj1 (fold_and_clamp_pieces _)); lra.
Qed.

(** C4, at the samples [-0.05]. *)
Lemma proportion_in_unit_interval_witness :
  PrimFloat.is_nan (-0.05)%float = false /\
  (PrimFloat.is_nan (fold_and_clamp (-0.05)%float) = false /\
   PrimFloat.leb 0 (fold_and_clamp (-0.05)%float) = true /\
   PrimFloat.leb (fold_and_clamp (-0.05)%float) 1 = true /\
   fold_and_clamp (-0.05)%float =
     (let q := if PrimFloat.ltb (-0.05) 0 then 1 + (-0.05) else (-0.05) in
      let m := if PrimFloat.ltb 1 q then 1 else q in
      if PrimFloat.ltb m 0 then 0 else m)%float) /\
  ((0 <= fold_and_clamp (-0.05)%R <= 1)%R /\
   fold_and_clamp (-0.05)%R =
     Rmax 0 (Rmin 1 (if Rlt_dec (-0.05) 0 then 1 + (-0.05) else (-0.05)))%R) /\
  (fold_and_clamp (-0.05)%float = 0.95%float /\
   fold_and_clamp 1.3%float = 1%float /\
   fold_and_clamp (-1.3)%float = 0%float) /\
  (fold_and_clamp (-0.05)%R = 0.95%R /\
   fold_and_clamp 1.3%R = 1%R /\
   fold_and_clamp (-1.3)%R = 0%R).
Proof.
  split; [reflexivity|].
  exact (proportion_in_unit_interval (-0.05)%float (-0.05)%R eq_refl).
Defined.

(** C5.  For every call of [draw] with a finite width, in binary64: a
    width below [1] draws a line of width [1] whose colour channels are
    each multiplied by the width; any other width draws the colour as
    it is, with the width truncated to an integer.  Width [0.4] and
    colour [(255,255,255)] give colour [(102,102,102)] and width [1];
    width [2.7] gives the colour unchanged and width [2].  (The width
    is finite: on a NaN or an infinite width Python's [int] raises,
    which [draw] here does not follow.) *)
Theorem draw_dims_thin_lines :
  forall (random : Random float) (c0 c1 c2 : float) (p1 p2 : float * float)
    (width : float) (w : World float),
  PrimFloat.is_finite width = true ->
  draw (c0, c1, c2) p1 p2 width w =
    Return tt (mkWorld (random_state w)
      (surface w ++
         [if (width <? 1)%float
          then mkLine (c0 * width, c1 * width, c2 * width)%float p1 p2 1
          else mkLine (c0, c1, c2) p1 p2 (int width)])
      (tree w)) /\
  draw (255, 255, 255)%float p1 p2 0.4%float w =
    Return tt (mkWorld (random_state w)
      (surface w ++ [mkLine (102, 102, 102)%float p1 p2 1]) (tree w)) /\
  draw (255, 255, 255)%float p1 p2 2.7%float w =
    Return tt (mkWorld (random_state w)
      (surface w ++ [mkLine (255, 255, 255)%float p1 p2 2]) (tree w)).
Proof.
  intros random c0 c1 c2 p1 p2 width w _. rewrite !draw_eq.
  split; [|split]; reflexivity.
Qed.

(** ** Rounding *)

Section Rounding.

#[local] Existing Instance Demo.replay.
#[local] Existing Instance Demo.at_zero.

(** C1, as stated, fails in binary64: the branch of slot 1 has size
    [0.3]; it splits at the share [0.1] into children of sizes [0.03]
    and [0.27], whose sum is [0.30000000000000004], not [0.3]. *)
Lemma size_not_conserved_in_binary64 :
  activated 0 (Demo.start Demo.samples_a) (seq 0 1) Demo.world_a1 /\
  branches (tree Demo.world_a1) !! 1%nat =
    Some (Some (Demo.slot 1 Demo.world_a1)) /\
  branch_size (Demo.slot 1 Demo.world_a1) = 0.3%float /\
  fold_and_clamp (fst (gauss (random_state Demo.world_a1) (lit 0) (lit 0.1%Q)))
    = 0.1%float /\
  activate (Demo.slot 1 Demo.world_a1) Demo.world_a1 =
    Return tt Demo.world_a2 /\
  branches (tree Demo.world_a2) =
    <[1%nat := None]> (branches (tree Demo.world_a1)) ++
      [Some (Demo.slot 3 Demo.world_a2); Some (Demo.slot 4 Demo.world_a2)] /\
  branch_size (Demo.slot 3 Demo.world_a2) = 0.03%float /\
  branch_size (Demo.slot 4 Demo.world_a2) = 0.27%float /\
  (branch_size (Demo.slot 3 Demo.world_a2) +
   branch_size (Demo.slot 4 Demo.world_a2))%float = 0.30000000000000004%float /\
  PrimFloat.eqb
    (branch_size (Demo.slot 3 Demo.world_a2) +
     branch_size (Demo.slot 4 Demo.world_a2))%float
    (branch_size (Demo.slot 1 Demo.world_a1)) = false.
Proof.
  split; [exact run_a1|]. split; [exact slot_a1|].
  repeat split; vm_compute; reflexivity.
Qed.

(** C7, as stated, fails: when the sample of the first split is [0], the
    share is [0] and the first child is created with size [0]. *)
Lemma child_of_size_zero :
  activated 0 (Demo.start Demo.samples_b) (seq 0 1) Demo.world_b1 /\
  fold_and_clamp
    (fst (gauss (random_state (Demo.start Demo.samples_b)) (lit 0) (lit 0.1%Q)))
    = 0%float /\
  branches (tree Demo.world_b1) !! 1%nat =
    Some (Some (Demo.slot 1 Demo.world_b1)) /\
  branch_size (Demo.slot 1 Demo.world_b1) = 0%float /\
  (lit 0 <? branch_size (Demo.slot 1 Demo.world_b1))%py = false.
Proof.
  split; [exact run_b1|]. repeat split; vm_compute; reflexivity.
Qed.

(** C5, at a concrete call: width [2.7], on the world of a run. *)
Lemma draw_dims_thin_lines_witness :
  PrimFloat.is_finite 2.7%float = true /\
  (draw (255, 255, 255)%float Demo.origin Demo.origin 2.7%float Demo.world_a1 =
     Return tt (mkWorld (random_state Demo.world_a1)
       (surface Demo.world_a1 ++
          [if (2.7 <? 1)%float
           then mkLine (255 * 2.7, 255 * 2.7, 255 * 2.7)%float
                  Demo.origin Demo.origin 1
           else mkLine (255, 255, 255)%float Demo.origin Demo.origin
                  (int 2.7%float)])
       (tree Demo.world_a1)) /\
   draw (255, 255, 255)%float Demo.origin Demo.origin 0.4%float Demo.world_a1 =
     Return tt (mkWorld (random_state Demo.world_a1)
       (surface Demo.world_a1 ++
          [mkLine (102, 102, 102)%float Demo.origin Demo.origin 1])
       (tree Demo.world_a1)) /\
   draw (255, 255, 255)%float Demo.origin Demo.origin 2.7%float Demo.world_a1 =
     Return tt (mkWorld (random_state Demo.world_a1)
       (surface Demo.world_a1 ++
          [mkLine (255, 255, 255)%float Demo.origin Demo.origin 2])
       (tree Demo.world_a1))).
Proof.
  split; [reflexivity|].
  exact (draw_dims_thin_lines _ 255%float 255%float 255%float Demo.origin
           Demo.origin 2.7%float Demo.world_a1 eq_refl).
Defined.

End Rounding.

(** ** Determinism *)

Section Determinism.

Context {F : Type} {number : Number F} {math : Math F}.

(** Two generators, and a relation between their states under which they
    give the same samples, draw after draw. *)
Variables (r1 r2 : Random F).
Variable same_stream : @rng F r1 -> @rng F r2 -> Prop.

Hypothesis same_samples : forall g1 g2 mu sigma,
  same_stream g1 g2 ->
  fst (@gauss F r1 g1 mu sigma) = fst (@gauss F r2 g2 mu sigma) /\
  same_stream (snd (@gauss F r1 g1 mu sigma)) (snd (@gauss F r2 g2 mu sigma)).

#[local] Abbreviation same_world := (same_world same_stream).
#[local] Abbreviation same_outcome := (same_outcome same_stream).

Lemma split_draws_same (t : Tree F) g1 g2 :
  same_stream g1 g2 ->
  exists x1 x2 x3 x4 g1' g2',
    @split_draws F number r1 t g1 = (x1, x2, x3, x4, g1') /\
    @split_draws F number r2 t g2 = (x1, x2, x3, x4, g2') /\
    same_stream g1' g2'.
Proof.
  intros H0. unfold split_draws.
  destruct (same_samples g1 g2 (lit 0) (lit 0.1%Q) H0) as [E1 H1].
  destruct (@gauss F r1 g1 _ _) as [x1 h1], (@gauss F r2 g2 _ _) as [y1 k1].
  cbn [fst snd] in *. subst y1.
  destruct (same_samples h1 k1 (branch_length_mean t) (branch_length_range t) H1)
    as [E2 H2].
  destruct (@gauss F r1 h1 _ _) as [x2 h2], (@gauss F r2 k1 _ _) as [y2 k2].
  cbn [fst snd] in *. subst y2.
  destruct (same_samples h2 k2 (branch_length_mean t) (branch_length_range t) H2)
    as [E3 H3].
  destruct (@gauss F r1 h2 _ _) as [x3 h3], (@gauss F r2 k2 _ _) as [y3 k3].
  cbn [fst snd] in *. subst y3.
  destruct (same_samples h3 k3 (branch_angle_mean t) (branch_angle_range t) H3)
    as [E4 H4].
  destruct (@gauss F r1 h3 _ _) as [x4 h4], (@gauss F r2 k3 _ _) as [y4 k4].
  cbn [fst snd] in *. subst y4.
  exists x1, x2, x3, x4, h4, k4. auto.
Qed.

Lemma drawn_same b w1 w2 :
  same_world w1 w2 -> same_world (drawn b w1) (drawn b w2).
Proof.
  intros (Hg & Hs & Ht). unfold drawn. rewrite !draw_eq. cbn [final_world].
  rewrite Hs, Ht. split; [exact Hg|]. split; reflexivity.
Qed.

Lemma branch_split_same i p s d w1 w2 :
  same_world w1 w2 ->
  same_outcome (branch_split i p s d w1) (branch_split i p s d w2).
Proof.
  intros (Hg & Hs & Ht).
  destruct (decide (i < length (branches (tree w1)))%nat) as [Hlt|Hge].
  - rewrite (branch_split_eq w1) by exact Hlt.
    rewrite (branch_split_eq w2) by (rewrite <- Ht; exact Hlt).
    cbv zeta. rewrite <- Ht, <- Hs.
    destruct (split_draws_same (tree w1) _ _ Hg)
      as (x1 & x2 & x3 & x4 & g1' & g2' & -> & -> & Hg').
    apply same_return. split; [exact Hg'|]. split; reflexivity.
  - rewrite (branch_split_out_of_range w1) by lia.
    rewrite (branch_split_out_of_range w2) by (rewrite <- Ht; lia).
    apply same_raise. split; auto.
Qed.

Lemma activate_same b w1 w2 :
  same_world w1 w2 -> same_outcome (activate b w1) (activate b w2).
Proof.
  intros Hw. rewrite !activate_eq.
  destruct (lt MINIMUM_BRANCH_SIZE (branch_size b)).
  - apply branch_split_same, drawn_same, Hw.
  - apply same_return, drawn_same, Hw.
Qed.

Lemma loop_body_same i w1 w2 :
  same_world w1 w2 -> same_outcome (loop_body i w1) (loop_body i w2).
Proof.
  intros Hw. pose proof Hw as (Hg & Hs & Ht).
  destruct (branches (tree w1) !! i) as [[b|]|] eqn:Hb.
  - rewrite (loop_body_live w1 i b Hb).
    rewrite (loop_body_live w2 i b) by (rewrite <- Ht; exact Hb).
    destruct (activate_same b w1 w2 Hw) as [[] v1 v2 Hv|[] v1 v2 Hv];
      constructor; exact Hv.
  - rewrite (loop_body_dead w1 i Hb).
    rewrite (loop_body_dead w2 i) by (rewrite <- Ht; exact Hb).
    apply same_raise, Hw.
  - apply lookup_ge_None in Hb.
    rewrite (loop_body_exhausted w1 i Hb).
    rewrite (loop_body_exhausted w2 i) by (rewrite <- Ht; exact Hb).
    apply same_return, Hw.
Qed.

Lemma for_range_same n : forall first w1 w2,
  same_world w1 w2 -> same_outcome (for_range n first w1) (for_range n first w2).
Proof.
  induction n as [|n IH]; intros first w1 w2 Hw.
  - apply same_return, Hw.
  - cbn [for_range]. unfold bind.
    destruct (loop_body_same first w1 w2 Hw) as [[] v1 v2 Hv|e v1 v2 Hv].
    + apply IH, Hv.
    + apply same_return, Hv.
    + apply same_raise, Hv.
Qed.

Lemma new_tree_same (sf : list (Line F)) p angle presets g1 g2 :
  same_stream g1 g2 ->
  same_world (@new_tree F number r1 sf p angle presets g1)
             (@new_tree F number r2 sf p angle presets g2).
Proof.
  intros Hg. unfold new_tree, Tree_init.
  destruct (same_samples g1 g2 (preset_2 presets) (preset_3 presets) Hg)
    as [E H].
  destruct (@gauss F r1 g1 _ _) as [x h], (@gauss F r2 g2 _ _) as [y k].
  cbn [fst snd] in *. subst y. split; [exact H|]. split; reflexivity.
Qed.

End Determinism.

(** ** The lines drawn do not depend on the surface *)

Section SurfaceFrame.

Context {F : Type} {number : Number F} {math : Math F} {random : Random F}.

Local Open Scope py_scope.

Implicit Types (w : World F) (b : Branch F) (sf : list (Line F)).

Lemma drawn_on_surface sf b w :
  drawn b (on_surface sf w) = on_surface sf (drawn b w).
Proof.
  unfold drawn. rewrite !draw_eq. unfold on_surface.
  cbn [final_world random_state surface tree]. rewrite app_assoc. reflexivity.
Qed.

Lemma branch_split_on_surface sf i (p : F * F) (s d : F) w :
  branch_split i p s d (on_surface sf w) =
    outcome_on_surface sf (branch_split i p s d w).
Proof.
  destruct (decide (i < length (branches (tree w)))%nat) as [Hlt|Hge].
  - rewrite (branch_split_eq (on_surface sf w)) by exact Hlt.
    rewrite (branch_split_eq w) by exact Hlt.
    cbv zeta. cbn [on_surface tree random_state surface].
    destruct (split_draws _ _) as [[[[x g1] g2] g3] g]. reflexivity.
  - rewrite (branch_split_out_of_range (on_surface sf w)) by (cbn; lia).
    rewrite (branch_split_out_of_range w) by lia. reflexivity.
Qed.

Lemma activate_on_surface sf b w :
  activate b (on_surface sf w) = outcome_on_surface sf (activate b w).
Proof.
  rewrite !activate_eq, drawn_on_surface.
  destruct (branch_size b >? MINIMUM_BRANCH_SIZE).
  - apply branch_split_on_surface.
  - reflexivity.
Qed.

Lemma loop_body_on_surface sf i w :
  loop_body i (on_surface sf w) = outcome_on_surface sf (loop_body i w).
Proof.
  destruct (branches (tree w) !! i) as [[b|]|] eqn:Hb.
  - rewrite (loop_body_live (on_surface sf w) i b) by exact Hb.
    rewrite (loop_body_live w i b) by exact Hb.
    rewrite activate_on_surface.
    destruct (activate b w) as [[] w'|[] w']; reflexivity.
  - rewrite (loop_body_dead (on_surface sf w) i) by exact Hb.
    rewrite (loop_body_dead w i) by exact Hb. reflexivity.
  - apply lookup_ge_None in Hb.
    rewrite (loop_body_exhausted (on_surface sf w) i) by exact Hb.
    rewrite (loop_body_exhausted w i) by exact Hb. reflexivity.
Qed.

Lemma for_range_on_surface sf n : forall first w,
  for_range n first (on_surface sf w) =
    outcome_on_surface sf (for_range n first w).
Proof.
  induction n as [|n IH]; intros first w; [reflexivity|].
  cbn [for_range]. unfold bind. rewrite loop_body_on_surface.
  destruct (loop_body first w) as [[] w'|e w']; cbn [outcome_on_surface].
  - apply IH.
  - reflexivity.
  - reflexivity.
Qed.

Lemma new_tree_on_surface sf (sf0 : list (Line F)) (p : F * F) (angle : F)
    (presets : Presets F) (g : rng) :
  new_tree (sf ++ sf0) p angle presets g =
    on_surface sf (new_tree sf0 p angle presets g).
Proof.
  unfold new_tree. destruct (Tree_init _ _ _ _ _ _ _ _ _ _ _) as [t g'].
  reflexivity.
Qed.

(** A run on a surface is the run on the empty surface, with the lines
    of the surface before its own. *)
Lemma generate_tree_on_surface (MAX_BRANCH_COUNT : nat) sf (p : F * F)
    (angle : F) (presets : Presets F) (g : rng) :
  generate_tree MAX_BRANCH_COUNT sf p angle presets g =
    outcome_on_surface sf (generate_tree MAX_BRANCH_COUNT [] p angle presets g).
Proof.
  unfold generate_tree. rewrite <- for_range_on_surface, <- new_tree_on_surface.
  rewrite app_nil_r. reflexivity.
Qed.

End SurfaceFrame.

(** C9.  Two runs of [generate_tree] from the same origin, direction and
    presets, whose generators give the same samples draw after draw, on
    any two surfaces: both return, and they add the same lines (same
    end points, colours and widths, in the same order), each after what
    its surface held; they leave the same tree, and their generators in
    matching states.  What is on the surface has no part in what is
    drawn. *)
Theorem generate_tree_deterministic :
  forall (F : Type) (number : Number F) (math : Math F) (r1 r2 : Random F)
    (same_stream : @rng F r1 -> @rng F r2 -> Prop),
  (forall g1 g2 mu sigma,
     same_stream g1 g2 ->
     fst (@gauss F r1 g1 mu sigma) = fst (@gauss F r2 g2 mu sigma) /\
     same_stream (snd (@gauss F r1 g1 mu sigma))
                 (snd (@gauss F r2 g2 mu sigma))) ->
  forall (MAX_BRANCH_COUNT : nat) (sf1 sf2 : list (Line F)) (p : F * F)
    (angle : F) (presets : Presets F) (g1 : @rng F r1) (g2 : @rng F r2),
  same_stream g1 g2 ->
  exists (new : list (Line F)) (w1 : @World F r1) (w2 : @World F r2),
    @generate_tree F number math r1 MAX_BRANCH_COUNT sf1 p angle presets g1
      = Return tt w1 /\
    @generate_tree F number math r2 MAX_BRANCH_COUNT sf2 p angle presets g2
      = Return tt w2 /\
    surface w1 = sf1 ++ new /\
    surface w2 = sf2 ++ new /\
    tree w1 = tree w2 /\
    same_stream (random_state w1) (random_state w2).
Proof.
  intros F number math r1 r2 same_stream Hsame cap sf1 sf2 p angle presets
    g1 g2 Hg.
  destruct (@generate_tree_returns F number math r1 cap [] p angle presets g1)
    as (k1 & v1 & Hrun1 & _).
  destruct (@generate_tree_returns F number math r2 cap [] p angle presets g2)
    as (k2 & v2 & Hrun2 & _).
  pose proof (for_range_same r1 r2 same_stream Hsame cap 0 _ _
                (new_tree_same r1 r2 same_stream Hsame [] p angle presets
                   g1 g2 Hg)) as Hout.
  exists (surface v1), (on_surface sf1 v1), (on_surface sf2 v2).
  rewrite (generate_tree_on_surface cap sf1), (generate_tree_on_surface cap sf2).
  rewrite Hrun1, Hrun2.
  unfold generate_tree in Hrun1, Hrun2. rewrite Hrun1, Hrun2 in Hout.
  inversion Hout as [a u1 u2 (Hs & Hsf & Ht)|]; subst.
  cbn [outcome_on_surface on_surface surface tree random_state].
  rewrite Hsf. auto 10.
Qed.

Section DeterminismRuns.

Lemma same_tape_samples : forall g1 g2 (mu sigma : float),
  Demo.same_tape g1 g2 ->
  fst (@gauss float Demo.replay g1 mu sigma) =
    fst (@gauss float Demo.counted g2 mu sigma) /\
  Demo.same_tape (snd (@gauss float Demo.replay g1 mu sigma))
                 (snd (@gauss float Demo.counted g2 mu sigma)).
Proof.
  intros g1 [n g2] mu sigma E. unfold Demo.same_tape in *. cbn in *. subst g2.
  destruct g1; split; reflexivity.
Defined.

(** C9, at a concrete pair of runs: the replaying generator on an empty
    surface, and the same generator counting its draws on a surface that
    holds the line of an earlier run. *)
Lemma generate_tree_deterministic_witness :
  ((forall g1 g2 (mu sigma : float),
      Demo.same_tape g1 g2 ->
      fst (@gauss float Demo.replay g1 mu sigma) =
        fst (@gauss float Demo.counted g2 mu sigma) /\
      Demo.same_tape (snd (@gauss float Demo.replay g1 mu sigma))
                     (snd (@gauss float Demo.counted g2 mu sigma))) /\
   Demo.same_tape Demo.samples_a (0%nat, Demo.samples_a)) /\
  exists (new : list (Line float)) (w1 : @World float Demo.replay)
    (w2 : @World float Demo.counted),
    @generate_tree float float64 Demo.at_zero Demo.replay 5 [] Demo.origin
       (lit 0) Demo.presets Demo.samples_a = Return tt w1 /\
    @generate_tree float float64 Demo.at_zero Demo.counted 5
       (surface Demo.world_a1) Demo.origin
       (lit 0) Demo.presets (0%nat, Demo.samples_a) = Return tt w2 /\
    surface w1 = [] ++ new /\
    surface w2 = surface Demo.world_a1 ++ new /\
    tree w1 = tree w2 /\
    Demo.same_tape (random_state w1) (random_state w2).
Proof.
  split; [split; [exact same_tape_samples|reflexivity]|].
  exact (generate_tree_deterministic float float64 Demo.at_zero Demo.replay
           Demo.counted Demo.same_tape same_tape_samples 5 []
           (surface Demo.world_a1) Demo.origin
           (lit 0) Demo.presets Demo.samples_a (0%nat, Demo.samples_a) eq_refl).
Defined.

(** The two surfaces differ, and five lines are added to each. *)
Example surfaces_differ :
  length (surface Demo.world_a1) = 1%nat /\
  exists w1 w2,
    @generate_tree float float64 Demo.at_zero Demo.replay 5 [] Demo.origin
       (lit 0) Demo.presets Demo.samples_a = Return tt w1 /\
    @generate_tree float float64 Demo.at_zero Demo.counted 5
       (surface Demo.world_a1) Demo.origin
       (lit 0) Demo.presets (0%nat, Demo.samples_a) = Return tt w2 /\
    length (surface w1) = 5%nat /\ length (surface w2) = 6%nat.
Proof.
  split; [reflexivity|]. eexists _, _.
  split; [vm_compute; reflexivity|]. split; [vm_compute; reflexivity|].
  split; reflexivity.
Qed.

(** The draws are taken one after the other from the one generator: one
    for the first branch and four for each split; here five splits. *)
Example draws_counted :
  exists w, @generate_tree float float64 Demo.at_zero Demo.counted 5 []
              Demo.origin (lit 0) Demo.presets (0%nat, Demo.samples_a)
            = Return tt w /\ random_state w = (21%nat, []).
Proof. eexists. split; vm_compute; reflexivity. Qed.

End DeterminismRuns.

(** ** What a run keeps *)

Section RunInvariants.

Context {F : Type} {number : Number F} {math : Math F} {random : Random F}.

Local Open Scope py_scope.

Implicit Types (w : World F) (b : Branch F) (bs : list (option (Branch F))).

Lemma settings_with_branches (t : Tree F) bs :
  settings (with_branches t bs) = settings t.
Proof. reflexivity. Qed.

(** An activation that returns: one line is added, from the start of the
    branch; the settings stay; the list is unchanged, or the slot the
    branch names is emptied and two children starting at the end of the
    line are added. *)
Lemma activate_effect b w w' :
  activate b w = Return tt w' ->
  exists l,
    surface w' = surface w ++ [l] /\
    line_start l = pos b /\
    settings (tree w') = settings (tree w) /\
    (branches (tree w') = branches (tree w) \/
     exists c1 c2,
       (index b < length (branches (tree w)))%nat /\
       branches (tree w') =
         <[index b := None]> (branches (tree w)) ++ [Some c1; Some c2] /\
       pos c1 = line_end l /\ pos c2 = line_end l /\
       index c1 = length (branches (tree w)) /\
       index c2 = S (length (branches (tree w)))).
Proof.
  rewrite activate_eq. unfold drawn. rewrite draw_eq. cbn [final_world].
  set (end_pos := (fst (pos b) + cos (branch_direction b) * branch_length b,
                   snd (pos b) + sin (branch_direction b) * branch_length b)).
  set (l := if _ <? lit 1 then _ else _).
  assert (Hl : line_start l = pos b /\ line_end l = end_pos).
  { unfold l. destruct (_ <? lit 1); auto. }
  destruct Hl as [Hstart Hend]. clearbody l.
  destruct (branch_size b >? MINIMUM_BRANCH_SIZE).
  - set (w1 := mkWorld (random_state w) (surface w ++ [l]) (tree w)).
    destruct (decide (index b < length (branches (tree w1)))%nat) as [Hlt|Hge].
    + destruct (branch_split_children w1 (index b) end_pos (branch_size b)
                  (branch_direction b) Hlt)
        as (c1 & c2 & w2 & Hrun & Hbs & Hsf & H).
      rewrite Hrun. intros [= <-]. exists l.
      destruct (split_draws _ _) as [[[[x g1] g2] g3] g]. cbv zeta in H.
      destruct H as (_ & _ & Hi1 & Hi2 & Hp1 & Hp2 & _).
      split; [exact Hsf|]. split; [exact Hstart|]. split.
      * rewrite (branch_split_eq w1 _ _ _ _ Hlt) in Hrun. cbv zeta in Hrun.
        destruct (split_draws _ _) as [[[[x' g1'] g2'] g3'] g'].
        injection Hrun as <-. reflexivity.
      * right. exists c1, c2. rewrite Hend, Hp1, Hp2. auto 10.
    + rewrite branch_split_out_of_range by lia. discriminate.
  - intros [= <-]. exists l. cbn. auto.
Qed.

Lemma activated_frame : forall first w js w',
  activated first w js w' ->
  exists new,
    surface w' = surface w ++ new /\ length new = length js /\
    settings (tree w') = settings (tree w).
Proof.
  induction 1 as [i w|i w b w1 js w2 Hb Hact Hrest IH].
  - exists []. rewrite app_nil_r. auto.
  - destruct (activate_effect b w w1 Hact) as (l & Hsf & _ & Hset & _).
    destruct IH as (new & Hsf' & Hlen & Hset').
    exists (l :: new). rewrite Hsf', Hsf, <- app_assoc. cbn.
    rewrite Hlen, Hset', Hset. auto.
Qed.

Lemma new_tree_settings (sf : list (Line F)) p angle presets g :
  settings (tree (new_tree sf p angle presets g)) = presets.
Proof.
  unfold new_tree, Tree_init. destruct (gauss g _ _) as [len g'].
  destruct presets. reflexivity.
Qed.

(** *** The lines hang together *)

Lemma rooted_step origin new bs b l :
  rooted origin new bs ->
  (exists j, bs !! j = Some (Some b)) ->
  line_start l = pos b ->
  rooted origin (new ++ [l]) bs /\
  (forall i c1 c2, pos c1 = line_end l -> pos c2 = line_end l ->
     rooted origin (new ++ [l]) (<[i := None]> bs ++ [Some c1; Some c2])).
Proof.
  intros [Hconn Hpos] [j Hj] Hstart.
  assert (Hconn' : connected origin (new ++ [l])).
  { intros n l0 Hn. apply lookup_app_Some in Hn as [Hn|[Hge Hn]].
    - destruct (Hconn n l0 Hn) as [?|(m & l' & Hm & Hl' & E)]; [auto|].
      right. exists m, l'. rewrite lookup_app_l by (eapply lookup_lt_Some; eauto).
      auto.
    - destruct (n - length new)%nat as [|k] eqn:Ek; [|discriminate].
      injection Hn as <-. rewrite Hstart.
      destruct (Hpos j b Hj) as [?|(m & l' & Hl' & E)]; [auto|].
      right. exists m, l'. pose proof (lookup_lt_Some _ _ _ Hl').
      rewrite lookup_app_l by lia. split; [lia|auto]. }
  assert (Hold : forall k c, bs !! k = Some (Some c) ->
            pos c = origin \/
            exists m l', (new ++ [l]) !! m = Some l' /\ line_end l' = pos c).
  { intros k c Hk. destruct (Hpos k c Hk) as [?|(m & l' & Hl' & E)]; [auto|].
    right. exists m, l'. rewrite lookup_app_l by (eapply lookup_lt_Some; eauto).
    auto. }
  split; [split; assumption|]. intros i c1 c2 H1 H2. split; [exact Hconn'|].
  assert (Hlast : (new ++ [l]) !! length new = Some l).
  { rewrite lookup_app_r by lia. rewrite Nat.sub_diag. reflexivity. }
  intros k c Hk. apply lookup_app_Some in Hk as [Hk|[_ Hk]].
  - destruct (decide (k = i)) as [->|Hne].
    + pose proof (lookup_lt_Some _ _ _ Hk) as Hlt. rewrite length_insert in Hlt.
      rewrite list_lookup_insert_eq in Hk by exact Hlt. discriminate.
    + rewrite list_lookup_insert_ne in Hk by auto. eauto.
  - right. exists (length new), l. split; [exact Hlast|].
    destruct (k - _)%nat as [|[|n]]; cbn in Hk; try discriminate;
      injection Hk as <-; auto.
Qed.

Lemma activated_rooted origin : forall first w js w',
  activated first w js w' ->
  forall new, rooted origin new (branches (tree w)) ->
  exists new', surface w' = surface w ++ new' /\
    rooted origin (new ++ new') (branches (tree w')).
Proof.
  induction 1 as [i w|i w b w1 js w2 Hb Hact Hrest IH]; intros new Hroot.
  - exists []. rewrite !app_nil_r. auto.
  - destruct (activate_effect b w w1 Hact) as (l & Hsf & Hstart & _ & Hbs).
    destruct (rooted_step origin new _ b l Hroot (ex_intro _ i Hb) Hstart)
      as [Hsame Hsplit].
    assert (Hroot1 : rooted origin (new ++ [l]) (branches (tree w1))).
    { destruct Hbs as [->|(c1 & c2 & _ & -> & H1 & H2 & _)]; auto. }
    destruct (IH _ Hroot1) as (new' & Hsf' & Hroot').
    exists (l :: new'). rewrite Hsf', Hsf, <- app_assoc.
    split; [reflexivity|]. rewrite <- app_assoc in Hroot'. exact Hroot'.
Qed.

(** *** The length of the list *)

Lemma dead_slots_app bs1 bs2 :
  dead_slots (bs1 ++ bs2) = (dead_slots bs1 + dead_slots bs2)%nat.
Proof. unfold dead_slots. rewrite filter_app, length_app. reflexivity. Qed.

Lemma dead_slots_insert bs : forall i b,
  bs !! i = Some (Some b) ->
  dead_slots (<[i := None]> bs) = S (dead_slots bs).
Proof.
  unfold dead_slots.
  induction bs as [|o bs IH]; intros i b Hi; [discriminate|].
  destruct i as [|i]; cbn in Hi.
  - injection Hi as ->. cbn [insert list_insert].
    rewrite filter_cons_True by reflexivity.
    rewrite filter_cons_False by discriminate. reflexivity.
  - cbn [insert list_insert]. rewrite !filter_cons.
    destruct (decide (o = None)); cbn [length]; erewrite IH by eassumption;
      reflexivity.
Qed.

Lemma dead_slots_seed b : dead_slots [Some b] = 0%nat.
Proof.
  unfold dead_slots. rewrite filter_cons_False by discriminate. reflexivity.
Qed.

Lemma activated_dead_slots : forall first w js w',
  activated first w js w' ->
  live_from first (branches (tree w)) ->
  (length (branches (tree w')) + 2 * dead_slots (branches (tree w)) =
     length (branches (tree w)) + 2 * dead_slots (branches (tree w')))%nat /\
  (dead_slots (branches (tree w')) <=
     dead_slots (branches (tree w)) + length js)%nat.
Proof.
  induction 1 as [i w|i w b w1 js w2 Hb Hact Hrest IH]; intros Hlive.
  - cbn. lia.
  - assert (Hlt : (i < length (branches (tree w)))%nat)
      by (eapply lookup_lt_Some; eassumption).
    destruct (Hlive i) as (b' & Hb' & Hi); [lia|].
    assert (b' = b) by congruence. subst b'.
    destruct (activate_live w i b Hb Hi) as (w1' & Hact' & _ & Hbs).
    assert (w1' = w1) by congruence. subst w1'.
    destruct Hbs as [[_ Heq]|[_ (c1 & c2 & Heq & H1 & H2)]].
    + destruct IH as [IH1 IH2]; [rewrite Heq; by apply live_from_weaken|].
      rewrite Heq in *. cbn [length]. lia.
    + destruct IH as [IH1 IH2]; [rewrite Heq; by apply live_from_step|].
      rewrite Heq in *. rewrite dead_slots_app in *.
      rewrite (dead_slots_insert _ _ _ Hb) in *.
      rewrite length_app, length_insert in *.
      change (dead_slots [Some c1; Some c2]) with 0%nat in *.
      cbn [length] in *. lia.
Qed.

End RunInvariants.

(** X1.  [generate_tree] returns, and what was on the surface before
    is still there, in the same order, before the lines it adds: at
    most [MAX_BRANCH_COUNT] of them, and at least one when
    [MAX_BRANCH_COUNT] is not [0].  The tree it leaves has the eight
    settings given as [presets]: no activation changes them. *)
Theorem generate_tree_keeps_the_surface :
  forall (F : Type) (number : Number F) (math : Math F) (random : Random F)
    (MAX_BRANCH_COUNT : nat) (sf : list (Line F)) (p : F * F) (angle : F)
    (presets : Presets F) (g : rng),
  exists (w' : World F) (new : list (Line F)),
    generate_tree MAX_BRANCH_COUNT sf p angle presets g = Return tt w' /\
    surface w' = sf ++ new /\
    (length new <= MAX_BRANCH_COUNT)%nat /\
    (0 < MAX_BRANCH_COUNT -> 0 < length new)%nat /\
    settings (tree w') = presets.
Proof.
  intros. unfold generate_tree.
  destruct (for_range_spec MAX_BRANCH_COUNT 0 (new_tree sf p angle presets g))
    as (k & w' & Hrun & Hk & Hacts & Hstop & Hle & _ & _).
  - apply new_tree_live.
  - lia.
  - destruct (activated_frame _ _ _ _ Hacts) as (new & Hsf & Hlen & Hset).
    rewrite new_tree_surface in Hsf. rewrite new_tree_settings in Hset.
    rewrite length_seq in Hlen.
    exists w', new. split; [exact Hrun|]. split; [exact Hsf|].
    split; [lia|]. split; [|exact Hset].
    intros Hcap. cbn [Nat.add] in Hstop, Hle.
    destruct Hstop as [->|Hlen']; [lia|].
    assert (1 <= length (branches (tree w')))%nat; [|lia].
    destruct (activated_dead_slots _ _ _ _ Hacts (new_tree_live _ _ _ _ _))
      as [Hcount _].
    destruct (new_tree_branches sf p angle presets g) as [len0 E].
    rewrite E, dead_slots_seed in Hcount. cbn [length] in Hcount. lia.
Qed.

(** X2.  The lines one run of [generate_tree] draws hang together:
    each starts at the position given to [generate_tree], or where a
    line drawn earlier in the run ends.  Every branch left in the list
    starts at that position or at the end of a line of the run. *)
Theorem lines_hang_together :
  forall (F : Type) (number : Number F) (math : Math F) (random : Random F)
    (MAX_BRANCH_COUNT : nat) (sf : list (Line F)) (p : F * F) (angle : F)
    (presets : Presets F) (g : rng),
  exists (w' : World F) (new : list (Line F)),
    generate_tree MAX_BRANCH_COUNT sf p angle presets g = Return tt w' /\
    surface w' = sf ++ new /\
    (forall n l, new !! n = Some l ->
       line_start l = p \/
       exists m l', (m < n)%nat /\ new !! m = Some l' /\
                    line_end l' = line_start l) /\
    (forall j b, branches (tree w') !! j = Some (Some b) ->
       pos b = p \/ exists m l, new !! m = Some l /\ line_end l = pos b).
Proof.
  intros.
  destruct (generate_tree_returns MAX_BRANCH_COUNT sf p angle presets g)
    as (k & w' & Hrun & Hacts).
  destruct (activated_rooted p _ _ _ _ Hacts []) as (new & Hsf & Hconn & Hpos).
  - split; [intros n l Hn; discriminate|].
    destruct (new_tree_branches sf p angle presets g) as [len0 ->].
    intros j b Hj. destruct j as [|j]; [|discriminate].
    injection Hj as <-. auto.
  - rewrite new_tree_surface in Hsf. exists w', new. auto.
Qed.

(** X3.  When [generate_tree] returns after [k] activations ([k] lines
    drawn), the list of branches has an odd length: twice the number of
    emptied slots, plus one.  At most [k] slots are emptied, and all of
    them are below [k]. *)
Theorem list_length_is_odd :
  forall (F : Type) (number : Number F) (math : Math F) (random : Random F)
    (MAX_BRANCH_COUNT : nat) (sf : list (Line F)) (p : F * F) (angle : F)
    (presets : Presets F) (g : rng),
  exists (w' : World F) (k : nat),
    generate_tree MAX_BRANCH_COUNT sf p angle presets g = Return tt w' /\
    length (surface w') = (length sf + k)%nat /\
    length (branches (tree w')) =
      (2 * dead_slots (branches (tree w')) + 1)%nat /\
    (dead_slots (branches (tree w')) <= k)%nat /\
    (forall j, branches (tree w') !! j = Some None -> (j < k)%nat).
Proof.
  intros.
  destruct (generate_tree_returns MAX_BRANCH_COUNT sf p angle presets g)
    as (k & w' & Hrun & Hacts).
  pose proof (new_tree_live sf p angle presets g) as Hlive0.
  destruct (activated_dead_slots _ _ _ _ Hacts Hlive0) as [Hcount Hdead].
  destruct (activated_live _ _ _ _ Hacts Hlive0) as (Hlive & _ & Hsf); [lia|].
  destruct (new_tree_branches sf p angle presets g) as [len0 E].
  rewrite E, dead_slots_seed in Hcount, Hdead. rewrite new_tree_surface in Hsf.
  rewrite length_seq in *. cbn [length Nat.add] in Hcount, Hdead, Hlive.
  exists w', k. split; [exact Hrun|]. split; [exact Hsf|].
  split; [lia|]. split; [lia|].
  intros j Hj. destruct (decide (j < k)%nat) as [|Hge]; [assumption|].
  destruct (Hlive j) as (b & Hb & _).
  { split; [lia|]. eapply lookup_lt_Some; eassumption. }
  congruence.
Qed.

(** X6.  One turn of the loop, in any world.  Past the end of the list
    it breaks, the world unchanged.  On an emptied slot it raises
    [AttributeError] (the loop does not catch it), the world unchanged:
    nothing is drawn.  On a branch, it activates it and goes on, but for
    a branch that splits while its [index] is not a slot of the list:
    then the [IndexError] of [branch_split] is caught as if the list
    had run out, and the loop breaks with the line of the branch drawn
    and the list unchanged.  It never raises [IndexError]. *)
Theorem loop_body_outcomes :
  forall (F : Type) (number : Number F) (math : Math F) (random : Random F)
    (w : World F) (i : nat),
  match branches (tree w) !! i with
  | None => loop_body i w = Return Break w
  | Some None => loop_body i w = Raise AttributeError w
  | Some (Some b) =>
      if (branch_size b >? MINIMUM_BRANCH_SIZE)%py
         && negb (index b <? length (branches (tree w)))%nat
      then loop_body i w = Return Break (drawn b w) /\
           activate b w = Raise IndexError (drawn b w)
      else exists w', loop_body i w = Return Continue w' /\
                      activate b w = Return tt w'
  end.
Proof.
  intros. destruct (branches (tree w) !! i) as [[b|]|] eqn:Hb.
  - rewrite (loop_body_live w i b Hb), activate_eq.
    destruct (branch_size b >? MINIMUM_BRANCH_SIZE)%py; cbn [andb].
    + destruct (Nat.ltb_spec (index b) (length (branches (tree w)))) as [Hlt|Hge];
        cbn [negb].
      * destruct (branch_split_children (drawn b w) (index b)
                    (fst (pos b) + cos (branch_direction b) * branch_length b,
                     snd (pos b) + sin (branch_direction b) * branch_length b)%py
                    (branch_size b) (branch_direction b))
          as (c1 & c2 & w' & Hrun & _); [rewrite drawn_tree; exact Hlt|].
        rewrite Hrun. eauto.
      * rewrite branch_split_out_of_range by (rewrite drawn_tree; exact Hge).
        auto.
    + eauto.
  - apply loop_body_dead, Hb.
  - apply loop_body_exhausted, lookup_ge_None, Hb.
Qed.

(** *** Counting the draws *)

Section Counting.

Context {F : Type} {number : Number F} {math : Math F}.
Variable r : Random F.

Lemma counting_same_samples : forall g1 g2 mu sigma,
  counted_as r g1 g2 ->
  fst (@gauss F r g1 mu sigma) = fst (@gauss F (counting r) g2 mu sigma) /\
  counted_as r (snd (@gauss F r g1 mu sigma))
               (snd (@gauss F (counting r) g2 mu sigma)).
Proof.
  intros g1 [c g2] mu sigma E. unfold counted_as in *. cbn in *. subst g2.
  destruct (@gauss F r g1 mu sigma); split; reflexivity.
Qed.

Lemma counting_split_draws (t : Tree F) (g : @rng F (counting r)) :
  fst (snd (@split_draws F number (counting r) t g)) = (fst g + 4)%nat.
Proof.
  unfold split_draws. destruct g as [c g]. cbn.
  destruct (@gauss F r g _ _) as [x1 g1]. cbn.
  destruct (@gauss F r g1 _ _) as [x2 g2]. cbn.
  destruct (@gauss F r g2 _ _) as [x3 g3]. cbn.
  destruct (@gauss F r g3 _ _) as [x4 g4]. cbn. lia.
Qed.

Lemma counting_activated : forall first (w : @World F (counting r)) js w',
  activated first w js w' ->
  live_from first (branches (tree w)) ->
  (fst (random_state w') + 4 * dead_slots (branches (tree w)) =
     fst (random_state w) + 4 * dead_slots (branches (tree w')))%nat.
Proof.
  induction 1 as [i w|i w b w1 js w2 Hb Hact Hrest IH]; intros Hlive;
    [reflexivity|].
  assert (Hlt : (i < length (branches (tree w)))%nat)
    by (eapply lookup_lt_Some; eassumption).
  destruct (Hlive i) as (b' & Hb' & Hi); [lia|].
  assert (b' = b) by congruence. subst b'.
  pose proof Hact as Hact0. rewrite activate_eq in Hact0.
  destruct (activate_live w i b Hb Hi) as (w1' & Hact' & _ & Hbs).
  assert (w1' = w1) by congruence. subst w1'.
  destruct Hbs as [[Hsize Heq]|[Hsize (c1 & c2 & Heq & H1 & H2)]];
    rewrite Hsize in Hact0.
  - injection Hact0 as <-.
    assert (Hg : random_state (drawn b w) = random_state w)
      by (unfold drawn; rewrite draw_eq; reflexivity).
    rewrite drawn_tree, Hg in IH. apply IH. by apply live_from_weaken.
  - rewrite branch_split_eq in Hact0 by (rewrite drawn_tree, Hi; exact Hlt).
    cbv zeta in Hact0. rewrite drawn_tree in Hact0.
    pose proof (counting_split_draws (tree w) (random_state (drawn b w))) as Hc.
    destruct (split_draws _ _) as [[[[x g1] g2] g3] g]. cbn [fst snd] in Hc.
    assert (Hg : fst (random_state w1) = (fst (random_state w) + 4)%nat).
    { injection Hact0 as Hw1. rewrite <- Hw1. cbn [random_state]. rewrite Hc.
      unfold drawn. rewrite draw_eq. reflexivity. }
    assert (Hlive1 : live_from (S i) (branches (tree w1)))
      by (rewrite Heq; by apply live_from_step).
    specialize (IH Hlive1). rewrite Heq in IH.
    rewrite dead_slots_app, (dead_slots_insert _ _ _ Hb) in IH.
    change (dead_slots [Some c1; Some c2]) with 0%nat in IH. lia.
Qed.

End Counting.

(** X7.  The number of samples a run takes.  The same run with a
    generator that counts its draws ([counting r], started at [c])
    returns the same lines, the same tree and the same state of [r],
    and has drawn [1 + 4 * s] samples, where [s] is the number of
    emptied slots, one per split: one sample for the first branch and
    four for each split. *)
Theorem draws_made_by_generate_tree :
  forall (F : Type) (number : Number F) (math : Math F) (r : Random F)
    (MAX_BRANCH_COUNT : nat) (sf : list (Line F)) (p : F * F) (angle : F)
    (presets : Presets F) (c : nat) (g : @rng F r),
  exists (w : @World F r) (wc : @World F (counting r)),
    @generate_tree F number math r MAX_BRANCH_COUNT sf p angle presets g
      = Return tt w /\
    @generate_tree F number math (counting r) MAX_BRANCH_COUNT sf p angle
      presets (c, g) = Return tt wc /\
    surface wc = surface w /\ tree wc = tree w /\
    snd (random_state wc) = random_state w /\
    fst (random_state wc) =
      (c + 1 + 4 * dead_slots (branches (tree w)))%nat.
Proof.
  intros.
  destruct (@generate_tree_returns F number math r MAX_BRANCH_COUNT sf p angle
              presets g) as (k & w & Hrun & _).
  destruct (@generate_tree_returns F number math (counting r) MAX_BRANCH_COUNT
              sf p angle presets (c, g)) as (kc & wc & Hrunc & Hacts).
  exists w, wc. split; [exact Hrun|]. split; [exact Hrunc|].
  pose proof (for_range_same r (counting r) (counted_as r)
                (counting_same_samples r) MAX_BRANCH_COUNT 0 _ _
                (new_tree_same r (counting r) (counted_as r)
                   (counting_same_samples r) sf p angle presets g (c, g)
                   eq_refl)) as Hout.
  unfold generate_tree in Hrun, Hrunc. rewrite Hrun, Hrunc in Hout.
  inversion Hout as [a v1 v2 (Hs & Hsf & Ht)|]; subst.
  split; [auto|]. split; [auto|]. split; [symmetry; exact Hs|].
  pose proof (counting_activated r _ _ _ _ Hacts (new_tree_live _ _ _ _ _))
    as Hcount.
  destruct (@new_tree_branches F number (counting r) sf p angle presets (c, g))
    as [len0 E].
  rewrite E, dead_slots_seed in Hcount. rewrite Ht.
  assert (Hc0 : fst (random_state
            (@new_tree F number (counting r) sf p angle presets (c, g)))
          = S c).
  { unfold new_tree, Tree_init. cbn.
    destruct (@gauss F r g _ _) as [x g']. reflexivity. }
  rewrite Hc0, <- Ht in Hcount. rewrite <- Ht. lia.
Qed.

(** *** The width of a line, in binary64 *)

Section Binary64Width.

Local Open Scope Z_scope.

Lemma digits2_pos_lower (m : positive) :
  2 ^ (Zpos (digits2_pos m) - 1) <= Zpos m.
Proof.
  induction m as [m IH|m IH|]; cbn [digits2_pos].
  - rewrite Pos2Z.inj_succ.
    replace (Z.succ (Zpos (digits2_pos m)) - 1) with (Z.succ (Zpos (digits2_pos m) - 1)) by lia.
    rewrite Z.pow_succ_r by lia. lia.
  - rewrite Pos2Z.inj_succ.
    replace (Z.succ (Zpos (digits2_pos m)) - 1) with (Z.succ (Zpos (digits2_pos m) - 1)) by lia.
    rewrite Z.pow_succ_r by lia. lia.
  - cbn. lia.
Qed.

(** A finite float that is not below [1] has an integer part of at
    least [1]. *)
Lemma truncate_at_least_one (x : float) :
  PrimFloat.is_finite x = true -> PrimFloat.ltb x 1 = false ->
  1 <= Float64.truncate x.
Proof.
  intros Hfin Hlt. unfold Float64.truncate.
  pose proof (Prim2SF_valid x) as Hvalid.
  rewrite FloatAxioms.ltb_spec in Hlt.
  change (Prim2SF 1) with (S754_finite false 4503599627370496 (-52)) in Hlt.
  unfold PrimFloat.is_finite, PrimFloat.is_nan, PrimFloat.is_infinity in Hfin.
  rewrite !FloatAxioms.eqb_spec, FloatAxioms.abs_spec in Hfin.
  change (Prim2SF infinity) with (S754_infinity false) in Hfin.
  destruct (Prim2SF x) as [s|s| |s m e]; try discriminate.
  - destruct s; discriminate.
  - unfold SFltb, SFcompare in Hlt. destruct s; [discriminate|].
    unfold valid_binary, bounded, canonical_mantissa, fexp, emin in Hvalid.
    apply andb_prop in Hvalid as [Hcan _]. apply Z.eqb_eq in Hcan.
    pose proof (digits2_pos_lower m) as Hm.
    destruct (Z.compare_spec e (-52)) as [->|He|He]; try discriminate.
    + assert (Hd : Zpos (digits2_pos m) = 53) by (unfold prec, emax in *; lia).
      rewrite Hd in Hm. change (2 ^ (53 - 1)) with 4503599627370496 in Hm.
      cbn [Z.opp]. rewrite Z.shiftr_div_pow2 by lia.
      change (2 ^ 52) with 4503599627370496.
      apply Z.div_le_lower_bound; lia.
    + destruct e as [|k|k].
      * rewrite Z.shiftl_0_r. lia.
      * rewrite Z.shiftl_mul_pow2 by lia.
        assert (0 < 2 ^ Zpos k) by (apply Z.pow_pos_nonneg; lia). nia.
      * assert (Hd : Zpos (digits2_pos m) = 53) by (unfold prec, emax in *; lia).
        rewrite Hd in Hm. rewrite Z.shiftr_div_pow2 by lia.
        apply Z.div_le_lower_bound; [apply Z.pow_pos_nonneg; lia|].
        rewrite Z.mul_1_r.
        apply Z.le_trans with (2 ^ 52); [|exact Hm].
        apply Z.pow_le_mono_r; lia.
Qed.

End Binary64Width.

(** ** Clicks and frames *)

Section WindowFacts.

Context {F : Type} {number : Number F} {math : Math F} {random : Random F}.
Variable MAX_BRANCH_COUNT : nat.
Variable presets : Presets F.
Variable random_random : rng -> F * rng.
Variable str : F -> String.string.
Variable rotation_step : F.

#[local] Abbreviation App := (@Window.App F random).
#[local] Abbreviation draw_fractal := (Window.draw_fractal MAX_BRANCH_COUNT presets).
#[local] Abbreviation save_image := (Window.save_image random_random str).
#[local] Abbreviation left_click :=
  (Window.left_click MAX_BRANCH_COUNT presets random_random str).
#[local] Abbreviation handle_event :=
  (Window.handle_event MAX_BRANCH_COUNT presets random_random str).
#[local] Abbreviation handle_events :=
  (Window.handle_events MAX_BRANCH_COUNT presets random_random str).

Lemma collidepoint_true (r : Window.Rect) (p : Z * Z) :
  Window.collidepoint r p = true <->
  (Window.rect_x r <= fst p < Window.rect_x r + Window.rect_w r /\
   Window.rect_y r <= snd p < Window.rect_y r + Window.rect_h r)%Z.
Proof.
  unfold Window.collidepoint. rewrite !andb_true_iff.
  rewrite !Z.leb_le, !Z.ltb_lt. lia.
Qed.

Lemma collidepoint_false (r : Window.Rect) (p : Z * Z) :
  Window.collidepoint r p = false <->
  ~ (Window.rect_x r <= fst p < Window.rect_x r + Window.rect_w r /\
     Window.rect_y r <= snd p < Window.rect_y r + Window.rect_h r)%Z.
Proof.
  rewrite <- collidepoint_true. destruct (Window.collidepoint r p);
    split; try done; intros H; exfalso; auto.
Qed.

(** The call of [generate_tree] in the loop returns. *)
Lemma draw_fractal_returns (a : App) (p : Z * Z) :
  exists w new,
    generate_tree MAX_BRANCH_COUNT (Window.fractal_surface a) (Window.point p)
      (Window.angle a) presets (Window.generator a) = Return tt w /\
    surface w = Window.fractal_surface a ++ new /\
    draw_fractal a p =
      inr (Window.mkApp (Window.running a) (Window.angle a) (surface w)
             (Window.controls_surface_pos a)
             (Window.controls_surface_dragged a) (Window.image_name a)
             (Window.saved_images a) (random_state w)).
Proof.
  destruct (generate_tree_returns MAX_BRANCH_COUNT (Window.fractal_surface a)
              (Window.point p) (Window.angle a) presets (Window.generator a))
    as (k & w & Hrun & Hacts).
  destruct (activated_frame _ _ _ _ Hacts) as (new & Hsf & _).
  rewrite new_tree_surface in Hsf.
  exists w, new. unfold Window.draw_fractal. rewrite Hrun. auto.
Qed.

Lemma save_image_pos (a : App) :
  Window.controls_surface_pos (save_image a) = Window.controls_surface_pos a.
Proof.
  unfold Window.save_image. destruct (random_random _). reflexivity.
Qed.

Lemma on_panel_pos (a a' : App) (p : Z * Z) :
  Window.controls_surface_pos a = Window.controls_surface_pos a' ->
  Window.on_panel a p = Window.on_panel a' p /\
  Window.controls_panel a = Window.controls_panel a'.
Proof.
  intros E. unfold Window.on_panel, Window.controls_panel. rewrite E. auto.
Qed.

Lemma left_click_cases (inp : Window.Input) (a : App) :
  left_click inp a =
    if negb (Window.collidepoint (Window.controls_panel a) (Window.mouse_pos inp))
    then draw_fractal a (Window.mouse_pos inp)
    else if Window.collidepoint (Window.title_bar a) (Window.mouse_pos inp)
    then inr (Window.set_dragged true a)
    else if Window.collidepoint (Window.rect (Window.clear_screen_button))
              (Window.on_panel a (Window.mouse_pos inp))
    then inr (Window.clear_screen a)
    else if Window.collidepoint
              (Window.rect (Window.screenshot_button random_random str))
              (Window.on_panel a (Window.mouse_pos inp))
    then inr (save_image a)
    else inr a.
Proof.
  unfold Window.left_click, Window.buttons, Window.left_mouse_down.
  cbn [foldl]. set (m := Window.mouse_pos inp).
  set (a1 := if Window.collidepoint (Window.title_bar a) m
             then Window.set_dragged true a else a).
  assert (H1 : Window.controls_surface_pos a1 = Window.controls_surface_pos a)
    by (unfold a1; destruct (Window.collidepoint _ m); reflexivity).
  rewrite (proj1 (on_panel_pos a1 a m H1)).
  set (a2 := if Window.collidepoint (Window.rect Window.clear_screen_button)
                  (Window.on_panel a m)
             then Window.action Window.clear_screen_button a1 else a1).
  assert (H2 : Window.controls_surface_pos a2 = Window.controls_surface_pos a)
    by (unfold a2;
        destruct (Window.collidepoint (Window.rect Window.clear_screen_button)
                    (Window.on_panel a m)); exact H1).
  rewrite (proj1 (on_panel_pos a2 a m H2)).
  set (a3 := if Window.collidepoint
                  (Window.rect (Window.screenshot_button random_random str))
                  (Window.on_panel a m)
             then Window.action (Window.screenshot_button random_random str) a2
             else a2).
  assert (H3 : Window.controls_surface_pos a3 = Window.controls_surface_pos a).
  { unfold a3.
    destruct (Window.collidepoint
                (Window.rect (Window.screenshot_button random_random str))
                (Window.on_panel a m)); [|exact H2].
    cbn [Window.action Window.screenshot_button].
    rewrite save_image_pos. exact H2. }
  rewrite (proj2 (on_panel_pos a3 a m H3)).
  unfold a3, a2, a1. clear.
  destruct (Window.collidepoint (Window.controls_panel a) m) eqn:Hpanel;
    destruct (Window.collidepoint (Window.title_bar a) m) eqn:Htitle;
    destruct (Window.collidepoint (Window.rect Window.clear_screen_button)
                (Window.on_panel a m)) eqn:Hclear;
    destruct (Window.collidepoint
                (Window.rect (Window.screenshot_button random_random str))
                (Window.on_panel a m)) eqn:Hsave;
    try reflexivity; exfalso;
    first [ apply collidepoint_true in Hpanel
          | apply collidepoint_false in Hpanel ];
    first [ apply collidepoint_true in Htitle
          | apply collidepoint_false in Htitle ];
    first [ apply collidepoint_true in Hclear
          | apply collidepoint_false in Hclear ];
    first [ apply collidepoint_true in Hsave
          | apply collidepoint_false in Hsave ];
    cbn in Hpanel, Htitle, Hclear, Hsave; lia.
Qed.

Lemma left_click_keeps (inp : Window.Input) (a : App) :
  exists a', left_click inp a = inr a' /\
    Window.running a' = Window.running a /\
    Window.angle a' = Window.angle a /\
    Window.controls_surface_pos a' = Window.controls_surface_pos a.
Proof.
  rewrite left_click_cases.
  destruct (Window.collidepoint (Window.controls_panel a) _); cbn [negb].
  - destruct (Window.collidepoint (Window.title_bar a) _); [eauto|].
    destruct (Window.collidepoint (Window.rect Window.clear_screen_button) _);
      [eauto|].
    destruct (Window.collidepoint (Window.rect (Window.screenshot_button _ _)) _);
      [|eauto].
    eexists. split; [reflexivity|]. unfold Window.save_image.
    destruct (random_random _). auto.
  - destruct (draw_fractal_returns a (Window.mouse_pos inp))
      as (w & new & _ & _ & ->). eauto.
Qed.

Lemma handle_event_keeps (inp : Window.Input) (e : Window.event) (a : App) :
  exists a', handle_event inp e a = inr a' /\
    Window.running a' = Window.running a && negb (Window.stops inp e) /\
    Window.angle a' = Window.angle a /\
    Window.controls_surface_pos a' = Window.controls_surface_pos a /\
    (Window.is_left_click e = false ->
     Window.fractal_surface a' = Window.fractal_surface a /\
     Window.saved_images a' = Window.saved_images a /\
     Window.generator a' = Window.generator a /\
     Window.image_name a' = Window.image_name a).
Proof.
  unfold Window.handle_event.
  set (a0 := match e with
             | Window.QUIT => Window.set_running false a
             | _ => if Window.key_escape inp
                    then Window.set_running false a else a
             end).
  assert (H0 : Window.running a0 =
                 Window.running a && negb (Window.stops inp e) /\
               Window.angle a0 = Window.angle a /\
               Window.controls_surface_pos a0 = Window.controls_surface_pos a /\
               Window.fractal_surface a0 = Window.fractal_surface a /\
               Window.saved_images a0 = Window.saved_images a /\
               Window.generator a0 = Window.generator a /\
               Window.image_name a0 = Window.image_name a).
  { unfold a0, Window.stops.
    destruct e; try destruct (Window.key_escape inp); cbn;
      rewrite ?andb_true_r, ?andb_false_r; auto 10. }
  clearbody a0. destruct H0 as (Hr & Ha & Hp & Hs & Hv & Hg & Hn).
  destruct e as [|button| |].
  - exists a0. auto 10.
  - destruct (decide (button = 1%Z)) as [->|Hne].
    + destruct (left_click_keeps inp a0) as (a' & -> & Hr' & Ha' & Hp').
      exists a'. rewrite Hr', Ha', Hp'. split; [reflexivity|].
      split; [exact Hr|]. split; [exact Ha|]. split; [exact Hp|]. discriminate.
    + assert (E : match button with 1%Z => left_click inp a0
                  | _ => inr a0 end = inr a0).
      { destruct button as [|[p|p|]|p]; try reflexivity. congruence. }
      rewrite E. exists a0. auto 10.
  - exists (Window.set_dragged false a0). cbn. auto 10.
  - exists a0. auto 10.
Qed.

Lemma handle_events_keep (inp : Window.Input) (es : list Window.event) :
  forall a : App,
  exists a', handle_events inp es a = inr a' /\
    Window.running a' =
      Window.running a && negb (existsb (Window.stops inp) es) /\
    Window.angle a' = Window.angle a /\
    Window.controls_surface_pos a' = Window.controls_surface_pos a /\
    (existsb Window.is_left_click es = false ->
     Window.fractal_surface a' = Window.fractal_surface a /\
     Window.saved_images a' = Window.saved_images a /\
     Window.generator a' = Window.generator a /\
     Window.image_name a' = Window.image_name a).
Proof.
  induction es as [|e es IH]; intros a.
  - exists a. cbn. rewrite andb_true_r. auto 10.
  - cbn [Window.handle_events existsb].
    destruct (handle_event_keeps inp e a) as (a1 & -> & Hr & Ha & Hp & Hkeep).
    destruct (IH a1) as (a' & -> & Hr' & Ha' & Hp' & Hkeep').
    exists a'. split; [reflexivity|].
    rewrite Hr', Hr, Ha', Ha, Hp', Hp. split.
    { rewrite negb_orb, andb_assoc. reflexivity. }
    split; [reflexivity|]. split; [reflexivity|].
    intros Hno. apply orb_false_elim in Hno as [He Hes].
    destruct (Hkeep He) as (E1 & E2 & E3 & E4).
    destruct (Hkeep' Hes) as (E1' & E2' & E3' & E4').
    rewrite E1', E2', E3', E4'. auto.
Qed.

End WindowFacts.

Section NameFacts.



End NameFacts.

(** X8.  A press of the left button does one thing, by where the mouse
    is, wherever the panel has been dragged to.  Away from the panel: a
    fractal is drawn from the mouse, and this call of [generate_tree]
    returns and keeps what was on the surface.  On the title bar of the
    panel: the panel starts to be dragged.  On the button "Clear
    Screen": the surface is cleared.  On the button "Save Screenshot":
    an image is saved.  Elsewhere on the panel: nothing.  No press does
    two of these: the buttons and the title bar lie inside the panel
    and do not overlap. *)
Theorem click_has_one_effect :
  forall (F : Type) (number : Number F) (math : Math F) (random : Random F)
    (MAX_BRANCH_COUNT : nat) (presets : Presets F)
    (random_random : rng -> F * rng) (str : F -> String.string)
    (inp : Window.Input) (a : @Window.App F random),
  Window.left_click MAX_BRANCH_COUNT presets random_random str inp a =
    (if negb (Window.collidepoint (Window.controls_panel a)
                (Window.mouse_pos inp))
     then Window.draw_fractal MAX_BRANCH_COUNT presets a (Window.mouse_pos inp)
     else if Window.collidepoint (Window.title_bar a) (Window.mouse_pos inp)
     then inr (Window.set_dragged true a)
     else if Window.collidepoint (Window.rect Window.clear_screen_button)
               (Window.on_panel a (Window.mouse_pos inp))
     then inr (Window.clear_screen a)
     else if Window.collidepoint
               (Window.rect (Window.screenshot_button random_random str))
               (Window.on_panel a (Window.mouse_pos inp))
     then inr (Window.save_image random_random str a)
     else inr a) /\
  exists (w : World F) (new : list (Line F)),
    generate_tree MAX_BRANCH_COUNT (Window.fractal_surface a)
      (Window.point (Window.mouse_pos inp)) (Window.angle a) presets
      (Window.generator a) = Return tt w /\
    surface w = Window.fractal_surface a ++ new /\
    Window.draw_fractal MAX_BRANCH_COUNT presets a (Window.mouse_pos inp) =
      inr (Window.mkApp (Window.running a) (Window.angle a) (surface w)
             (Window.controls_surface_pos a)
             (Window.controls_surface_dragged a) (Window.image_name a)
             (Window.saved_images a) (random_state w)).
Proof.
  intros. split; [apply left_click_cases|apply draw_fractal_returns].
Qed.

(** X9.  When a frame comes to its end, it has cleared [running]
    exactly when its queue held a [QUIT] event, or held any event while
    ESC was held: with an empty queue, ESC alone does not stop the
    program.  (Whether the frame comes to its end is not part of the
    statement: a click on Save Screenshot ends it with an exception
    when [pygame.image.save] cannot write the file.) *)
Theorem frame_stops_on_quit :
  forall (F : Type) (number : Number F) (math : Math F) (random : Random F)
    (MAX_BRANCH_COUNT : nat) (presets : Presets F)
    (random_random : rng -> F * rng) (str : F -> String.string)
    (rotation_step : F) (inp : Window.Input) (a a' : @Window.App F random),
  Window.frame MAX_BRANCH_COUNT presets random_random str rotation_step inp a
    = inr a' ->
  Window.running a' =
    Window.running a &&
    negb (existsb (fun e => match e with
                            | Window.QUIT => true
                            | _ => Window.key_escape inp
                            end) (Window.events inp)).
Proof.
  intros F number math random cap presets random_random str rotation_step
    inp a a' Hframe.
  unfold Window.frame in Hframe.
  destruct (handle_events_keep cap presets random_random str inp
              (Window.events inp) a) as (a1 & E & Hr & _).
  rewrite E in Hframe. injection Hframe as <-. exact Hr.
Qed.

(** X10.  A frame whose queue holds no press of the left button leaves
    the surface, the saved images, the generator and the name of the
    last image as they are: only a left click draws, clears or saves. *)
Theorem frame_without_click_keeps_the_drawing :
  forall (F : Type) (number : Number F) (math : Math F) (random : Random F)
    (MAX_BRANCH_COUNT : nat) (presets : Presets F)
    (random_random : rng -> F * rng) (str : F -> String.string)
    (rotation_step : F) (inp : Window.Input) (a : @Window.App F random),
  existsb Window.is_left_click (Window.events inp) = false ->
  exists a',
    Window.frame MAX_BRANCH_COUNT presets random_random str rotation_step inp a
      = inr a' /\
    Window.fractal_surface a' = Window.fractal_surface a /\
    Window.saved_images a' = Window.saved_images a /\
    Window.generator a' = Window.generator a /\
    Window.image_name a' = Window.image_name a.
Proof.
  intros * Hno. unfold Window.frame.
  destruct (handle_events_keep MAX_BRANCH_COUNT presets random_random str inp
              (Window.events inp) a) as (a1 & -> & _ & _ & _ & Hkeep).
  eexists. split; [reflexivity|]. cbn. auto.
Qed.


(** X12.  A frame turns the angle only by the R key, and moves the
    panel only while it is dragged: whatever the events of the frame do
    (fractals drawn, screen cleared, images saved), the angle at its end
    is the one at its start, less the step when R is held, and the
    panel is where it was, moved by the mouse when the panel is dragged
    at the end of the events. *)
Theorem frame_moves_the_panel_when_dragged :
  forall (F : Type) (number : Number F) (math : Math F) (random : Random F)
    (MAX_BRANCH_COUNT : nat) (presets : Presets F)
    (random_random : rng -> F * rng) (str : F -> String.string)
    (rotation_step : F) (inp : Window.Input) (a : @Window.App F random),
  exists a',
    Window.frame MAX_BRANCH_COUNT presets random_random str rotation_step inp a
      = inr a' /\
    Window.angle a' =
      (if Window.key_r inp then sub (Window.angle a) rotation_step
       else Window.angle a) /\
    Window.controls_surface_pos a' =
      (if Window.controls_surface_dragged a'
       then (fst (Window.controls_surface_pos a) + fst (Window.mouse_rel inp),
             snd (Window.controls_surface_pos a) + snd (Window.mouse_rel inp))%Z
       else Window.controls_surface_pos a).
Proof.
  intros. unfold Window.frame.
  destruct (handle_events_keep MAX_BRANCH_COUNT presets random_random str inp
              (Window.events inp) a) as (a1 & -> & _ & Ha & Hp & _).
  eexists. split; [reflexivity|].
  cbn [Window.angle Window.controls_surface_pos Window.controls_surface_dragged].
  rewrite Ha, Hp. split; reflexivity.
Qed.

Section WindowRuns.

#[local] Existing Instance Demo.replay.
#[local] Existing Instance Demo.at_zero.

(** X10, at a frame without a click. *)
Lemma frame_without_click_keeps_the_drawing_witness :
  existsb Window.is_left_click (Window.events WindowDemo.quiet) = false /\
  exists a',
    Window.frame 5 Demo.presets WindowDemo.random_random WindowDemo.str
      WindowDemo.rotation_step WindowDemo.quiet WindowDemo.initial = inr a' /\
    Window.fractal_surface a' = Window.fractal_surface WindowDemo.initial /\
    Window.saved_images a' = Window.saved_images WindowDemo.initial /\
    Window.generator a' = Window.generator WindowDemo.initial /\
    Window.image_name a' = Window.image_name WindowDemo.initial.
Proof.
  split; [reflexivity|].
  exact (frame_without_click_keeps_the_drawing float _ _ _ 5 Demo.presets
           WindowDemo.random_random WindowDemo.str WindowDemo.rotation_step
           WindowDemo.quiet WindowDemo.initial eq_refl).
Defined.

Lemma click_and_quit_frame :
  Window.frame 5 Demo.presets WindowDemo.random_random WindowDemo.str
    WindowDemo.rotation_step WindowDemo.click_and_quit WindowDemo.initial =
    inr WindowDemo.after_click_and_quit.
Proof. vm_compute. reflexivity. Defined.

(** X9, at a frame with a click away from the panel and then a [QUIT]:
    the fractal is drawn, and the program stops. *)
Lemma frame_stops_on_quit_witness :
  Window.frame 5 Demo.presets WindowDemo.random_random WindowDemo.str
    WindowDemo.rotation_step WindowDemo.click_and_quit WindowDemo.initial =
    inr WindowDemo.after_click_and_quit /\
  Window.running WindowDemo.after_click_and_quit =
    Window.running WindowDemo.initial &&
    negb (existsb (fun e => match e with
                            | Window.QUIT => true
                            | _ => Window.key_escape WindowDemo.click_and_quit
                            end) (Window.events WindowDemo.click_and_quit)).
Proof.
  split; [exact click_and_quit_frame|].
  exact (frame_stops_on_quit float _ _ _ 5 Demo.presets
           WindowDemo.random_random WindowDemo.str WindowDemo.rotation_step
           WindowDemo.click_and_quit WindowDemo.initial
           WindowDemo.after_click_and_quit click_and_quit_frame).
Defined.

(** After that frame the program has stopped, with the five lines of
    the fractal on the surface. *)
Example click_and_quit_stops :
  Window.running WindowDemo.after_click_and_quit = false /\
  length (Window.fractal_surface WindowDemo.after_click_and_quit) = 5%nat.
Proof. split; reflexivity. Qed.

(** A click away from the panel, with [MAX_BRANCH_COUNT = 5]: five lines
    from the mouse, and all the recorded samples taken. *)
Example click_draws_a_fractal :
  exists a',
    Window.frame 5 Demo.presets WindowDemo.random_random WindowDemo.str
      WindowDemo.rotation_step WindowDemo.click WindowDemo.initial = inr a' /\
    map (fun l => (line_start l, line_end l)) (Window.fractal_surface a') =
      [((100, 100), (115, 100)); ((115, 100), (130, 100));
       ((115, 100), (130, 100)); ((130, 100), (145, 100));
       ((130, 100), (145, 100))]%float /\
    Window.generator a' = [] /\ Window.running a' = true /\
    Window.controls_surface_pos a' = (600, 60)%Z.
Proof.
  eexists. split; [vm_compute; reflexivity|]. vm_compute. auto.
Qed.

End WindowRuns.

Section Binary64Rounding.

Local Open Scope Z_scope.

Lemma shr_1_spec m r s :
  0 <= m ->
  shr_1 {| shr_m := m; shr_r := r; shr_s := s |} =
    {| shr_m := Z.div2 m; shr_r := Z.odd m; shr_s := r || s |}.
Proof.
  intros Hm. destruct m as [|[p|p|]|p]; try reflexivity. lia.
Qed.

Lemma shifted_0 m : 0 <= m ->
  shifted m 0 {| shr_m := m; shr_r := false; shr_s := false |}.
Proof.
  intros Hm. split; [exact Hm|]. exists 0. cbn [shr_m shr_r shr_s Z.b2z].
  split; [lia|]. split; [lia|]. split; [discriminate|lia].
Qed.

Lemma shifted_shr_1 m k mrs :
  0 <= k -> shifted m k mrs -> shifted m (k + 1) (shr_1 mrs).
Proof.
  intros Hk (Hm & u & E & Hu & Hs). destruct mrs as [m' r s].
  cbn [shr_m shr_r shr_s] in *. rewrite shr_1_spec by exact Hm.
  cbn [shr_m shr_r shr_s].
  assert (Hpow : 2 ^ (k + 1) = 2 * 2 ^ k) by (rewrite Z.pow_add_r; lia).
  assert (H2 : 0 < 2 ^ k) by (apply Z.pow_pos_nonneg; lia).
  pose proof (Zdiv2_odd_eqn m') as Hdiv.
  split; [rewrite Z.div2_div; apply Z.div_pos; lia|].
  exists (2 ^ k * Z.b2z r + u). rewrite Hpow. cbn [shr_m shr_r shr_s].
  split; [|split].
  - rewrite E. generalize dependent (Z.div2 m'). intros q Hdiv.
    rewrite Hdiv at 1. destruct (Z.odd m'); cbn [Z.b2z]; ring.
  - destruct r; cbn [Z.b2z]; lia.
  - destruct r; cbn [Z.b2z orb].
    + split; [lia|reflexivity].
    + rewrite Hs. lia.
Qed.

Lemma shifted_iter m p : forall k mrs,
  0 <= k -> shifted m k mrs ->
  shifted m (k + Zpos p) (SpecFloat.iter_pos shr_1 p mrs).
Proof.
  induction p as [p IH|p IH|]; intros k mrs Hk H; cbn [SpecFloat.iter_pos].
  - replace (k + Zpos p~1) with (k + 1 + Zpos p + Zpos p) by lia.
    apply IH; [lia|]. apply IH; [lia|]. apply shifted_shr_1; assumption.
  - replace (k + Zpos p~0) with (k + Zpos p + Zpos p) by lia.
    apply IH; [lia|]. apply IH; assumption.
  - apply shifted_shr_1; assumption.
Qed.

(** The mantissa rounded to nearest, ties to even, after [k] bits are
    shifted out: it is the quotient or the next integer, the quotient
    itself when the division is exact, and half a unit away at most. *)
Lemma shifted_round m k mrs :
  0 <= k -> shifted m k mrs ->
  let r := round_nearest_even (shr_m mrs) (loc_of_shr_record mrs) in
  shr_m mrs = m / 2 ^ k /\
  m / 2 ^ k <= r <= m / 2 ^ k + 1 /\
  (m mod 2 ^ k = 0 -> r = m / 2 ^ k) /\
  (r * 2 ^ k < m + 2 ^ k) /\
  Z.abs (2 * (r * 2 ^ k) - 2 * m) <= 2 ^ k.
Proof.
  intros Hk (Hm & u & E & Hu & Hs) r.
  assert (H2 : 0 < 2 ^ k) by (apply Z.pow_pos_nonneg; lia).
  destruct mrs as [m' b s]. cbn [shr_m shr_r shr_s] in *.
  assert (Hq : m' = m / 2 ^ k).
  { apply Z.div_unique_pos with (r := m - 2 ^ k * m'); [|lia].
    destruct b; cbn [Z.b2z] in E; nia. }
  assert (Hmod : m mod 2 ^ k = m - 2 ^ k * m').
  { rewrite Z.mod_eq by lia. rewrite <- Hq. reflexivity. }
  rewrite <- Hq. split; [reflexivity|].
  assert (Hr : r = m' /\ (b = false \/ u = 0) \/ r = m' + 1 /\ b = true).
  { unfold r. cbn [loc_of_shr_record].
    destruct b, s; cbn [round_nearest_even]; try destruct (Z.even m'); auto.
    - left. split; [reflexivity|]. right.
      destruct (Z.eq_dec u 0) as [|Hne]; [assumption|].
      assert (0 < u) by lia. apply Hs in H. discriminate. }
  split; [lia|]. split.
  { rewrite Hmod. intros H0.
    destruct Hr as [[-> _]|[-> ->]]; [reflexivity|]. cbn [Z.b2z] in E. lia. }
  destruct Hr as [[-> [->| ->]]|[-> ->]]; cbn [Z.b2z] in E.
  - split; [nia|]. apply Z.abs_le. nia.
  - split; [destruct b; cbn [Z.b2z] in E; nia|].
    apply Z.abs_le. destruct b; cbn [Z.b2z] in E; nia.
  - split; [nia|]. apply Z.abs_le. nia.
Qed.

Lemma digits2_pos_upper (m : positive) : Zpos m < 2 ^ Zpos (digits2_pos m).
Proof.
  induction m as [m IH|m IH|]; cbn [digits2_pos].
  - rewrite Pos2Z.inj_succ, Z.pow_succ_r by lia. lia.
  - rewrite Pos2Z.inj_succ, Z.pow_succ_r by lia. lia.
  - cbn. lia.
Qed.

Lemma digits2_pos_below (r : positive) (k : Z) :
  Zpos r < 2 ^ k -> Zpos (digits2_pos r) <= k.
Proof.
  intros H. pose proof (digits2_pos_lower r) as L.
  destruct (Z_le_gt_dec (Zpos (digits2_pos r)) k) as [|G]; [assumption|].
  assert (2 ^ k <= 2 ^ (Zpos (digits2_pos r) - 1)).
  { destruct (Z_le_gt_dec 0 k); [apply Z.pow_le_mono_r; lia|].
    rewrite (Z.pow_neg_r 2 k) by lia. apply Z.pow_nonneg. lia. }
  lia.
Qed.

(** A mantissa that is not longer than the format allows is left as it
    is by the second shift of [binary_round_aux]. *)
Lemma shr_fexp_short (r : positive) (e : Z) :
  Zpos r < 2 ^ prec -> -1074 <= e ->
  shr_fexp prec emax (Zpos r) e loc_Exact =
    ({| shr_m := Zpos r; shr_r := false; shr_s := false |}, e).
Proof.
  intros Hr He. unfold shr_fexp, shr. cbn [Zdigits2 shr_record_of_loc].
  pose proof (digits2_pos_below r prec Hr) as Hd.
  destruct (fexp prec emax (Zpos (digits2_pos r) + e) - e) eqn:E;
    try reflexivity.
  unfold fexp, SpecFloat.emin, prec, emax in *. lia.
Qed.

Lemma shr_fexp_zero (e : Z) :
  -1074 <= e ->
  shr_fexp prec emax 0 e loc_Exact =
    ({| shr_m := 0; shr_r := false; shr_s := false |}, e).
Proof.
  intros He. unfold shr_fexp, shr. cbn [Zdigits2 shr_record_of_loc].
  destruct (fexp prec emax (0 + e) - e) eqn:E; try reflexivity.
  unfold fexp, SpecFloat.emin, prec, emax in *. lia.
Qed.

Lemma shr_fexp_carry (e : Z) :
  -1074 <= e ->
  shr_fexp prec emax (2 ^ prec) e loc_Exact =
    ({| shr_m := 2 ^ (prec - 1); shr_r := false; shr_s := false |}, e + 1).
Proof.
  intros He. unfold shr_fexp, shr.
  change (Zdigits2 (2 ^ prec)) with 54.
  replace (fexp prec emax (54 + e) - e) with 1
    by (unfold fexp, SpecFloat.emin, prec, emax in *; lia).
  reflexivity.
Qed.

(** [binary_round_aux] on a mantissa and an exponent that is not above
    the exponent of the format: the mantissa is divided by the power of
    two between the exponents and rounded to nearest; the result is
    zero, or has this mantissa at the exponent of the format, but for
    the carry into the next binade, and if the exponent is too large it
    is infinite. *)
Lemma binary_round_aux_cases (s : bool) (m : positive) (e : Z) :
  let e' := fexp prec emax (Zpos (digits2_pos m) + e) in
  e <= e' ->
  exists r : Z,
    (Zpos m / 2 ^ (e' - e) <= r <= Zpos m / 2 ^ (e' - e) + 1) /\
    (Zpos m mod 2 ^ (e' - e) = 0 -> r = Zpos m / 2 ^ (e' - e)) /\
    Z.abs (2 * (r * 2 ^ (e' - e)) - 2 * Zpos m) <= 2 ^ (e' - e) /\
    r <= 2 ^ prec /\
    binary_round_aux prec emax s (Zpos m) e loc_Exact =
      match r with
      | Z0 => S754_zero s
      | Zpos mr =>
          if r =? 2 ^ prec
          then if e' + 1 <=? emax - prec
               then S754_finite s (Z.to_pos (2 ^ (prec - 1))) (e' + 1)
               else S754_infinity s
          else if e' <=? emax - prec
               then S754_finite s mr e'
               else S754_infinity s
      | Zneg _ => S754_nan
      end.
Proof.
  intros e' He.
  assert (Hemin : -1074 <= e')
    by (unfold e', fexp, SpecFloat.emin, prec, emax; lia).
  pose proof (digits2_pos_upper m) as Hup.
  pose proof (digits2_pos_lower m) as Hlow.
  assert (Hshift : exists mrs,
            shr_fexp prec emax (Zpos m) e loc_Exact = (mrs, e') /\
            shifted (Zpos m) (e' - e) mrs).
  { unfold shr_fexp, shr. cbn [Zdigits2 shr_record_of_loc]. fold e'.
    destruct (e' - e) as [|p|p] eqn:Hn; [| |lia].
    - eexists. split; [f_equal; lia|]. apply shifted_0. lia.
    - eexists. split; [f_equal; lia|].
      apply (shifted_iter (Zpos m) p 0); [lia|apply shifted_0; lia]. }
  destruct Hshift as (mrs & Hshr & Hsh).
  destruct (shifted_round (Zpos m) (e' - e) mrs ltac:(lia) Hsh) as (Hq & Hr & Hex & _ & Herr).
  set (r := round_nearest_even (shr_m mrs) (loc_of_shr_record mrs)) in *.
  assert (H2 : 0 < 2 ^ (e' - e)) by (apply Z.pow_pos_nonneg; lia).
  assert (Hquot : Zpos m / 2 ^ (e' - e) < 2 ^ prec).
  { apply Z.div_lt_upper_bound; [lia|].
    rewrite <- Z.pow_add_r by (unfold prec; lia).
    apply Z.lt_le_trans with (1 := Hup). apply Z.pow_le_mono_r; [lia|].
    unfold e', fexp in *. lia. }
  assert (H0 : 0 <= Zpos m / 2 ^ (e' - e)) by (apply Z.div_pos; lia).
  exists r. split; [exact Hr|]. split; [exact Hex|]. split; [exact Herr|].
  split; [lia|].
  unfold binary_round_aux. rewrite Hshr. fold r.
  destruct r as [|mr|mr] eqn:Er; [| |lia].
  - rewrite shr_fexp_zero by exact Hemin. reflexivity.
  - destruct (Z.eqb_spec (Zpos mr) (2 ^ prec)) as [E|E].
    + rewrite E, shr_fexp_carry by exact Hemin. reflexivity.
    + rewrite shr_fexp_short by (try exact Hemin; lia). reflexivity.
Qed.

End Binary64Rounding.

Section Binary64Values.

Local Open Scope R_scope.

Lemma bpow_pos e : 0 < bpow e.
Proof. apply powerRZ_lt. lra. Qed.

Lemma bpow_add a b : bpow (a + b) = bpow a * bpow b.
Proof. apply powerRZ_add. lra. Qed.

Lemma bpow_succ e : bpow (e + 1) = 2 * bpow e.
Proof.
  rewrite bpow_add. replace (bpow 1) with 2; [lra|].
  unfold bpow, powerRZ. simpl. lra.
Qed.

Lemma bpow_IZR k : (0 <= k)%Z -> bpow k = IZR (2 ^ k).
Proof.
  intros Hk. destruct k as [|p|p]; [reflexivity| |lia].
  unfold bpow. change (2 ^ Zpos p)%Z with (Z.pow_pos 2 p).
  rewrite Zpower_pos_powerRZ. reflexivity.
Qed.

Lemma bpow_le a b : (a <= b)%Z -> bpow a <= bpow b.
Proof.
  intros H. replace b with (a + (b - a))%Z by lia.
  rewrite bpow_add, (bpow_IZR (b - a)) by lia.
  pose proof (bpow_pos a).
  assert (1 <= IZR (2 ^ (b - a))).
  { apply IZR_le. assert (0 < 2 ^ (b - a))%Z by (apply Z.pow_pos_nonneg; lia).
    lia. }
  nra.
Qed.

Lemma bpow_lt a b : (a < b)%Z -> bpow a < bpow b.
Proof.
  intros H. apply Rlt_le_trans with (bpow (a + 1)); [|apply bpow_le; lia].
  rewrite bpow_succ. pose proof (bpow_pos a). lra.
Qed.

Lemma bpow_lt_inv a b : bpow a < bpow b -> (a < b)%Z.
Proof.
  intros H. destruct (Z_lt_le_dec a b) as [|Hle]; [assumption|].
  apply bpow_le in Hle. lra.
Qed.

(** A mantissa at an exponent, at a smaller exponent. *)
Lemma bpow_scale (m : Z) (e n : Z) :
  (0 <= n)%Z -> IZR m * bpow (e + n) = IZR (m * 2 ^ n) * bpow e.
Proof.
  intros Hn. rewrite bpow_add, (bpow_IZR n), mult_IZR by exact Hn. ring.
Qed.

Lemma digits2_pos_bpow (m : positive) :
  bpow (Zpos (digits2_pos m) - 1) <= IZR (Zpos m) < bpow (Zpos (digits2_pos m)).
Proof.
  rewrite !bpow_IZR by lia. split; [apply IZR_le|apply IZR_lt].
  - apply digits2_pos_lower.
  - apply digits2_pos_upper.
Qed.

(** A mantissa of the format has 53 bits at most; it has 53 bits when
    the exponent is not the least one. *)
Lemma bounded_spec (m : positive) (e : Z) :
  bounded prec emax m e = true ->
  (-1074 <= e <= 971)%Z /\ (Zpos (digits2_pos m) <= 53)%Z /\
  ((-1074 < e)%Z -> Zpos (digits2_pos m) = 53%Z) /\
  fexp prec emax (Zpos (digits2_pos m) + e) = e.
Proof.
  unfold bounded, canonical_mantissa. intros H.
  apply andb_prop in H as [Hc He]. apply Z.eqb_eq in Hc. apply Z.leb_le in He.
  split; [|split; [|split]]; try exact Hc;
    unfold fexp, SpecFloat.emin, prec, emax in *; lia.
Qed.

Lemma fexp_mono (a b : Z) :
  (a <= b)%Z -> (fexp prec emax a <= fexp prec emax b)%Z.
Proof. unfold fexp. lia. Qed.

Lemma SF2R_abs (s : bool) (m : positive) (e : Z) :
  Rabs (SF2R (S754_finite s m e)) = IZR (Zpos m) * bpow e.
Proof.
  cbn [SF2R]. pose proof (bpow_pos e).
  assert (0 < IZR (Zpos m)) by (apply IZR_lt; lia).
  destruct s; [rewrite Rabs_left by nra|rewrite Rabs_pos_eq by nra]; lra.
Qed.

Lemma binary_round_aux_rounded (s : bool) (m : positive) (e : Z) :
  (e <= fexp prec emax (Zpos (digits2_pos m) + e))%Z ->
  rounded_to s (IZR (Zpos m) * bpow e)
    (binary_round_aux prec emax s (Zpos m) e loc_Exact).
Proof.
  intros He.
  destruct (binary_round_aux_cases s m e He)
    as (r & Hr & Hex & Herr & Hcap & Hf).
  set (d := Zpos (digits2_pos m)) in *.
  set (e' := fexp prec emax (d + e)) in *.
  set (n := (e' - e)%Z) in *.
  set (f := binary_round_aux prec emax s (Zpos m) e loc_Exact) in *.
  set (x := IZR (Zpos m) * bpow e).
  assert (Hn : (0 <= n)%Z) by (unfold n; lia).
  assert (H2 : (0 < 2 ^ n)%Z) by (apply Z.pow_pos_nonneg; lia).
  assert (Hq0 : (0 <= Zpos m / 2 ^ n)%Z) by (apply Z.div_pos; lia).
  assert (He' : e' = (e + n)%Z) by (unfold n; lia).
  assert (Hemin : (-1074 <= e')%Z)
    by (unfold e', fexp, SpecFloat.emin, prec, emax; lia).
  pose proof (bpow_pos e) as Hbe. pose proof (bpow_pos e') as Hbe'.
  pose proof (digits2_pos_bpow m) as Hdig. fold d in Hdig.
  assert (Hxlow : bpow (d - 1 + e) <= x).
  { unfold x. rewrite bpow_add. nra. }
  assert (Hxup : x < bpow (d + e)).
  { unfold x. rewrite bpow_add. nra. }
  (* the value of the result *)
  assert (Hval : f <> S754_infinity s ->
                 Rabs (SF2R f) = IZR r * bpow e').
  { intros Hfin. rewrite Hf in Hfin |- *.
    destruct r as [|mr|mr]; [cbn [SF2R]; rewrite Rabs_R0; lra| |lia].
    destruct (Z.eqb_spec (Zpos mr) (2 ^ prec)) as [E|E].
    - destruct (e' + 1 <=? emax - prec)%Z; [|congruence].
      rewrite SF2R_abs, E.
      replace (Zpos (Z.to_pos (2 ^ (prec - 1)))) with (2 ^ (prec - 1))%Z
        by reflexivity.
      rewrite bpow_succ.
      change (2 ^ prec)%Z with (2 * 2 ^ (prec - 1))%Z. rewrite mult_IZR. lra.
    - destruct (e' <=? emax - prec)%Z; [|congruence].
      rewrite SF2R_abs. reflexivity. }
  (* overflow needs a large exponent *)
  assert (Hinf : f = S754_infinity s ->
                 (emax - prec < e')%Z \/
                 (r = 2 ^ prec /\ e' = emax - prec)%Z).
  { intros E. rewrite Hf in E. destruct r as [|mr|mr]; [discriminate| |lia].
    destruct (Z.eqb_spec (Zpos mr) (2 ^ prec)) as [E1|E1].
    - destruct (Z.leb_spec (e' + 1) (emax - prec))%Z; [discriminate|].
      destruct (Z.eq_dec e' (emax - prec)%Z); [right; auto|left; lia].
    - destruct (Z.leb_spec e' (emax - prec)%Z); [discriminate|]. left. lia. }
  (* the quotient, and the floats around [x] *)
  set (q := (Zpos m / 2 ^ n)%Z) in *.
  assert (Hdm : (Zpos m = 2 ^ n * q + Zpos m mod 2 ^ n)%Z)
    by (apply Z.div_mod; lia).
  pose proof (Z.mod_pos_bound (Zpos m) (2 ^ n) H2) as Hrho.
  assert (Hulp : bpow e' = IZR (2 ^ n) * bpow e).
  { rewrite He', bpow_add, (bpow_IZR n) by exact Hn. ring. }
  assert (Hdiff : forall k : Z,
            IZR k * bpow e' - x = IZR (k * 2 ^ n - Zpos m) * bpow e).
  { intros k. unfold x. rewrite He', bpow_scale, minus_IZR by exact Hn. ring. }
  assert (Hrq : r = q \/ r = (q + 1)%Z) by lia.
  assert (Hnear : (Z.abs (r * 2 ^ n - Zpos m) <= Zpos m - q * 2 ^ n)%Z).
  { destruct (Z.eq_dec (Zpos m mod 2 ^ n)%Z 0%Z) as [E0|E0];
      [rewrite (Hex E0); lia|].
    destruct Hrq as [E|E]; rewrite E in Herr |- *; lia. }
  assert (Hnear' : (Zpos m mod 2 ^ n <> 0 ->
            Z.abs (r * 2 ^ n - Zpos m) <= (q + 1) * 2 ^ n - Zpos m)%Z).
  { intros E0. destruct Hrq as [E|E]; rewrite E in Herr |- *; lia. }
  assert (Habove : forall mg eg, bounded prec emax mg eg = true ->
            x <= IZR (Zpos mg) * bpow eg ->
            exists G : Z,
              IZR (Zpos mg) * bpow eg = IZR G * bpow e' /\
              (r <= G)%Z /\ (Zpos m <= G * 2 ^ n)%Z /\
              (Z.abs (r * 2 ^ n - Zpos m) <= G * 2 ^ n - Zpos m)%Z /\
              (e' <= eg)%Z /\ G = (Zpos mg * 2 ^ (eg - e'))%Z).
  { intros mg eg Hb Hle.
    destruct (bounded_spec mg eg Hb) as (Heg & Hdg & _ & Hcan).
    pose proof (digits2_pos_bpow mg) as Hg.
    set (dg := Zpos (digits2_pos mg)) in *. pose proof (bpow_pos eg).
    assert (Hmag : (d + e <= dg + eg)%Z).
    { assert (bpow (d - 1 + e) < bpow (dg + eg)).
      { apply Rle_lt_trans with (1 := Hxlow).
        apply Rle_lt_trans with (1 := Hle). rewrite bpow_add. nra. }
      apply bpow_lt_inv in H0. lia. }
    assert (Hee : (e' <= eg)%Z).
    { rewrite <- Hcan. apply fexp_mono. exact Hmag. }
    exists (Zpos mg * 2 ^ (eg - e'))%Z. set (G := (Zpos mg * 2 ^ (eg - e'))%Z).
    assert (HG : IZR (Zpos mg) * bpow eg = IZR G * bpow e').
    { unfold G. rewrite <- bpow_scale by lia. f_equal. f_equal. lia. }
    assert (HGm : (Zpos m <= G * 2 ^ n)%Z).
    { apply le_IZR. apply Rmult_le_reg_r with (bpow e); [exact Hbe|].
      rewrite <- bpow_scale by exact Hn. rewrite <- He', <- HG. exact Hle. }
    assert (HrG : (r <= G)%Z /\
                  (Z.abs (r * 2 ^ n - Zpos m) <= G * 2 ^ n - Zpos m)%Z).
    { destruct (Z.eq_dec (Zpos m mod 2 ^ n)%Z 0%Z) as [E0|E0].
      - rewrite (Hex E0). split; [apply Z.div_le_upper_bound; lia|].
        fold q. lia.
      - assert (q < G)%Z.
        { apply Z.div_lt_upper_bound; [lia|].
          destruct (Z.eq_dec (Zpos m) (G * 2 ^ n)%Z) as [E1|E1]; [|lia].
          rewrite E1, Z.mod_mul in E0 by lia. congruence. }
        split; [lia|]. specialize (Hnear' E0).
        assert ((q + 1) * 2 ^ n <= G * 2 ^ n)%Z
          by (apply Z.mul_le_mono_nonneg_r; lia).
        lia. }
    split; [exact HG|]. split; [apply HrG|]. split; [exact HGm|].
    split; [apply HrG|auto]. }
  assert (Hbelow : forall mg eg, bounded prec emax mg eg = true ->
            IZR (Zpos mg) * bpow eg <= x ->
            IZR (Zpos mg) * bpow eg <= IZR q * bpow e').
  { intros mg eg Hb Hle.
    destruct (bounded_spec mg eg Hb) as (Heg & Hdg & _ & Hcan).
    pose proof (digits2_pos_bpow mg) as Hg.
    set (dg := Zpos (digits2_pos mg)) in *. pose proof (bpow_pos eg).
    destruct (Z_le_gt_dec e' eg) as [Hee|Hee].
    + set (G := (Zpos mg * 2 ^ (eg - e'))%Z).
      assert (HG : IZR (Zpos mg) * bpow eg = IZR G * bpow e').
      { unfold G. rewrite <- bpow_scale by lia. f_equal. f_equal. lia. }
      assert (HGm : (G * 2 ^ n <= Zpos m)%Z).
      { apply le_IZR. apply Rmult_le_reg_r with (bpow e); [exact Hbe|].
        rewrite <- bpow_scale by exact Hn. rewrite <- He', <- HG. exact Hle. }
      rewrite HG. apply Rmult_le_compat_r; [lra|]. apply IZR_le.
      apply Z.div_le_lower_bound; lia.
    + assert (Hd53 : (e' = d + e - 53)%Z)
        by (unfold e', fexp, SpecFloat.emin, prec, emax in *; lia).
      assert (Hq : (2 ^ 52 <= q)%Z).
      { apply Z.div_le_lower_bound; [lia|].
        rewrite <- Z.pow_add_r by lia.
        replace (n + 52)%Z with (d - 1)%Z by lia.
        apply digits2_pos_lower. }
      apply Rle_trans with (bpow (53 + eg)).
      { rewrite bpow_add. apply Rmult_le_compat_r; [lra|].
        apply Rle_trans with (bpow dg); [lra|]. apply bpow_le. lia. }
      apply Rle_trans with (bpow (52 + e')); [apply bpow_le; lia|].
      rewrite bpow_add. apply Rmult_le_compat_r; [lra|].
      rewrite bpow_IZR by lia. apply IZR_le. lia. }
  assert (Hxq : forall g : R, g <= IZR q * bpow e' ->
            Rabs (IZR r * bpow e' - x) <= x - g).
  { intros g Hg. rewrite Hdiff, Rabs_mult, (Rabs_pos_eq (bpow e)) by lra.
    apply Rle_trans with (x - IZR q * bpow e'); [|lra].
    replace (x - IZR q * bpow e') with (IZR (Zpos m - q * 2 ^ n) * bpow e)
      by (unfold x; rewrite He', bpow_scale, minus_IZR by exact Hn; ring).
    rewrite <- abs_IZR.
    apply Rmult_le_compat_r; [lra|]. apply IZR_le. lia. }
  split; [|split; [|split; [|split]]].
  - rewrite Hf. destruct r as [|mr|mr]; [auto| |lia].
    destruct (_ =? _)%Z; destruct (_ <=? _)%Z; eauto.
  - intros Hfin. rewrite (Hval Hfin). split.
    + rewrite Hdiff, Rabs_mult, (Rabs_pos_eq (bpow e)) by lra.
      assert (Hhalf : 2 * Rabs (IZR (r * 2 ^ n - Zpos m)) <= IZR (2 ^ n)).
      { rewrite <- abs_IZR, <- mult_IZR. apply IZR_le. lia. }
      assert (Hbound : bpow e' <= 2 * (bpow (-53) * x + bpow (-1075))).
      { pose proof (bpow_pos (-53)). pose proof (bpow_pos (-1075)).
        assert (0 < x) by (pose proof (bpow_pos (d - 1 + e)); lra).
        destruct (Z.eq_dec e' (-1074)%Z) as [E74|Hne].
        - rewrite E74.
          replace (bpow (-1074)) with (2 * bpow (-1075))
            by (rewrite <- bpow_succ; reflexivity).
          nra.
        - assert (Ee : (e' = (-53 + (d - 1 + e)) + 1)%Z)
            by (unfold e', fexp, SpecFloat.emin, prec, emax in *; lia).
          rewrite Ee at 1. rewrite bpow_succ, bpow_add.
          pose proof (bpow_pos (-1075)). nra. }
      nra.
    + apply Rle_trans with (x - 0); [|lra]. apply Hxq.
      apply Rmult_le_pos; [apply IZR_le; exact Hq0|lra].
  - intros mg eg Hb Hle.
    destruct (Habove mg eg Hb Hle) as (G & HG & HrG & _ & _ & Hee & EG).
    destruct (bounded_spec mg eg Hb) as (Heg & Hdg & _ & Hcan).
    pose proof (digits2_pos_bpow mg) as Hg.
    assert (Hmg : (Zpos mg < 2 ^ prec)%Z).
    { apply lt_IZR. rewrite <- (bpow_IZR prec) by (unfold prec; lia).
      apply Rlt_le_trans with (bpow (Zpos (digits2_pos mg))); [lra|].
      apply bpow_le. exact Hdg. }
    assert (Hfin : f <> S754_infinity s).
    { intros E. destruct (Hinf E) as [Hbig|[Er Ee]];
        [unfold prec, emax in *; lia|].
      assert (eg = e') by (unfold prec, emax in *; lia). subst eg.
      rewrite Z.sub_diag, Z.mul_1_r in EG. lia. }
    split; [exact Hfin|]. rewrite (Hval Hfin), HG.
    apply Rmult_le_compat_r; [lra|]. apply IZR_le. exact HrG.
  - intros mg eg Hb Hle Hfin. rewrite (Hval Hfin).
    apply Rle_trans with (1 := Hbelow mg eg Hb Hle).
    apply Rmult_le_compat_r; [lra|]. apply IZR_le. lia.
  - intros mg eg Hb Hfin. rewrite (Hval Hfin).
    destruct (Rle_dec x (IZR (Zpos mg) * bpow eg)) as [Hle|Hgt].
    + destruct (Habove mg eg Hb Hle) as (G & HG & _ & HGm & HGn & _).
      rewrite HG, !Hdiff, !Rabs_mult, <- !abs_IZR.
      apply Rmult_le_compat_r; [apply Rabs_pos|]. apply IZR_le.
      rewrite (Z.abs_eq (G * 2 ^ n - Zpos m)) by lia. exact HGn.
    + assert (Hle : IZR (Zpos mg) * bpow eg <= x) by lra.
      pose proof (Hxq _ (Hbelow mg eg Hb Hle)) as H.
      rewrite (Rabs_left1 (IZR (Zpos mg) * bpow eg - x)) by lra. lra.
Qed.

Lemma iter_xO_spec (m d : positive) :
  Zpos (Pos.iter xO m d) = (Zpos m * 2 ^ Zpos d)%Z /\
  digits2_pos (Pos.iter xO m d) = (digits2_pos m + d)%positive.
Proof.
  induction d as [|d [IH1 IH2]] using Pos.peano_ind.
  - cbn [Pos.iter digits2_pos]. split; [lia|]. lia.
  - rewrite Pos.iter_succ. cbn [digits2_pos]. rewrite IH2.
    rewrite Pos2Z.inj_xO, IH1, Pos2Z.inj_succ, Z.pow_succ_r by lia.
    split; lia.
Qed.

(** [shl_align] keeps the value and the position of the leading bit. *)
Lemma shl_align_spec (m : positive) (e e2 : Z) :
  IZR (Zpos (fst (shl_align m e e2))) * bpow (snd (shl_align m e e2)) =
    IZR (Zpos m) * bpow e /\
  (Zpos (digits2_pos (fst (shl_align m e e2))) + snd (shl_align m e e2) =
     Zpos (digits2_pos m) + e)%Z /\
  snd (shl_align m e e2) = Z.min e e2 /\
  Zpos (fst (shl_align m e e2)) = (Zpos m * 2 ^ (e - Z.min e e2))%Z.
Proof.
  unfold shl_align. destruct (e2 - e)%Z as [|d|d] eqn:E; cbn [fst snd].
  - replace (Z.min e e2) with e by lia. rewrite Z.sub_diag.
    split; [reflexivity|]. split; [reflexivity|]. split; lia.
  - replace (Z.min e e2) with e by lia. rewrite Z.sub_diag.
    split; [reflexivity|]. split; [reflexivity|]. split; lia.
  - destruct (iter_xO_spec m d) as [E1 E2]. rewrite E1, E2.
    replace (Z.min e e2) with e2 by lia.
    replace (e - e2)%Z with (Zpos d) by lia.
    split; [|split; [|split]]; try lia.
    rewrite <- bpow_scale by lia. f_equal. f_equal. lia.
Qed.

Lemma binary_round_rounded (s : bool) (m : positive) (e : Z) :
  rounded_to s (IZR (Zpos m) * bpow e) (binary_round prec emax s m e).
Proof.
  unfold binary_round.
  destruct (shl_align_spec m e (fexp prec emax (Zpos (digits2_pos m) + e)))
    as (Hv & Hd & He & _).
  destruct (shl_align m e _) as [mz ez]. cbn [fst snd] in *.
  rewrite <- Hv. apply binary_round_aux_rounded. rewrite Hd, He. lia.
Qed.

(** The shape of a finite binary64 value. *)
Lemma is_finite_spec (z : float) :
  PrimFloat.is_finite z = true <->
  match Prim2SF z with
  | S754_zero _ | S754_finite _ _ _ => True
  | _ => False
  end.
Proof.
  unfold PrimFloat.is_finite, PrimFloat.is_nan, PrimFloat.is_infinity.
  rewrite !FloatAxioms.eqb_spec, FloatAxioms.abs_spec.
  change (Prim2SF infinity) with (S754_infinity false).
  destruct (Prim2SF z) as [s|s| |s m e]; unfold SFeqb; cbn.
  - destruct s; tauto.
  - destruct s; cbn; split; intros H; [discriminate|tauto|discriminate|tauto].
  - split; intros H; [discriminate|tauto].
  - rewrite Z.compare_refl, Pos.compare_cont_refl. destruct s; cbn; tauto.
Qed.

Lemma B2R_finite (g : float) :
  PrimFloat.is_finite g = true ->
  B2R g = 0 \/
  exists s m e, Prim2SF g = S754_finite s m e /\
                bounded prec emax m e = true.
Proof.
  intros H. apply is_finite_spec in H. pose proof (Prim2SF_valid g) as Hv.
  unfold B2R. destruct (Prim2SF g) as [s|s| |s m e]; try contradiction.
  - left. reflexivity.
  - right. exists s, m, e. auto.
Qed.

Lemma SF2R_sign (s : bool) (m : positive) (e : Z) :
  SF2R (S754_finite s m e) =
    (if s then -1 else 1) * (IZR (Zpos m) * bpow e) /\
  0 < IZR (Zpos m) * bpow e.
Proof.
  cbn [SF2R]. pose proof (bpow_pos e).
  assert (0 < IZR (Zpos m)) by (apply IZR_lt; lia).
  split; [ring|nra].
Qed.

(** From a magnitude and a sign to the number itself. *)
Lemma rounded_rounds (s : bool) (X x : R) (z : float) :
  0 < X -> x = (if s then -1 else 1) * X ->
  rounded_to s X (Prim2SF z) -> rounds x z.
Proof.
  intros HX Hx (Hshape & Herr & Hup & Hdown & Hnear).
  assert (Habs : Rabs x = X).
  { rewrite Hx. destruct s; [rewrite Rabs_left by lra|rewrite Rabs_pos_eq by lra];
      lra. }
  assert (Hfin : PrimFloat.is_finite z = true -> Prim2SF z <> S754_infinity s).
  { intros H E. apply is_finite_spec in H. rewrite E in H. exact H. }
  assert (Hval : Prim2SF z <> S754_infinity s ->
                 B2R z = (if s then -1 else 1) * Rabs (B2R z)).
  { intros H. unfold B2R.
    destruct Hshape as [E|[E|(m & e & E)]]; [congruence| |]; rewrite E.
    - cbn [SF2R]. rewrite Rabs_R0. lra.
    - rewrite SF2R_abs. apply SF2R_sign. }
  split; [|split].
  - apply spec_not_nan.
    destruct Hshape as [E|[E|(m & e & E)]]; rewrite E; discriminate.
  - intros g Hg Hle. rewrite Habs in Hle.
    destruct (B2R_finite g Hg) as [E|(sg & mg & eg & E & Hb)].
    { rewrite E, Rabs_R0 in Hle. lra. }
    unfold B2R in Hle. rewrite E, SF2R_abs in Hle.
    destruct (Hup mg eg Hb Hle) as [Hni _].
    apply is_finite_spec.
    destruct Hshape as [E'|[E'|(m & e & E')]]; [congruence| |]; rewrite E';
      exact I.
  - intros Hz. pose proof (Hfin Hz) as Hni. pose proof (Hval Hni) as Hs.
    fold (B2R z) in Herr. destruct (Herr Hni) as [Herr1 Herr2].
    assert (Hdist : Rabs (B2R z - x) = Rabs (Rabs (B2R z) - X)).
    { replace (B2R z - x) with ((if s then -1 else 1) * (Rabs (B2R z) - X))
        by (rewrite Hs at 2; rewrite Hx; ring).
      rewrite Rabs_mult.
      replace (Rabs (if s then -1 else 1)) with 1
        by (destruct s; [rewrite Rabs_left by lra|rewrite Rabs_pos_eq by lra];
            lra).
      lra. }
    split; [|split; [|split]].
    + rewrite Habs, Hdist. exact Herr1.
    + intros g Hg Hle. pose proof (Rabs_pos (B2R z)) as Hpos.
      destruct (B2R_finite g Hg) as [E|(sg & mg & eg & E & Hb)].
      { rewrite E in *. destruct s; [lra|]. lra. }
      destruct (SF2R_sign sg mg eg) as [Eg Hgpos].
      unfold B2R at 2. unfold B2R in Hle. rewrite E in Hle |- *.
      rewrite Eg in Hle |- *.
      destruct s, sg; try lra.
      * assert (H : IZR (Zpos mg) * bpow eg <= X) by lra.
        pose proof (Hdown mg eg Hb H Hni) as H1. fold (B2R z) in H1. lra.
      * assert (H : X <= IZR (Zpos mg) * bpow eg) by lra.
        destruct (Hup mg eg Hb H) as [_ H1]. fold (B2R z) in H1. lra.
    + intros g Hg Hle. pose proof (Rabs_pos (B2R z)) as Hpos.
      destruct (B2R_finite g Hg) as [E|(sg & mg & eg & E & Hb)].
      { rewrite E in *. destruct s; [lra|]. lra. }
      destruct (SF2R_sign sg mg eg) as [Eg Hgpos].
      unfold B2R at 1. unfold B2R in Hle. rewrite E in Hle |- *.
      rewrite Eg in Hle |- *.
      destruct s, sg; try lra.
      * assert (H : X <= IZR (Zpos mg) * bpow eg) by lra.
        destruct (Hup mg eg Hb H) as [_ H1]. fold (B2R z) in H1. lra.
      * assert (H : IZR (Zpos mg) * bpow eg <= X) by lra.
        pose proof (Hdown mg eg Hb H Hni) as H1. fold (B2R z) in H1. lra.
    + intros g Hg. rewrite Hdist.
      destruct (B2R_finite g Hg) as [E|(sg & mg & eg & E & Hb)].
      { rewrite E. replace (0 - x) with (- x) by ring.
        rewrite Rabs_Ropp, Habs. exact Herr2. }
      destruct (SF2R_sign sg mg eg) as [Eg Hgpos].
      pose proof (Hnear mg eg Hb Hni) as H1. fold (B2R z) in H1.
      unfold B2R at 2. rewrite E, Eg, Hx.
      destruct s, sg.
      * replace (-1 * (IZR (Zpos mg) * bpow eg) - -1 * X)
          with (- (IZR (Zpos mg) * bpow eg - X)) by ring.
        rewrite Rabs_Ropp. exact H1.
      * apply Rle_trans with (1 := Herr2).
        rewrite Rabs_pos_eq by lra. lra.
      * apply Rle_trans with (1 := Herr2).
        rewrite Rabs_left by lra. lra.
      * replace (1 * (IZR (Zpos mg) * bpow eg) - 1 * X)
          with (IZR (Zpos mg) * bpow eg - X) by ring.
        exact H1.
Qed.

(** A finite value that stands for [x] itself. *)
Lemma exact_rounds (x : R) (z : float) :
  PrimFloat.is_finite z = true -> B2R z = x -> rounds x z.
Proof.
  intros Hz <-. split; [|split].
  - apply is_finite_spec in Hz. apply spec_not_nan. intros E.
    rewrite E in Hz. exact Hz.
  - intros _ _ _. exact Hz.
  - intros _. rewrite Rminus_diag, Rabs_R0.
    split; [|split; [|split]]; auto.
    + pose proof (bpow_pos (-53)). pose proof (bpow_pos (-1075)).
      pose proof (Rabs_pos (B2R z)). nra.
    + intros g _. apply Rabs_pos.
Qed.

Lemma finite_rounds_zero (z : float) (s : bool) :
  Prim2SF z = S754_zero s -> rounds 0 z.
Proof.
  intros E. apply exact_rounds.
  - apply is_finite_spec. rewrite E. exact I.
  - unfold B2R. rewrite E. reflexivity.
Qed.

Lemma digits2_pos_mul (m1 m2 : positive) :
  (Zpos (digits2_pos m1) + Zpos (digits2_pos m2) - 1
   <= Zpos (digits2_pos (m1 * m2)))%Z.
Proof.
  pose proof (digits2_pos_lower m1) as H1.
  pose proof (digits2_pos_lower m2) as H2.
  pose proof (digits2_pos_upper (m1 * m2)) as H.
  set (d1 := Zpos (digits2_pos m1)) in *. set (d2 := Zpos (digits2_pos m2)) in *.
  set (d := Zpos (digits2_pos (m1 * m2))) in *.
  assert (2 ^ (d1 - 1 + (d2 - 1)) < 2 ^ d)%Z.
  { rewrite Z.pow_add_r by lia. rewrite Pos2Z.inj_mul in H.
    assert (0 < 2 ^ (d1 - 1))%Z by (apply Z.pow_pos_nonneg; lia).
    assert (0 < 2 ^ (d2 - 1))%Z by (apply Z.pow_pos_nonneg; lia). nia. }
  apply Z.pow_lt_mono_r_iff in H0; lia.
Qed.

(** The product of two finite binary64 values is their product as
    real numbers, rounded. *)
Lemma mul_rounds (x y : float) :
  PrimFloat.is_finite x = true -> PrimFloat.is_finite y = true ->
  rounds (B2R x * B2R y) (x * y)%float.
Proof.
  intros Hx Hy. pose proof (FloatAxioms.mul_spec x y) as E.
  pose proof (Prim2SF_valid x) as Vx. pose proof (Prim2SF_valid y) as Vy.
  apply is_finite_spec in Hx. apply is_finite_spec in Hy. unfold B2R at 1 2.
  destruct (Prim2SF x) as [sx|sx| |sx mx ex]; try contradiction;
    destruct (Prim2SF y) as [sy|sy| |sy my ey]; try contradiction;
    cbn [SF64mul SFmul] in E; unfold SF64mul, SFmul in E.
  - cbn [SF2R]. rewrite Rmult_0_l. eapply finite_rounds_zero, E.
  - cbn [SF2R]. rewrite Rmult_0_l. eapply finite_rounds_zero, E.
  - cbn [SF2R]. rewrite Rmult_0_r. eapply finite_rounds_zero, E.
  - destruct (SF2R_sign sx mx ex) as [Ex Hxpos].
    destruct (SF2R_sign sy my ey) as [Ey Hypos].
    destruct (bounded_spec mx ex Vx) as (Hex & Hdx & Hnx & _).
    destruct (bounded_spec my ey Vy) as (Hey & Hdy & Hny & _).
    apply (rounded_rounds (xorb sx sy)
             (IZR (Zpos (mx * my)) * bpow (ex + ey))).
    + rewrite Pos2Z.inj_mul, mult_IZR, bpow_add. nra.
    + rewrite Ex, Ey, Pos2Z.inj_mul, mult_IZR, bpow_add.
      destruct sx, sy; cbn [xorb]; ring.
    + rewrite E. apply binary_round_aux_rounded.
      pose proof (digits2_pos_mul mx my) as Hd.
      pose proof (Pos2Z.is_pos (digits2_pos mx)).
      pose proof (Pos2Z.is_pos (digits2_pos my)).
      unfold fexp, SpecFloat.emin, prec, emax. lia.
Qed.

Lemma cond_Zopp_IZR (s : bool) (m : Z) :
  IZR (cond_Zopp s m) = (if s then -1 else 1) * IZR m.
Proof. destruct s; cbn [cond_Zopp]; [rewrite opp_IZR|]; ring. Qed.

(** [binary_normalize] rounds the integer at the exponent. *)
Lemma binary_normalize_rounds (S : Z) (e : Z) (z : float) :
  Prim2SF z = binary_normalize prec emax S e false ->
  rounds (IZR S * bpow e) z.
Proof.
  intros E. unfold binary_normalize in E. pose proof (bpow_pos e).
  destruct S as [|m|m].
  - rewrite Rmult_0_l. eapply finite_rounds_zero, E.
  - apply (rounded_rounds false (IZR (Zpos m) * bpow e)).
    + assert (0 < IZR (Zpos m)) by (apply IZR_lt; lia). nra.
    + ring.
    + rewrite E. apply binary_round_rounded.
  - apply (rounded_rounds true (IZR (Zpos m) * bpow e)).
    + assert (0 < IZR (Zpos m)) by (apply IZR_lt; lia). nra.
    + change (Zneg m) with (- Zpos m)%Z. rewrite opp_IZR. ring.
    + rewrite E. apply binary_round_rounded.
Qed.

(** A mantissa aligned to the smaller of two exponents. *)
Lemma aligned_value (s : bool) (m : positive) (e e2 : Z) :
  IZR (cond_Zopp s (Zpos (fst (shl_align m e (Z.min e e2))))) *
    bpow (Z.min e e2) = SF2R (S754_finite s m e).
Proof.
  destruct (shl_align_spec m e (Z.min e e2)) as (_ & _ & _ & Hm).
  rewrite cond_Zopp_IZR, Hm.
  replace (Z.min e (Z.min e e2)) with (Z.min e e2) by lia.
  assert (H : IZR (Zpos m * 2 ^ (e - Z.min e e2)) * bpow (Z.min e e2) =
              IZR (Zpos m) * bpow e).
  { rewrite <- bpow_scale by lia. f_equal. f_equal. lia. }
  cbn [SF2R]. rewrite !Rmult_assoc, H. ring.
Qed.

Lemma finite_rounds_self (x z : float) :
  PrimFloat.is_finite x = true -> Prim2SF z = Prim2SF x -> rounds (B2R x) z.
Proof.
  intros Hx E. apply exact_rounds.
  - apply is_finite_spec. rewrite E. apply is_finite_spec, Hx.
  - unfold B2R. rewrite E. reflexivity.
Qed.

(** The sum of two finite binary64 values is their sum as real numbers,
    rounded. *)
Lemma add_rounds (x y : float) :
  PrimFloat.is_finite x = true -> PrimFloat.is_finite y = true ->
  rounds (B2R x + B2R y) (x + y)%float.
Proof.
  intros Hx Hy. pose proof (FloatAxioms.add_spec x y) as E.
  pose proof Hx as Fx. pose proof Hy as Fy.
  apply is_finite_spec in Hx. apply is_finite_spec in Hy.
  unfold SF64add, SFadd in E.
  destruct (Prim2SF x) as [sx|sx| |sx mx ex] eqn:Ex; try contradiction;
    destruct (Prim2SF y) as [sy|sy| |sy my ey] eqn:Ey; try contradiction.
  - replace (B2R x + B2R y) with 0
      by (unfold B2R; rewrite Ex, Ey; cbn [SF2R]; lra).
    destruct sx, sy; eapply finite_rounds_zero, E.
  - replace (B2R x + B2R y) with (B2R y)
      by (unfold B2R; rewrite Ex; cbn [SF2R]; lra).
    apply finite_rounds_self; [exact Fy|]. rewrite E, Ey. reflexivity.
  - replace (B2R x + B2R y) with (B2R x)
      by (unfold B2R at 3; rewrite Ey; cbn [SF2R]; lra).
    apply finite_rounds_self; [exact Fx|]. rewrite E, Ex. reflexivity.
  - cbv zeta in E. apply binary_normalize_rounds in E.
    rewrite plus_IZR, Rmult_plus_distr_r in E.
    rewrite aligned_value in E. rewrite (Z.min_comm ex ey) in E.
    rewrite aligned_value in E. unfold B2R at 1 2. rewrite Ex, Ey. exact E.
Qed.

(** The difference of two finite binary64 values is their difference
    as real numbers, rounded. *)
Lemma sub_rounds (x y : float) :
  PrimFloat.is_finite x = true -> PrimFloat.is_finite y = true ->
  rounds (B2R x - B2R y) (x - y)%float.
Proof.
  intros Hx Hy. pose proof (FloatAxioms.sub_spec x y) as E.
  pose proof Hx as Fx. pose proof Hy as Fy.
  apply is_finite_spec in Hx. apply is_finite_spec in Hy.
  unfold SF64sub, SFsub in E.
  destruct (Prim2SF x) as [sx|sx| |sx mx ex] eqn:Ex; try contradiction;
    destruct (Prim2SF y) as [sy|sy| |sy my ey] eqn:Ey; try contradiction.
  - replace (B2R x - B2R y) with 0
      by (unfold B2R; rewrite Ex, Ey; cbn [SF2R]; lra).
    destruct sx, sy; eapply finite_rounds_zero, E.
  - apply exact_rounds.
    + apply is_finite_spec. rewrite E. exact I.
    + unfold B2R. rewrite E, Ex, Ey. cbn [SF2R].
      destruct sy; cbn [negb]; ring.
  - replace (B2R x - B2R y) with (B2R x)
      by (unfold B2R at 3; rewrite Ey; cbn [SF2R]; lra).
    apply finite_rounds_self; [exact Fx|]. rewrite E, Ex. reflexivity.
  - cbv zeta in E. apply binary_normalize_rounds in E.
    rewrite minus_IZR, Rmult_minus_distr_r in E.
    rewrite aligned_value in E. rewrite (Z.min_comm ex ey) in E.
    rewrite aligned_value in E. unfold B2R at 1 2. rewrite Ex, Ey. exact E.
Qed.

(** Two positive values of the format are ordered as their exponents,
    then as their mantissas. *)
Lemma bounded_lt (m1 m2 : positive) (e1 e2 : Z) :
  bounded prec emax m1 e1 = true -> bounded prec emax m2 e2 = true ->
  (e1 < e2)%Z -> IZR (Zpos m1) * bpow e1 < IZR (Zpos m2) * bpow e2.
Proof.
  intros H1 H2 He.
  destruct (bounded_spec m1 e1 H1) as (Hr1 & Hd1 & _ & _).
  destruct (bounded_spec m2 e2 H2) as (Hr2 & _ & Hn2 & _).
  pose proof (digits2_pos_bpow m1) as B1. pose proof (digits2_pos_bpow m2) as B2.
  rewrite Hn2 in B2 by lia.
  pose proof (bpow_pos e1). pose proof (bpow_pos e2).
  apply Rlt_le_trans with (bpow (53 + e1)).
  { rewrite bpow_add. apply Rmult_lt_compat_r; [lra|].
    apply Rlt_le_trans with (bpow (Zpos (digits2_pos m1))); [lra|].
    apply bpow_le. exact Hd1. }
  apply Rle_trans with (bpow (53 - 1 + e2)); [apply bpow_le; lia|].
  rewrite bpow_add. apply Rmult_le_compat_r; lra.
Qed.

Lemma compare_bounded (m1 m2 : positive) (e1 e2 : Z) :
  bounded prec emax m1 e1 = true -> bounded prec emax m2 e2 = true ->
  match match (e1 ?= e2)%Z with
        | Lt => Lt
        | Gt => Gt
        | Eq => Pos.compare_cont Eq m1 m2
        end with
  | Lt => IZR (Zpos m1) * bpow e1 < IZR (Zpos m2) * bpow e2
  | Eq => IZR (Zpos m1) * bpow e1 = IZR (Zpos m2) * bpow e2
  | Gt => IZR (Zpos m2) * bpow e2 < IZR (Zpos m1) * bpow e1
  end.
Proof.
  intros H1 H2. destruct (Z.compare_spec e1 e2) as [->|He|He].
  - change (Pos.compare_cont Eq m1 m2) with (Pos.compare m1 m2).
    pose proof (bpow_pos e2).
    destruct (Pos.compare_spec m1 m2) as [->|Hm|Hm]; [reflexivity| |];
      apply Rmult_lt_compat_r; try lra; apply IZR_lt; lia.
  - apply bounded_lt; assumption.
  - apply bounded_lt; assumption.
Qed.

(** [SFcompare] on finite values is the order of the real numbers. *)
Lemma SFcompare_finite (f1 f2 : spec_float) :
  valid_binary f1 = true -> valid_binary f2 = true ->
  match f1 with S754_zero _ | S754_finite _ _ _ => True | _ => False end ->
  match f2 with S754_zero _ | S754_finite _ _ _ => True | _ => False end ->
  exists c, SFcompare f1 f2 = Some c /\
    match c with
    | Lt => SF2R f1 < SF2R f2
    | Eq => SF2R f1 = SF2R f2
    | Gt => SF2R f2 < SF2R f1
    end.
Proof.
  intros V1 V2 F1 F2.
  destruct f1 as [s1|s1| |s1 m1 e1]; try contradiction;
    destruct f2 as [s2|s2| |s2 m2 e2]; try contradiction; cbn [SFcompare].
  - eexists. split; [reflexivity|]. reflexivity.
  - destruct (SF2R_sign s2 m2 e2) as [E2 P2]. rewrite E2. cbn [SF2R].
    eexists. split; [reflexivity|]. destruct s2; lra.
  - destruct (SF2R_sign s1 m1 e1) as [E1 P1]. rewrite E1. cbn [SF2R].
    eexists. split; [reflexivity|]. destruct s1; lra.
  - destruct (SF2R_sign s1 m1 e1) as [E1 P1].
    destruct (SF2R_sign s2 m2 e2) as [E2 P2]. rewrite E1, E2.
    pose proof (compare_bounded m1 m2 e1 e2 V1 V2) as H.
    eexists. split; [reflexivity|].
    destruct s1, s2; try lra.
    + destruct (e1 ?= e2)%Z; [destruct (Pos.compare_cont Eq m1 m2)| |];
        cbn [CompOpp]; lra.
    + destruct (e1 ?= e2)%Z; [destruct (Pos.compare_cont Eq m1 m2)| |]; lra.
Qed.

Lemma compare_finite (x y : float) :
  PrimFloat.is_finite x = true -> PrimFloat.is_finite y = true ->
  exists c, SFcompare (Prim2SF x) (Prim2SF y) = Some c /\
    match c with
    | Lt => B2R x < B2R y
    | Eq => B2R x = B2R y
    | Gt => B2R y < B2R x
    end.
Proof.
  intros Hx Hy. apply SFcompare_finite; try apply Prim2SF_valid;
    apply is_finite_spec; assumption.
Qed.

(** [<=] and [<] on finite binary64 values are those of the real
    numbers they stand for. *)
Lemma leb_finite (x y : float) :
  PrimFloat.is_finite x = true -> PrimFloat.is_finite y = true ->
  (PrimFloat.leb x y = true <-> B2R x <= B2R y).
Proof.
  intros Hx Hy. rewrite FloatAxioms.leb_spec. unfold SFleb.
  destruct (compare_finite x y Hx Hy) as (c & -> & H).
  destruct c; split; intros H'; try reflexivity; try discriminate; lra.
Qed.

Lemma ltb_finite (x y : float) :
  PrimFloat.is_finite x = true -> PrimFloat.is_finite y = true ->
  (PrimFloat.ltb x y = true <-> B2R x < B2R y).
Proof.
  intros Hx Hy. rewrite FloatAxioms.ltb_spec. unfold SFltb.
  destruct (compare_finite x y Hx Hy) as (c & -> & H).
  destruct c; split; intros H'; try reflexivity; try discriminate; lra.
Qed.

Lemma B2R_0 : B2R 0 = 0.
Proof. reflexivity. Qed.

Lemma B2R_1 : B2R 1 = 1.
Proof.
  unfold B2R. change (Prim2SF 1) with (S754_finite false (Z.to_pos (2 ^ 52)) (-52)).
  cbn [SF2R]. change (Zpos (Z.to_pos (2 ^ 52))) with (2 ^ 52)%Z.
  rewrite <- bpow_IZR, Rmult_1_l, <- bpow_add by lia. reflexivity.
Qed.

(** A value between two finite values is finite. *)
Lemma between_finite (x lo hi : float) :
  PrimFloat.is_finite lo = true -> PrimFloat.is_finite hi = true ->
  PrimFloat.leb lo x = true -> PrimFloat.leb x hi = true ->
  PrimFloat.is_finite x = true.
Proof.
  intros Hlo Hhi. rewrite !FloatAxioms.leb_spec. unfold SFleb.
  apply is_finite_spec in Hlo. apply is_finite_spec in Hhi.
  intros H1 H2. apply is_finite_spec.
  destruct (Prim2SF x) as [s|s| |s m e]; try exact I.
  - destruct s.
    + destruct (Prim2SF lo) as [sl|sl| |sl ml el]; try contradiction;
        cbn in H1; discriminate.
    + destruct (Prim2SF hi) as [sh|sh| |sh mh eh]; try contradiction;
        cbn in H2; discriminate.
  - destruct (Prim2SF lo); discriminate.
Qed.

End Binary64Values.

Section Binary64Sizes.

Local Open Scope R_scope.

Lemma bpow_m52 : bpow (-52) = 2 * bpow (-53).
Proof. rewrite <- bpow_succ. reflexivity. Qed.

Lemma bpow_m51 : bpow (-51) = 4 * bpow (-53).
Proof.
  change (-51)%Z with (-53 + 1 + 1)%Z. rewrite !bpow_succ. ring.
Qed.

Lemma bpow_m1074 : bpow (-1074) = 2 * bpow (-1075).
Proof. rewrite <- bpow_succ. reflexivity. Qed.

Lemma bpow_m1073 : bpow (-1073) = 4 * bpow (-1075).
Proof.
  change (-1073)%Z with (-1075 + 1 + 1)%Z. rewrite !bpow_succ. ring.
Qed.

Lemma bpow_m1072 : bpow (-1072) = 8 * bpow (-1075).
Proof.
  change (-1072)%Z with (-1075 + 1 + 1 + 1)%Z. rewrite !bpow_succ. ring.
Qed.

Lemma bpow_m53_small : 0 < bpow (-53) <= / 2.
Proof.
  split; [apply bpow_pos|].
  replace (/ 2) with (bpow (-1)) by (unfold bpow, powerRZ; simpl; lra).
  apply bpow_le. lia.
Qed.

Lemma bpow_m1075_small : bpow (-1075) <= bpow (-53).
Proof. apply bpow_le. lia. Qed.

Lemma Rabs_le_inv (a b : R) : Rabs a <= b -> - b <= a <= b.
Proof. unfold Rabs. destruct (Rcase_abs a); lra. Qed.

(** A binary64 value between [0] and [1] is finite, and stands for a
    real number between [0] and [1]. *)
Lemma unit_value (x : float) :
  PrimFloat.leb 0 x = true -> PrimFloat.leb x 1 = true ->
  PrimFloat.is_finite x = true /\ 0 <= B2R x <= 1.
Proof.
  intros H0 H1.
  assert (Hx : PrimFloat.is_finite x = true)
    by (apply (between_finite x 0 1); auto).
  split; [exact Hx|].
  apply leb_finite in H0; [|reflexivity|exact Hx].
  apply leb_finite in H1; [|exact Hx|reflexivity].
  rewrite B2R_0 in H0. rewrite B2R_1 in H1. lra.
Qed.

Lemma value_unit (x : float) :
  PrimFloat.is_finite x = true -> 0 <= B2R x <= 1 ->
  PrimFloat.leb 0 x = true /\ PrimFloat.leb x 1 = true.
Proof.
  intros Hx H. split; apply leb_finite; auto; rewrite ?B2R_0, ?B2R_1; lra.
Qed.

(** Rounding keeps the order. *)
Lemma rounds_mono (x x' : R) (z z' : float) :
  rounds x z -> rounds x' z' ->
  PrimFloat.is_finite z = true -> PrimFloat.is_finite z' = true ->
  x < x' -> B2R z <= B2R z'.
Proof.
  intros (_ & _ & Hz) (_ & _ & Hz') Fz Fz' Hlt.
  destruct (Hz Fz) as (_ & _ & _ & Hnear).
  destruct (Hz' Fz') as (_ & _ & _ & Hnear').
  destruct (Rle_dec (B2R z) (B2R z')) as [H|H]; [exact H|].
  pose proof (Rsqr_le_abs_1 _ _ (Hnear z' Fz')) as H1.
  pose proof (Rsqr_le_abs_1 _ _ (Hnear' z Fz)) as H2.
  unfold Rsqr in H1, H2. nra.
Qed.

(** Finite values that stand for the same number are the same, but for
    the sign of zero. *)
Lemma B2R_inj (x y : float) :
  PrimFloat.is_finite x = true -> PrimFloat.is_finite y = true ->
  B2R x = B2R y ->
  Prim2SF x = Prim2SF y \/
  (exists sx sy, Prim2SF x = S754_zero sx /\ Prim2SF y = S754_zero sy).
Proof.
  intros Fx Fy E. pose proof (Prim2SF_valid x) as Vx.
  pose proof (Prim2SF_valid y) as Vy.
  apply is_finite_spec in Fx. apply is_finite_spec in Fy. unfold B2R in E.
  destruct (Prim2SF x) as [sx|sx| |sx mx ex]; try contradiction;
    destruct (Prim2SF y) as [sy|sy| |sy my ey]; try contradiction.
  - right. eauto.
  - destruct (SF2R_sign sy my ey) as [Ey Py]. rewrite Ey in E.
    cbn [SF2R] in E. destruct sy; lra.
  - destruct (SF2R_sign sx mx ex) as [Ex Px]. rewrite Ex in E.
    cbn [SF2R] in E. destruct sx; lra.
  - left. destruct (SF2R_sign sx mx ex) as [Ex Px].
    destruct (SF2R_sign sy my ey) as [Ey Py]. rewrite Ex, Ey in E.
    pose proof (compare_bounded mx my ex ey Vx Vy) as H.
    assert (sx = sy) by (destruct sx, sy; try reflexivity; lra). subst sy.
    assert (Em : IZR (Zpos mx) * bpow ex = IZR (Zpos my) * bpow ey)
      by (destruct sx; lra).
    destruct (Z.compare_spec ex ey) as [->|He|He]; try lra.
    change (Pos.compare_cont Eq mx my) with (Pos.compare mx my) in H.
    destruct (Pos.compare_spec mx my) as [->|Hm|Hm]; [reflexivity|lra|lra].
Qed.

Lemma mul_value_congr (s p q : float) :
  PrimFloat.is_finite p = true -> PrimFloat.is_finite q = true ->
  B2R p = B2R q -> B2R (s * p) = B2R (s * q).
Proof.
  intros Fp Fq E. unfold B2R. rewrite !FloatAxioms.mul_spec.
  destruct (B2R_inj p q Fp Fq E) as [->|(sp & sq & -> & ->)]; [reflexivity|].
  unfold SF64mul, SFmul. destruct (Prim2SF s); reflexivity.
Qed.

(** The product of a finite value that is not negative with a value
    between [0] and [1]. *)
Lemma mul_share (x y : float) :
  PrimFloat.is_finite x = true -> 0 <= B2R x ->
  PrimFloat.is_finite y = true -> 0 <= B2R y <= 1 ->
  PrimFloat.is_finite (x * y) = true /\
  0 <= B2R (x * y) <= B2R x /\
  Rabs (B2R (x * y) - B2R x * B2R y) <=
    bpow (-53) * (B2R x * B2R y) + bpow (-1075).
Proof.
  intros Fx Hx Fy Hy.
  destruct (mul_rounds x y Fx Fy) as (_ & Hfin & Hz).
  assert (Hp : 0 <= B2R x * B2R y <= B2R x) by nra.
  assert (Fz : PrimFloat.is_finite (x * y) = true).
  { apply (Hfin x Fx). rewrite !Rabs_pos_eq by lra. lra. }
  destruct (Hz Fz) as (Herr & Hup & Hdown & _).
  split; [exact Fz|]. split.
  - split.
    + rewrite <- B2R_0. apply Hdown; [reflexivity|]. rewrite B2R_0. lra.
    + apply Hup; [exact Fx|lra].
  - rewrite (Rabs_pos_eq (B2R x * B2R y)) in Herr by lra. exact Herr.
Qed.

(** The other share. *)
Lemma one_minus_share (p : float) :
  PrimFloat.is_finite p = true -> 0 <= B2R p <= 1 ->
  PrimFloat.is_finite (1 - p) = true /\
  0 <= B2R (1 - p) <= 1 /\
  Rabs (B2R (1 - p) - (1 - B2R p)) <=
    bpow (-53) * (1 - B2R p) + bpow (-1075).
Proof.
  intros Fp Hp.
  destruct (sub_rounds 1 p eq_refl Fp) as (_ & Hfin & Hz).
  rewrite B2R_1 in *.
  assert (Fz : PrimFloat.is_finite (1 - p) = true).
  { apply (Hfin 1%float eq_refl). rewrite B2R_1, !Rabs_pos_eq by lra. lra. }
  destruct (Hz Fz) as (Herr & Hup & Hdown & _).
  split; [exact Fz|]. split.
  - split.
    + rewrite <- B2R_0. apply Hdown; [reflexivity|]. rewrite B2R_0. lra.
    + rewrite <- B2R_1. apply Hup; [reflexivity|]. rewrite B2R_1. lra.
  - rewrite (Rabs_pos_eq (1 - B2R p)) in Herr by lra. exact Herr.
Qed.

Lemma B2R_2 : B2R 2 = 2.
Proof.
  unfold B2R.
  change (Prim2SF 2) with (S754_finite false (Z.to_pos (2 ^ 52)) (-51)).
  cbn [SF2R]. change (Zpos (Z.to_pos (2 ^ 52))) with (2 ^ 52)%Z.
  rewrite <- bpow_IZR, Rmult_1_l, <- bpow_add by lia.
  unfold bpow, powerRZ. simpl. lra.
Qed.

(** The two sizes of a split, in binary64: both are between [0] and the
    size of the parent, and they add up to it but for the rounding of
    the three operations. *)
Lemma split_sizes (s p : float) :
  PrimFloat.leb 0 s = true -> PrimFloat.leb s 1 = true ->
  PrimFloat.leb 0 p = true -> PrimFloat.leb p 1 = true ->
  let c1 := (s * p)%float in
  let c2 := (s * (1 - p))%float in
  (PrimFloat.leb 0 c1 = true /\ PrimFloat.leb c1 1 = true /\
   PrimFloat.leb c1 s = true) /\
  (PrimFloat.leb 0 c2 = true /\ PrimFloat.leb c2 1 = true /\
   PrimFloat.leb c2 s = true) /\
  Rabs (B2R c1 + B2R c2 - B2R s) <= bpow (-52) * B2R s + bpow (-1073) /\
  PrimFloat.is_finite (c1 + c2) = true /\
  Rabs (B2R (c1 + c2) - B2R s) <= bpow (-51) * B2R s + bpow (-1072).
Proof.
  intros Hs0 Hs1 Hp0 Hp1 c1 c2.
  destruct (unit_value s Hs0 Hs1) as [Fs Hs].
  destruct (unit_value p Hp0 Hp1) as [Fp Hp].
  destruct (one_minus_share p Fp Hp) as (Fq & Hq & Eq).
  destruct (mul_share s p Fs ltac:(lra) Fp Hp) as (F1 & H1 & E1).
  destruct (mul_share s (1 - p) Fs ltac:(lra) Fq Hq) as (F2 & H2 & E2).
  fold c1 in F1, H1, E1. fold c2 in F2, H2, E2.
  pose proof bpow_m53_small as Hu. pose proof (bpow_pos (-1075)) as Ht.
  pose proof bpow_m1075_small as Htu.
  destruct (add_rounds c1 c2 F1 F2) as (_ & Hfin & Hsum).
  assert (Fsum : PrimFloat.is_finite (c1 + c2) = true).
  { apply (Hfin 2%float eq_refl). rewrite B2R_2.
    rewrite !Rabs_pos_eq by lra. lra. }
  destruct (Hsum Fsum) as (Esum & _).
  rewrite (Rabs_pos_eq (B2R c1 + B2R c2)) in Esum by lra.
  apply Rabs_le_inv in Eq. apply Rabs_le_inv in E1. apply Rabs_le_inv in E2.
  apply Rabs_le_inv in Esum.
  set (u := bpow (-53)) in *. set (t := bpow (-1075)) in *.
  set (S := B2R s) in *. set (P := B2R p) in *. set (Q := B2R (1 - p)) in *.
  set (C1 := B2R c1) in *. set (C2 := B2R c2) in *.
  set (Z := B2R (c1 + c2)) in *.
  assert (Hdev : - (2 * u * S + 3 * t) <= C1 + C2 - S <= 2 * u * S + 3 * t).
  { assert (K1 : S * (Q - (1 - P)) <= S * (u * (1 - P) + t))
      by (apply Rmult_le_compat_l; lra).
    assert (K2 : S * - (u * (1 - P) + t) <= S * (Q - (1 - P)))
      by (apply Rmult_le_compat_l; lra).
    assert (K3 : u * S * Q <= u * S * 1)
      by (apply Rmult_le_compat_l; [nra|lra]).
    assert (K4 : S * t <= 1 * t) by (apply Rmult_le_compat_r; lra).
    assert (K5 : 0 <= u * S * P) by (apply Rmult_le_pos; nra).
    assert (K6 : u * S * P <= u * S * 1)
      by (apply Rmult_le_compat_l; [nra|lra]).
    assert (K7 : 0 <= u * S * Q) by (apply Rmult_le_pos; nra).
    split; nra. }
  split; [|split; [|split; [|split]]].
  - split; [|split]; apply leb_finite; auto; rewrite ?B2R_0, ?B2R_1;
      fold C1 S; lra.
  - split; [|split]; apply leb_finite; auto; rewrite ?B2R_0, ?B2R_1;
      fold C2 S; lra.
  - rewrite bpow_m52, bpow_m1073. fold u t. apply Rabs_le. lra.
  - exact Fsum.
  - rewrite bpow_m51, bpow_m1072. fold u t. apply Rabs_le.
    assert (K1 : 0 <= u * S) by nra.
    assert (K2 : u * (C1 + C2) <= u * (S + (2 * u * S + 3 * t)))
      by (apply Rmult_le_compat_l; lra).
    assert (K3 : u * (2 * u * S) <= 1 * (u * S))
      by (rewrite <- !Rmult_assoc; apply Rmult_le_compat_r; nra).
    assert (K4 : u * t <= 1 * t) by (apply Rmult_le_compat_r; lra).
    assert (K5 : 0 <= u * (C1 + C2)) by (apply Rmult_le_pos; lra).
    split; nra.
Qed.

(** The turns of the two children: the child with the larger size gets
    the turn that is not larger, and its direction is not farther from
    the direction of the parent than the other's, but for the rounding
    of the two directions. *)
Lemma split_turns (s p a d : float) :
  PrimFloat.leb 0 s = true -> PrimFloat.leb s 1 = true ->
  PrimFloat.leb 0 p = true -> PrimFloat.leb p 1 = true ->
  PrimFloat.is_finite a = true -> PrimFloat.ltb 0 a = true ->
  PrimFloat.is_finite d = true ->
  let c1 := (s * p)%float in
  let c2 := (s * (1 - p))%float in
  let o1 := (a * (1 - p))%float in
  let o2 := (a * p)%float in
  let d1 := (d - o1)%float in
  let d2 := (d + o2)%float in
  let tol := bpow (-52) * (Rabs (B2R d) + B2R a) + bpow (-1074) in
  PrimFloat.is_finite d1 = true -> PrimFloat.is_finite d2 = true ->
  (PrimFloat.ltb c2 c1 = true ->
   PrimFloat.leb o1 o2 = true /\
   Rabs (B2R d1 - B2R d) <= Rabs (B2R d2 - B2R d) + tol) /\
  (PrimFloat.ltb c1 c2 = true ->
   PrimFloat.leb o2 o1 = true /\
   Rabs (B2R d2 - B2R d) <= Rabs (B2R d1 - B2R d) + tol).
Proof.
  intros Hs0 Hs1 Hp0 Hp1 Fa Ha Fd c1 c2 o1 o2 d1 d2 tol F1 F2.
  destruct (unit_value s Hs0 Hs1) as [Fs Hs].
  destruct (unit_value p Hp0 Hp1) as [Fp Hp].
  destruct (one_minus_share p Fp Hp) as (Fq & Hq & _).
  apply ltb_finite in Ha; [|reflexivity|exact Fa]. rewrite B2R_0 in Ha.
  destruct (mul_share s p Fs ltac:(lra) Fp Hp) as (Fc1 & Hc1 & _).
  destruct (mul_share s (1 - p) Fs ltac:(lra) Fq Hq) as (Fc2 & Hc2 & _).
  destruct (mul_share a (1 - p) Fa ltac:(lra) Fq Hq) as (Fo1 & Ho1 & _).
  destruct (mul_share a p Fa ltac:(lra) Fp Hp) as (Fo2 & Ho2 & _).
  fold c1 in Fc1, Hc1. fold c2 in Fc2, Hc2.
  fold o1 in Fo1, Ho1. fold o2 in Fo2, Ho2.
  (* the sizes are ordered as the shares *)
  assert (Hshare : forall x y : float,
            PrimFloat.is_finite x = true -> PrimFloat.is_finite y = true ->
            0 <= B2R x -> 0 <= B2R y ->
            PrimFloat.is_finite (s * x) = true ->
            PrimFloat.is_finite (s * y) = true ->
            0 <= B2R (s * x) <= B2R s ->
            B2R (s * y) < B2R (s * x) -> B2R y < B2R x).
  { intros x y Fx Fy Hx Hy Fsx Fsy Hsx Hlt.
    destruct (Rtotal_order (B2R y) (B2R x)) as [H|[H|H]]; [exact H| |].
    - rewrite (mul_value_congr s y x Fy Fx H) in Hlt. lra.
    - destruct (Req_dec (B2R s) 0) as [E|E].
      + assert (B2R (s * y) < 0) by lra.
        destruct (mul_rounds s y Fs Fy) as (_ & _ & Hz).
        destruct (Hz Fsy) as (_ & _ & Hdown & _).
        specialize (Hdown 0%float eq_refl). rewrite B2R_0, E in Hdown. lra.
      + assert (B2R s * B2R x < B2R s * B2R y) by nra.
        pose proof (rounds_mono _ _ _ _ (mul_rounds s x Fs Fx)
                      (mul_rounds s y Fs Fy) Fsx Fsy H0). lra. }
  (* the turns are ordered as the shares *)
  assert (Hturn : forall x y : float,
            PrimFloat.is_finite x = true -> PrimFloat.is_finite y = true ->
            PrimFloat.is_finite (a * x) = true ->
            PrimFloat.is_finite (a * y) = true ->
            B2R y < B2R x -> B2R (a * y) <= B2R (a * x)).
  { intros x y Fx Fy Fax Fay Hlt.
    apply (rounds_mono _ _ _ _ (mul_rounds a y Fa Fy) (mul_rounds a x Fa Fx));
      auto. nra. }
  (* the two directions *)
  destruct (sub_rounds d o1 Fd Fo1) as (_ & _ & Hz1).
  destruct (Hz1 F1) as (E1 & _). fold d1 in E1.
  destruct (add_rounds d o2 Fd Fo2) as (_ & _ & Hz2).
  destruct (Hz2 F2) as (E2 & _). fold d2 in E2.
  pose proof bpow_m53_small as Hu. pose proof (bpow_pos (-1075)) as Ht.
  assert (Hb1 : Rabs (B2R d - B2R o1) <= Rabs (B2R d) + B2R a).
  { apply Rle_trans with (Rabs (B2R d) + Rabs (- B2R o1)).
    - apply Rabs_triang.
    - rewrite Rabs_Ropp, (Rabs_pos_eq (B2R o1)) by lra. lra. }
  assert (Hb2 : Rabs (B2R d + B2R o2) <= Rabs (B2R d) + B2R a).
  { apply Rle_trans with (Rabs (B2R d) + Rabs (B2R o2)).
    - apply Rabs_triang.
    - rewrite (Rabs_pos_eq (B2R o2)) by lra. lra. }
  assert (Htol : forall dev1 dev2 : R,
            dev1 <= dev2 +
              2 * (bpow (-53) * (Rabs (B2R d) + B2R a) + bpow (-1075)) ->
            dev1 <= dev2 + tol).
  { intros dev1 dev2 H. unfold tol. rewrite bpow_m52, bpow_m1074. lra. }
  assert (K1 : bpow (-53) * Rabs (B2R d - B2R o1) <=
               bpow (-53) * (Rabs (B2R d) + B2R a))
    by (apply Rmult_le_compat_l; lra).
  assert (K2 : bpow (-53) * Rabs (B2R d + B2R o2) <=
               bpow (-53) * (Rabs (B2R d) + B2R a))
    by (apply Rmult_le_compat_l; lra).
  apply Rabs_le_inv in E1. apply Rabs_le_inv in E2.
  split; intros Hlt; (apply ltb_finite in Hlt; [|assumption|assumption]).
  - assert (Hpq : B2R (1 - p) < B2R p)
      by (apply Hshare; auto; lra).
    pose proof (Hturn p (1 - p)%float Fp Fq Fo2 Fo1 Hpq) as Ho.
    fold o1 o2 in Ho. split; [apply leb_finite; assumption|].
    apply Htol. unfold Rabs at 1 2.
    destruct (Rcase_abs (B2R d1 - B2R d)), (Rcase_abs (B2R d2 - B2R d)); lra.
  - assert (Hpq : B2R p < B2R (1 - p))
      by (apply Hshare; auto; lra).
    pose proof (Hturn (1 - p)%float p Fq Fp Fo1 Fo2 Hpq) as Ho.
    fold o1 o2 in Ho. split; [apply leb_finite; assumption|].
    apply Htol. unfold Rabs at 1 2.
    destruct (Rcase_abs (B2R d2 - B2R d)), (Rcase_abs (B2R d1 - B2R d)); lra.
Qed.

End Binary64Sizes.

Section Binary64Split.

Context {math : Math float} {random : Random float}.

Local Open Scope R_scope.

Implicit Types (w : World float) (b : Branch float)
  (bs : list (option (Branch float))).

(** The sizes of the children of a split, in binary64. *)
Lemma branch_split_sizes w i (p : float * float) (s d : float) :
  (i < length (branches (tree w)))%nat ->
  PrimFloat.leb 0 s = true -> PrimFloat.leb s 1 = true ->
  PrimFloat.is_nan (fst (gauss (random_state w) (lit 0) (lit 0.1%Q))) = false ->
  exists c1 c2 w',
    branch_split i p s d w = Return tt w' /\
    branches (tree w') =
      <[i := None]> (branches (tree w)) ++ [Some c1; Some c2] /\
    let proportion :=
      fold_and_clamp (fst (gauss (random_state w) (lit 0) (lit 0.1%Q))) in
    (PrimFloat.leb 0 proportion = true /\
     PrimFloat.leb proportion 1 = true) /\
    branch_size c1 = (s * proportion)%float /\
    branch_size c2 = (s * (1 - proportion))%float /\
    (PrimFloat.leb 0 (branch_size c1) = true /\
     PrimFloat.leb (branch_size c1) 1 = true /\
     PrimFloat.leb (branch_size c1) s = true) /\
    (PrimFloat.leb 0 (branch_size c2) = true /\
     PrimFloat.leb (branch_size c2) 1 = true /\
     PrimFloat.leb (branch_size c2) s = true) /\
    Rabs (B2R (branch_size c1) + B2R (branch_size c2) - B2R s) <=
      bpow (-52) * B2R s + bpow (-1073) /\
    PrimFloat.is_finite (branch_size c1 + branch_size c2) = true /\
    Rabs (B2R (branch_size c1 + branch_size c2) - B2R s) <=
      bpow (-51) * B2R s + bpow (-1072).
Proof.
  intros Hi Hs0 Hs1 Hx.
  destruct (branch_split_children w i p s d Hi)
    as (c1 & c2 & w' & Hrun & Hbs & _ & H).
  exists c1, c2, w'. split; [exact Hrun|]. split; [exact Hbs|].
  destruct (split_draws _ _) as [[[[x g1] g2] g3] g]. cbv zeta in *.
  destruct H as (Ex & _ & _ & _ & _ & _ & Hc1 & Hc2 & _).
  rewrite <- Ex in Hx |- *.
  destruct (fold_and_clamp_binary64 x Hx) as (_ & Hq0 & Hq1).
  change (@lit float float64 1) with 1%float in Hc2.
  change (@mul float float64) with PrimFloat.mul in Hc1, Hc2.
  change (@sub float float64) with PrimFloat.sub in Hc2.
  split; [auto|]. split; [exact Hc1|]. split; [exact Hc2|].
  rewrite Hc1, Hc2. apply split_sizes; assumption.
Qed.

Lemma total_value_cons o bs :
  total_value (o :: bs) =
    match o with
    | Some b => B2R (branch_size b) + total_value bs
    | None => total_value bs
    end.
Proof. reflexivity. Qed.

Lemma total_value_app bs1 bs2 :
  total_value (bs1 ++ bs2) = total_value bs1 + total_value bs2.
Proof.
  induction bs1 as [|o bs1 IH].
  { change (total_value []) with 0. rewrite app_nil_l. lra. }
  rewrite <- app_comm_cons, !total_value_cons, IH. destruct o; lra.
Qed.

Lemma total_value_insert bs : forall i b,
  bs !! i = Some (Some b) ->
  total_value (<[i := None]> bs) = total_value bs - B2R (branch_size b).
Proof.
  induction bs as [|o bs IH]; intros i b Hi; [discriminate|].
  destruct i as [|i]; cbn in Hi.
  - injection Hi as ->.
    change (<[0%nat := None]> (Some b :: bs)) with (None :: bs).
    rewrite !total_value_cons. lra.
  - change (<[S i := None]> (o :: bs)) with (o :: <[i := None]> bs).
    rewrite !total_value_cons, (IH i b Hi). destruct o; lra.
Qed.

(** The generator gives numbers for the share. *)
Hypothesis gauss_number : forall g : rng,
  PrimFloat.is_nan (fst (gauss g (lit 0) (lit 0.1%Q))) = false.

(** One activation keeps the sizes between [0] and [1]. *)
Lemma activate_unit_sizes w b w' :
  activate b w = Return tt w' ->
  PrimFloat.leb 0 (branch_size b) = true ->
  PrimFloat.leb (branch_size b) 1 = true ->
  unit_sizes (branches (tree w)) ->
  unit_sizes (branches (tree w')) /\
  (branches (tree w') = branches (tree w) \/
   exists q c1 c2,
     (PrimFloat.leb 0 q = true /\ PrimFloat.leb q 1 = true) /\
     branches (tree w') =
       <[index b := None]> (branches (tree w)) ++ [Some c1; Some c2] /\
     branch_size c1 = (branch_size b * q)%float /\
     branch_size c2 = (branch_size b * (1 - q))%float /\
     PrimFloat.leb (branch_size c1) (branch_size b) = true /\
     PrimFloat.leb (branch_size c2) (branch_size b) = true /\
     Rabs (B2R (branch_size c1) + B2R (branch_size c2) - B2R (branch_size b))
       <= bpow (-52) * B2R (branch_size b) + bpow (-1073)).
Proof.
  intros Hact Hb0 Hb1 Hall. rewrite activate_eq in Hact.
  destruct (lt MINIMUM_BRANCH_SIZE (branch_size b)).
  - destruct (decide (index b < length (branches (tree (drawn b w))))%nat)
      as [Hlt|Hge].
    + destruct (branch_split_sizes (drawn b w) (index b)
                  (fst (pos b) + cos (branch_direction b) * branch_length b,
                   snd (pos b) + sin (branch_direction b) * branch_length b)%py
                  (branch_size b) (branch_direction b) Hlt Hb0 Hb1
                  (gauss_number _))
        as (c1 & c2 & w1 & Hrun & Hbs & H).
      rewrite Hrun in Hact. injection Hact as <-. cbv zeta in H.
      destruct H as (Hq & Hs1 & Hs2 & Hu1 & Hu2 & Hsum & _).
      rewrite drawn_tree in Hbs. split.
      * intros j c Hj. rewrite Hbs in Hj.
        apply lookup_app_Some in Hj as [Hj|[_ Hj]].
        -- destruct (decide (j = index b)) as [->|Hne].
           ++ rewrite list_lookup_insert_eq in Hj
                by (rewrite <- (drawn_tree b w); exact Hlt).
              discriminate.
           ++ rewrite list_lookup_insert_ne in Hj by auto. eapply Hall, Hj.
        -- destruct (j - _)%nat as [|[|n]]; cbn in Hj; try discriminate;
             injection Hj as <-; tauto.
      * right. eexists _, c1, c2. split; [exact Hq|]. split; [exact Hbs|].
        split; [exact Hs1|]. split; [exact Hs2|]. tauto.
    + rewrite branch_split_out_of_range in Hact by lia. discriminate.
  - injection Hact as <-. rewrite drawn_tree. auto.
Qed.

Lemma activated_unit_sizes : forall first w js w',
  activated first w js w' ->
  live_from first (branches (tree w)) ->
  unit_sizes (branches (tree w)) ->
  unit_sizes (branches (tree w')) /\
  (dead_slots (branches (tree w)) <= dead_slots (branches (tree w')))%nat /\
  Rabs (total_value (branches (tree w')) - total_value (branches (tree w)))
    <= INR (dead_slots (branches (tree w')) - dead_slots (branches (tree w)))
       * (bpow (-52) + bpow (-1073)).
Proof.
  induction 1 as [i w|i w b w1 js w2 Hb Hact Hrest IH]; intros Hlive Hall.
  { split; [exact Hall|]. split; [lia|].
    rewrite Rminus_diag, Rabs_R0, Nat.sub_diag. cbn [INR]. lra. }
  assert (Hlt : (i < length (branches (tree w)))%nat)
    by (eapply lookup_lt_Some; eassumption).
  destruct (Hlive i) as (b' & Hb' & Hi); [lia|].
  assert (b' = b) by congruence. subst b'.
  destruct (Hall _ _ Hb) as [Hb0 Hb1].
  destruct (activate_unit_sizes w b w1 Hact Hb0 Hb1 Hall) as (Hall1 & Hbs).
  destruct (activate_live w i b Hb Hi) as (w1' & Hact' & _ & Hshape).
  assert (w1' = w1) by congruence. subst w1'.
  assert (Hlive1 : live_from (S i) (branches (tree w1))).
  { destruct Hshape as [[_ ->]|[_ (c1 & c2 & -> & H1 & H2)]].
    - by apply live_from_weaken.
    - by apply live_from_step. }
  destruct (IH Hlive1 Hall1) as (Hall2 & Hdead & Htot).
  split; [exact Hall2|].
  destruct Hbs as [E|(q & c1 & c2 & Hq & E & Hs1 & Hs2 & _ & _ & Hsum)].
  { rewrite E in *. auto. }
  assert (Ed : dead_slots (branches (tree w1)) =
               S (dead_slots (branches (tree w)))).
  { rewrite E, dead_slots_app, Hi, (dead_slots_insert _ _ _ Hb).
    change (dead_slots [Some c1; Some c2]) with 0%nat. lia. }
  assert (Et : total_value (branches (tree w1)) - total_value (branches (tree w))
               = B2R (branch_size c1) + B2R (branch_size c2)
                 - B2R (branch_size b)).
  { rewrite E, total_value_app, Hi, (total_value_insert _ _ _ Hb).
    rewrite !total_value_cons. change (total_value []) with 0. lra. }
  split; [lia|].
  replace (dead_slots (branches (tree w2)) - dead_slots (branches (tree w)))%nat
    with (S (dead_slots (branches (tree w2)) - dead_slots (branches (tree w1))))
    by lia.
  rewrite S_INR.
  destruct (unit_value _ Hb0 Hb1) as [_ Hsize].
  pose proof (bpow_pos (-52)) as H52. pose proof (bpow_pos (-1073)) as H1073.
  rewrite <- Et in Hsum.
  apply Rabs_le_inv in Hsum. apply Rabs_le_inv in Htot. apply Rabs_le.
  assert (K : bpow (-52) * B2R (branch_size b) <= bpow (-52) * 1)
    by (apply Rmult_le_compat_l; lra).
  split; lra.
Qed.

End Binary64Split.

(** C1, amended.  In binary64, for every split that finds its slot, of
    a parent of size [s] with [0 <= s <= 1], when the sample of the
    share is a number: the share [proportion] is between [0] and [1];
    the children have the sizes [s * proportion] and
    [s * (1 - proportion)], each operation rounded; both sizes are
    between [0] and [s]; and their sum is the size of the parent within
    the tolerance of the rounding: as real numbers the two sizes add up
    to [s] within [2^-52 * s + 2^-1073], and the binary64 sum
    [child1.size + child2.size] is within [2^-51 * s + 2^-1072] of
    [s]. *)
Theorem split_conserves_size_within_rounding :
  forall (math : Math float) (random : Random float) (w : World float)
    (i : nat) (p : float * float) (s d : float),
  (i < length (branches (tree w)))%nat ->
  PrimFloat.leb 0 s = true -> PrimFloat.leb s 1 = true ->
  PrimFloat.is_nan (fst (gauss (random_state w) (lit 0) (lit 0.1%Q))) = false ->
  exists c1 c2 w',
    branch_split i p s d w = Return tt w' /\
    branches (tree w') =
      <[i := None]> (branches (tree w)) ++ [Some c1; Some c2] /\
    let proportion :=
      fold_and_clamp (fst (gauss (random_state w) (lit 0) (lit 0.1%Q))) in
    (PrimFloat.leb 0 proportion = true /\
     PrimFloat.leb proportion 1 = true) /\
    branch_size c1 = (s * proportion)%float /\
    branch_size c2 = (s * (1 - proportion))%float /\
    (PrimFloat.leb 0 (branch_size c1) = true /\
     PrimFloat.leb (branch_size c1) 1 = true /\
     PrimFloat.leb (branch_size c1) s = true) /\
    (PrimFloat.leb 0 (branch_size c2) = true /\
     PrimFloat.leb (branch_size c2) 1 = true /\
     PrimFloat.leb (branch_size c2) s = true) /\
    (Rabs (B2R (branch_size c1) + B2R (branch_size c2) - B2R s) <=
       bpow (-52) * B2R s + bpow (-1073))%R /\
    PrimFloat.is_finite (branch_size c1 + branch_size c2) = true /\
    (Rabs (B2R (branch_size c1 + branch_size c2) - B2R s) <=
       bpow (-51) * B2R s + bpow (-1072))%R.
Proof.
  intros math random w i p s d Hi Hs0 Hs1 Hx.
  exact (branch_split_sizes w i p s d Hi Hs0 Hs1 Hx).
Qed.

(** C7, amended.  In binary64, with a generator whose samples for the
    share are numbers, in every state [w] the loop reaches: the first
    branch was created with size [1]; every branch of the list has a
    size [s] with [0 <= s <= 1]; and when the next activation splits the
    branch [b], the children have the sizes [branch_size b * q] and
    [branch_size b * (1 - q)], each operation rounded, for a share [q]
    between [0] and [1], and neither is larger than [branch_size b]. *)
Theorem sizes_stay_between_zero_and_one :
  forall (math : Math float) (random : Random float)
    (sf : list (Line float)) (p : float * float) (angle : float)
    (presets : Presets float) (g : rng) (js : list nat) (w : World float),
  (forall g' : rng,
     PrimFloat.is_nan (fst (gauss g' (lit 0) (lit 0.1%Q))) = false) ->
  activated 0 (new_tree sf p angle presets g) js w ->
  (exists len, branches (tree (new_tree sf p angle presets g)) =
     [Some (mkBranch 0 p 1%float len angle)]) /\
  (forall j b, branches (tree w) !! j = Some (Some b) ->
     PrimFloat.leb 0 (branch_size b) = true /\
     PrimFloat.leb (branch_size b) 1 = true) /\
  (forall b w',
     branches (tree w) !! length js = Some (Some b) ->
     activate b w = Return tt w' ->
     branches (tree w') = branches (tree w) \/
     exists q c1 c2,
       (PrimFloat.leb 0 q = true /\ PrimFloat.leb q 1 = true) /\
       branches (tree w') =
         <[length js := None]> (branches (tree w)) ++ [Some c1; Some c2] /\
       branch_size c1 = (branch_size b * q)%float /\
       branch_size c2 = (branch_size b * (1 - q))%float /\
       PrimFloat.leb (branch_size c1) (branch_size b) = true /\
       PrimFloat.leb (branch_size c2) (branch_size b) = true).
Proof.
  intros math random sf p angle presets g js w Hnum Hrun.
  destruct (new_tree_branches sf p angle presets g) as [len Hseed].
  assert (Hall0 : unit_sizes (branches (tree (new_tree sf p angle presets g)))).
  { rewrite Hseed. intros j b Hj. destruct j as [|j]; [|discriminate].
    injection Hj as <-. split; reflexivity. }
  destruct (activated_unit_sizes Hnum _ _ _ _ Hrun (new_tree_live _ _ _ _ _)
              Hall0) as (Hall & _).
  split; [exists len; exact Hseed|].
  split; [exact Hall|]. intros b w' Hb Hact.
  destruct (activated_live _ _ _ _ Hrun) as (Hlive & _ & _);
    [apply new_tree_live|lia|].
  cbn [Nat.add] in Hlive.
  destruct (Hlive (length js)) as (b' & Hb' & Hi).
  { split; [lia|]. eapply lookup_lt_Some; eassumption. }
  assert (b' = b) by congruence. subst b'.
  destruct (Hall _ _ Hb) as [Hb0 Hb1].
  destruct (activate_unit_sizes Hnum w b w' Hact Hb0 Hb1 Hall)
    as (_ & [Heq|(q & c1 & c2 & Hq & Heq & Hs1 & Hs2 & Hle1 & Hle2 & _)]);
    [left; exact Heq|].
  right. exists q, c1, c2. rewrite Hi in Heq. auto 10.
Qed.

(** C8, amended.  In binary64, for every split that finds its slot, of
    a parent of size [s] with [0 <= s <= 1] and direction [d], when the
    sample of the share is a number: the first child heads at
    [d - angle * (1 - proportion)] and the second at
    [d + angle * proportion], each operation rounded, with [angle] the
    sample of [gauss(branch_angle_mean, branch_angle_range)] times
    [s ** branch_angle_factor].  When [angle] is finite and positive and
    the directions are finite, the child with the larger size gets the
    turn that is not larger ([angle * (1 - proportion)] against
    [angle * proportion]), and its direction is not farther from [d]
    than the other's by more than the rounding of the two directions,
    [2^-52 * (|d| + angle) + 2^-1074]. *)
Theorem larger_child_turns_less_within_rounding :
  forall (math : Math float) (random : Random float) (w : World float)
    (i : nat) (p : float * float) (s d : float),
  (i < length (branches (tree w)))%nat ->
  PrimFloat.leb 0 s = true -> PrimFloat.leb s 1 = true ->
  PrimFloat.is_nan (fst (gauss (random_state w) (lit 0) (lit 0.1%Q))) = false ->
  exists c1 c2 w',
    branch_split i p s d w = Return tt w' /\
    branches (tree w') =
      <[i := None]> (branches (tree w)) ++ [Some c1; Some c2] /\
    let '(x, _, _, g3, _) := split_draws (tree w) (random_state w) in
    let proportion := fold_and_clamp x in
    let angle := (g3 * pow s (branch_angle_factor (tree w)))%float in
    let tol := (bpow (-52) * (Rabs (B2R d) + B2R angle) + bpow (-1074))%R in
    branch_size c1 = (s * proportion)%float /\
    branch_size c2 = (s * (1 - proportion))%float /\
    branch_direction c1 = (d - angle * (1 - proportion))%float /\
    branch_direction c2 = (d + angle * proportion)%float /\
    (PrimFloat.is_finite angle = true -> PrimFloat.ltb 0 angle = true ->
     PrimFloat.is_finite d = true ->
     PrimFloat.is_finite (branch_direction c1) = true ->
     PrimFloat.is_finite (branch_direction c2) = true ->
     (PrimFloat.ltb (branch_size c2) (branch_size c1) = true ->
      PrimFloat.leb (angle * (1 - proportion)) (angle * proportion) = true /\
      (Rabs (B2R (branch_direction c1) - B2R d) <=
       Rabs (B2R (branch_direction c2) - B2R d) + tol)%R) /\
     (PrimFloat.ltb (branch_size c1) (branch_size c2) = true ->
      PrimFloat.leb (angle * proportion) (angle * (1 - proportion)) = true /\
      (Rabs (B2R (branch_direction c2) - B2R d) <=
       Rabs (B2R (branch_direction c1) - B2R d) + tol)%R)).
Proof.
  intros math random w i p s d Hi Hs0 Hs1 Hx.
  destruct (branch_split_children w i p s d Hi)
    as (c1 & c2 & w' & Hrun & Hbs & _ & H).
  exists c1, c2, w'. split; [exact Hrun|]. split; [exact Hbs|].
  destruct (split_draws _ _) as [[[[x g1] g2] g3] g]. cbv zeta in *.
  destruct H as (Ex & _ & _ & _ & _ & _ & Hc1 & Hc2 & _ & _ & Hd1 & Hd2).
  rewrite <- Ex in Hx.
  destruct (fold_and_clamp_binary64 x Hx) as (_ & Hq0 & Hq1).
  change (@lit float float64 1) with 1%float in Hc2, Hd1.
  change (@mul float float64) with PrimFloat.mul in Hc1, Hc2, Hd1, Hd2.
  change (@sub float float64) with PrimFloat.sub in Hc2, Hd1.
  change (@add float float64) with PrimFloat.add in Hd2.
  split; [exact Hc1|]. split; [exact Hc2|]. split; [exact Hd1|].
  split; [exact Hd2|].
  intros Fa Ha Fd F1 F2. rewrite Hc1, Hc2, Hd1, Hd2 in *.
  apply split_turns; assumption.
Qed.

(** X4.  In binary64, with a generator whose samples for the share are
    numbers: when [generate_tree] returns, every branch of the list has
    a size between [0] and [1], and the sizes of the branches left in
    the list, added up as real numbers, are within
    [k * (2^-52 + 2^-1073)] of [1], the size of the first branch, where
    [k] is the number of splits (the emptied slots): a split gives its
    children the size of the parent but for the rounding. *)
Theorem sizes_add_up_to_one_within_rounding :
  forall (math : Math float) (random : Random float)
    (MAX_BRANCH_COUNT : nat) (sf : list (Line float)) (p : float * float)
    (angle : float) (presets : Presets float) (g : rng),
  (forall g' : rng,
     PrimFloat.is_nan (fst (gauss g' (lit 0) (lit 0.1%Q))) = false) ->
  exists w' : World float,
    generate_tree MAX_BRANCH_COUNT sf p angle presets g = Return tt w' /\
    (forall j b, branches (tree w') !! j = Some (Some b) ->
       PrimFloat.leb 0 (branch_size b) = true /\
       PrimFloat.leb (branch_size b) 1 = true) /\
    (Rabs (total_value (branches (tree w')) - 1) <=
       INR (dead_slots (branches (tree w'))) * (bpow (-52) + bpow (-1073)))%R.
Proof.
  intros math random cap sf p angle presets g Hnum.
  destruct (generate_tree_returns cap sf p angle presets g)
    as (k & w' & Hrun & Hacts).
  exists w'. split; [exact Hrun|].
  destruct (new_tree_branches sf p angle presets g) as [len0 E].
  assert (Hall0 : unit_sizes (branches (tree (new_tree sf p angle presets g)))).
  { rewrite E. intros j b Hj. destruct j as [|j]; [|discriminate].
    injection Hj as <-. split; reflexivity. }
  destruct (activated_unit_sizes Hnum _ _ _ _ Hacts (new_tree_live _ _ _ _ _)
              Hall0) as (Hall & _ & Htot).
  split; [exact Hall|].
  rewrite E, dead_slots_seed, Nat.sub_0_r in Htot.
  rewrite total_value_cons in Htot. cbn [branch_size] in Htot.
  change (total_value []) with 0%R in Htot.
  change (@lit float float64 1) with 1%float in Htot.
  rewrite B2R_1, Rplus_0_r in Htot. exact Htot.
Qed.

Section Binary64Runs.

#[local] Existing Instance Demo.at_zero.

Lemma numbers_gauss_number (r : Random float) (g : @rng float (numbers r))
    (mu sigma : float) :
  PrimFloat.is_nan mu = false ->
  PrimFloat.is_nan (fst (@gauss float (numbers r) g mu sigma)) = false.
Proof.
  intros Hmu. cbn [gauss numbers].
  destruct (@gauss float r g mu sigma) as [x g']. cbn [fst].
  destruct (PrimFloat.is_nan x) eqn:E; assumption.
Defined.

Lemma numbers_demo_number (g : @rng float NumbersDemo.generator) :
  PrimFloat.is_nan
    (fst (@gauss float NumbersDemo.generator g (lit 0) (lit 0.1%Q))) = false.
Proof. apply numbers_gauss_number. reflexivity. Defined.

Lemma numbers_run_2 :
  @activated float float64 Demo.at_zero NumbersDemo.generator 0
    NumbersDemo.start (seq 0 2) NumbersDemo.world_2.
Proof. run_slots. Defined.

Lemma world_a1_slot_1 : (1 < length (branches (tree Demo.world_a1)))%nat.
Proof. vm_compute. lia. Defined.

Lemma turn_demo_slot (samples : list float) :
  (0 < length (branches (tree (Demo.start samples))))%nat.
Proof.
  unfold Demo.start.
  destruct (@new_tree_branches float float64 Demo.replay [] Demo.origin
              (lit 0) Demo.presets samples) as [len E].
  rewrite E. cbn. lia.
Defined.

(** C1, at the split of the branch of size [0.3] in slot 1. *)
Lemma split_conserves_size_within_rounding_witness :
  ((1 < length (branches (tree Demo.world_a1)))%nat /\
   PrimFloat.leb 0 (lit 0.3%Q) = true /\
   PrimFloat.leb (lit 0.3%Q) 1 = true /\
   PrimFloat.is_nan
     (fst (@gauss float Demo.replay (random_state Demo.world_a1)
             (lit 0) (lit 0.1%Q))) = false) /\
  exists c1 c2 w',
    @branch_split float float64 Demo.at_zero Demo.replay 1 Demo.origin
      (lit 0.3%Q) (lit 0) Demo.world_a1 = Return tt w' /\
    branches (tree w') =
      <[1%nat := None]> (branches (tree Demo.world_a1)) ++ [Some c1; Some c2] /\
    let proportion :=
      fold_and_clamp
        (fst (@gauss float Demo.replay (random_state Demo.world_a1)
                (lit 0) (lit 0.1%Q))) in
    (PrimFloat.leb 0 proportion = true /\
     PrimFloat.leb proportion 1 = true) /\
    branch_size c1 = (lit 0.3%Q * proportion)%float /\
    branch_size c2 = (lit 0.3%Q * (1 - proportion))%float /\
    (PrimFloat.leb 0 (branch_size c1) = true /\
     PrimFloat.leb (branch_size c1) 1 = true /\
     PrimFloat.leb (branch_size c1) (lit 0.3%Q) = true) /\
    (PrimFloat.leb 0 (branch_size c2) = true /\
     PrimFloat.leb (branch_size c2) 1 = true /\
     PrimFloat.leb (branch_size c2) (lit 0.3%Q) = true) /\
    (Rabs (B2R (branch_size c1) + B2R (branch_size c2) - B2R (lit 0.3%Q)) <=
       bpow (-52) * B2R (lit 0.3%Q) + bpow (-1073))%R /\
    PrimFloat.is_finite (branch_size c1 + branch_size c2) = true /\
    (Rabs (B2R (branch_size c1 + branch_size c2) - B2R (lit 0.3%Q)) <=
       bpow (-51) * B2R (lit 0.3%Q) + bpow (-1072))%R.
Proof.
  split; [split; [exact world_a1_slot_1|repeat split; reflexivity]|].
  exact (split_conserves_size_within_rounding Demo.at_zero Demo.replay
           Demo.world_a1 1 Demo.origin (lit 0.3%Q) (lit 0) world_a1_slot_1
           eq_refl eq_refl eq_refl).
Defined.

(** C7, at the state after two activations. *)
Lemma sizes_stay_between_zero_and_one_witness :
  ((forall g' : @rng float NumbersDemo.generator,
      PrimFloat.is_nan
        (fst (@gauss float NumbersDemo.generator g' (lit 0) (lit 0.1%Q)))
      = false) /\
   @activated float float64 Demo.at_zero NumbersDemo.generator 0
     NumbersDemo.start (seq 0 2) NumbersDemo.world_2) /\
  (exists len, branches (tree NumbersDemo.start) =
     [Some (mkBranch 0 Demo.origin 1%float len (lit 0))]) /\
  (forall j b, branches (tree NumbersDemo.world_2) !! j = Some (Some b) ->
     PrimFloat.leb 0 (branch_size b) = true /\
     PrimFloat.leb (branch_size b) 1 = true) /\
  (forall b w',
     branches (tree NumbersDemo.world_2) !! length (seq 0 2) = Some (Some b) ->
     @activate float float64 Demo.at_zero NumbersDemo.generator b
       NumbersDemo.world_2 = Return tt w' ->
     branches (tree w') = branches (tree NumbersDemo.world_2) \/
     exists q c1 c2,
       (PrimFloat.leb 0 q = true /\ PrimFloat.leb q 1 = true) /\
       branches (tree w') =
         <[length (seq 0 2) := None]> (branches (tree NumbersDemo.world_2)) ++
           [Some c1; Some c2] /\
       branch_size c1 = (branch_size b * q)%float /\
       branch_size c2 = (branch_size b * (1 - q))%float /\
       PrimFloat.leb (branch_size c1) (branch_size b) = true /\
       PrimFloat.leb (branch_size c2) (branch_size b) = true).
Proof.
  split; [split; [exact numbers_demo_number|exact numbers_run_2]|].
  exact (sizes_stay_between_zero_and_one Demo.at_zero NumbersDemo.generator []
           Demo.origin (lit 0) Demo.presets Demo.samples_a (seq 0 2)
           NumbersDemo.world_2 numbers_demo_number numbers_run_2).
Defined.

(** The sizes after the two activations. *)
Example numbers_demo_sizes :
  map (option_map branch_size) (branches (tree NumbersDemo.world_2)) =
    [None; None; Some 0.7%float; Some 0.03%float; Some 0.27%float].
Proof. vm_compute. reflexivity. Qed.

(** X4, at a run of five activations. *)
Lemma sizes_add_up_to_one_within_rounding_witness :
  (forall g' : @rng float NumbersDemo.generator,
     PrimFloat.is_nan
       (fst (@gauss float NumbersDemo.generator g' (lit 0) (lit 0.1%Q)))
     = false) /\
  exists w' : @World float NumbersDemo.generator,
    @generate_tree float float64 Demo.at_zero NumbersDemo.generator 5 []
      Demo.origin (lit 0) Demo.presets Demo.samples_a = Return tt w' /\
    (forall j b, branches (tree w') !! j = Some (Some b) ->
       PrimFloat.leb 0 (branch_size b) = true /\
       PrimFloat.leb (branch_size b) 1 = true) /\
    (Rabs (total_value (branches (tree w')) - 1) <=
       INR (dead_slots (branches (tree w'))) * (bpow (-52) + bpow (-1073)))%R.
Proof.
  split; [exact numbers_demo_number|].
  exact (sizes_add_up_to_one_within_rounding Demo.at_zero NumbersDemo.generator
           5 [] Demo.origin (lit 0) Demo.presets Demo.samples_a
           numbers_demo_number).
Defined.

(** C8, at a split with the share [0.3] and the angle [0.5]: the second
    child is the larger, its turn is the smaller, and its direction is
    the nearer to the direction [1] of the parent, within the
    tolerance. *)
Lemma larger_child_turns_less_within_rounding_witness :
  ((0 < length (branches (tree (Demo.start TurnDemo.wide))))%nat /\
   PrimFloat.leb 0 1 = true /\ PrimFloat.leb 1 1 = true /\
   PrimFloat.is_nan
     (fst (@gauss float Demo.replay (random_state (Demo.start TurnDemo.wide))
             (lit 0) (lit 0.1%Q))) = false) /\
  exists c1 c2 w',
    @branch_split float float64 Demo.at_zero Demo.replay 0 Demo.origin
      1%float 1%float (Demo.start TurnDemo.wide) = Return tt w' /\
    branches (tree w') =
      <[0%nat := None]> (branches (tree (Demo.start TurnDemo.wide))) ++
        [Some c1; Some c2] /\
    branch_size c1 = (1 * 0.3)%float /\
    branch_size c2 = (1 * (1 - 0.3))%float /\
    branch_direction c1 = (1 - 0.5 * (1 - 0.3))%float /\
    branch_direction c2 = (1 + 0.5 * 0.3)%float /\
    PrimFloat.ltb (branch_size c1) (branch_size c2) = true /\
    PrimFloat.leb (0.5 * 0.3) (0.5 * (1 - 0.3)) = true /\
    (Rabs (B2R (branch_direction c2) - B2R 1) <=
     Rabs (B2R (branch_direction c1) - B2R 1) +
     (bpow (-52) * (Rabs (B2R 1) + B2R 0.5) + bpow (-1074)))%R.
Proof.
  split; [split; [apply turn_demo_slot|repeat split; reflexivity]|].
  destruct (larger_child_turns_less_within_rounding Demo.at_zero Demo.replay
              (Demo.start TurnDemo.wide) 0 Demo.origin 1%float 1%float
              (turn_demo_slot _) eq_refl eq_refl eq_refl)
    as (c1 & c2 & w' & Hrun & Hbs & H).
  exists c1, c2, w'. split; [exact Hrun|]. split; [exact Hbs|].
  change (split_draws (tree (Demo.start TurnDemo.wide))
            (random_state (Demo.start TurnDemo.wide)))
    with (0.3%float, 15%float, 15%float, 0.5%float, @nil float) in H.
  cbv beta iota zeta in H.
  change (fold_and_clamp 0.3%float) with 0.3%float in H.
  change (0.5 * pow 1 _)%float with 0.5%float in H.
  destruct H as (Hc1 & Hc2 & Hd1 & Hd2 & Himp).
  split; [exact Hc1|]. split; [exact Hc2|]. split; [exact Hd1|].
  split; [exact Hd2|].
  rewrite Hc1, Hc2, Hd1, Hd2 in *.
  destruct (Himp eq_refl eq_refl eq_refl eq_refl eq_refl) as [_ Hsecond].
  destruct (Hsecond eq_refl) as [Hturn Hdev].
  split; [reflexivity|]. split; [exact Hturn|exact Hdev].
Defined.

End Binary64Runs.

Section TurnRuns.

#[local] Existing Instance Demo.at_zero.
#[local] Existing Instance Demo.replay.

Local Open Scope R_scope.

Lemma B2R_below_one : B2R 0x1.fffffffffffffp-1 = 1 - bpow (-53).
Proof.
  unfold B2R.
  change (Prim2SF 0x1.fffffffffffffp-1)
    with (S754_finite false (Z.to_pos (2 ^ 53 - 1)) (-53)).
  cbn [SF2R]. change (Zpos (Z.to_pos (2 ^ 53 - 1))) with (2 ^ 53 - 1)%Z.
  rewrite minus_IZR, <- bpow_IZR by lia.
  assert (bpow 53 * bpow (-53) = 1) by (rewrite <- bpow_add; reflexivity).
  lra.
Qed.

Lemma B2R_above_one : B2R 0x1.0000000000001p+0 = 1 + bpow (-52).
Proof.
  unfold B2R.
  change (Prim2SF 0x1.0000000000001p+0)
    with (S754_finite false (Z.to_pos (2 ^ 52 + 1)) (-52)).
  cbn [SF2R]. change (Zpos (Z.to_pos (2 ^ 52 + 1))) with (2 ^ 52 + 1)%Z.
  rewrite plus_IZR, <- bpow_IZR by lia.
  assert (bpow 52 * bpow (-52) = 1) by (rewrite <- bpow_add; reflexivity).
  lra.
Qed.

(** C8, as stated, fails in binary64: a first branch of size [1] and
    direction [1] splits with the share [0.45] and the angle [2.6e-16].
    The second child is the larger ([0.55] against [0.45]) and gets the
    smaller turn, but [1 + turn] rounds up to the next binary64 value
    after [1], at [2^-52], while [1 - turn] of the first child rounds
    to the value before [1], at [2^-53]: the larger child ends farther
    from the direction of the parent. *)
Lemma larger_child_can_turn_more :
  exists c1 c2 w',
    branch_split 0 Demo.origin 1%float 1%float (Demo.start TurnDemo.tiny) =
      Return tt w' /\
    branches (tree w') = [None; Some c1; Some c2] /\
    fold_and_clamp
      (fst (gauss (random_state (Demo.start TurnDemo.tiny)) (lit 0) (lit 0.1%Q)))
      = lit 0.45%Q /\
    PrimFloat.ltb (branch_size c1) (branch_size c2) = true /\
    PrimFloat.ltb (lit 2.6e-16%Q * (1 - lit 0.45%Q))
      (lit 2.6e-16%Q * lit 0.45%Q) = false /\
    branch_direction c1 = (1 - lit 2.6e-16%Q * (1 - lit 0.45%Q))%float /\
    branch_direction c2 = (1 + lit 2.6e-16%Q * lit 0.45%Q)%float /\
    branch_direction c1 = 0x1.fffffffffffffp-1%float /\
    branch_direction c2 = 0x1.0000000000001p+0%float /\
    Rabs (B2R (branch_direction c1) - B2R 1) = bpow (-53) /\
    Rabs (B2R (branch_direction c2) - B2R 1) = bpow (-52) /\
    Rabs (B2R (branch_direction c1) - B2R 1) <
      Rabs (B2R (branch_direction c2) - B2R 1).
Proof.
  pose proof (bpow_pos (-53)) as H53. pose proof bpow_m52 as H52.
  eexists _, _, _. split; [vm_compute; reflexivity|].
  split; [reflexivity|]. cbn [branch_size branch_direction].
  do 7 (split; [vm_compute; reflexivity|]).
  rewrite B2R_below_one, B2R_above_one, B2R_1.
  replace (1 - bpow (-53) - 1) with (- bpow (-53)) by ring.
  replace (1 + bpow (-52) - 1) with (bpow (-52)) by ring.
  rewrite Rabs_Ropp, !Rabs_pos_eq by lra. repeat split; lra.
Qed.

End TurnRuns.

Section Binary64Lines.

Local Open Scope R_scope.

(** [int] of a value that is not negative is not above it. *)
Lemma truncate_le (x : float) :
  PrimFloat.is_finite x = true -> 0 <= B2R x ->
  (0 <= Float64.truncate x)%Z /\ IZR (Float64.truncate x) <= B2R x.
Proof.
  intros Fx Hx. apply is_finite_spec in Fx. unfold Float64.truncate, B2R in *.
  destruct (Prim2SF x) as [s|s| |s m e]; try contradiction.
  - cbn [SF2R]. split; [lia|lra].
  - destruct (SF2R_sign s m e) as [E P]. rewrite E in *.
    destruct s; [lra|]. rewrite Rmult_1_l.
    destruct e as [|k|k].
    + rewrite Z.shiftl_0_r. unfold bpow, powerRZ. split; [lia|lra].
    + rewrite Z.shiftl_mul_pow2 by lia.
      assert (0 < 2 ^ Zpos k)%Z by (apply Z.pow_pos_nonneg; lia).
      split; [apply Z.mul_nonneg_nonneg; lia|].
      rewrite mult_IZR, <- bpow_IZR by lia. lra.
    + rewrite Z.shiftr_div_pow2 by lia.
      assert (H2 : (0 < 2 ^ Zpos k)%Z) by (apply Z.pow_pos_nonneg; lia).
      split; [apply Z.div_pos; lia|].
      pose proof (bpow_pos (Zneg k)) as Hb.
      apply Rmult_le_reg_r with (bpow (Zpos k)); [apply bpow_pos|].
      rewrite Rmult_assoc, <- bpow_add.
      replace (Zneg k + Zpos k)%Z with 0%Z by lia.
      replace (bpow 0) with 1 by reflexivity.
      rewrite Rmult_1_r, bpow_IZR, <- mult_IZR by lia.
      apply IZR_le. pose proof (Z.mul_div_le (Zpos m) (2 ^ Zpos k) H2). lia.
Qed.

Lemma B2R_2p31 : B2R 2147483648 = IZR (2 ^ 31).
Proof.
  unfold B2R.
  change (Prim2SF 2147483648) with (S754_finite false (Z.to_pos (2 ^ 52)) (-21)).
  cbn [SF2R]. change (Zpos (Z.to_pos (2 ^ 52))) with (2 ^ 52)%Z.
  rewrite <- !bpow_IZR, Rmult_1_l, <- bpow_add by lia. reflexivity.
Qed.

(** A value from [0] to below [2^31] is finite. *)
Lemma width_finite (x : float) :
  PrimFloat.leb 0 x = true -> PrimFloat.ltb x 2147483648 = true ->
  PrimFloat.is_finite x = true.
Proof.
  rewrite FloatAxioms.leb_spec, FloatAxioms.ltb_spec. unfold SFleb, SFltb.
  change (Prim2SF 0) with (S754_zero false).
  change (Prim2SF 2147483648) with (S754_finite false 4503599627370496 (-21)).
  intros H0 H1. apply is_finite_spec.
  destruct (Prim2SF x) as [s|s| |s m e]; try exact I.
  - destruct s; discriminate.
  - discriminate.
Qed.

End Binary64Lines.

(** X5.  In binary64, [draw] with a width [w], [0 <= w < 2^31], and a
    colour whose channels are between [0] and [255]: one line is added,
    between the two points given; the width passed to
    [pygame.draw.line] is an integer from [1] to [2^31 - 1] ([1] for a
    width below [1], the integer part otherwise), and the channels of
    the colour passed are between [0] and [255].  (A negative width
    would make the colour negative, and a width from [2^31] on does not
    fit the C [int] that [pygame.draw.line] takes.) *)
Theorem lines_are_at_least_one_wide :
  forall (random : Random float) (c0 c1 c2 : float) (p1 p2 : float * float)
    (width : float) (w : World float),
  PrimFloat.leb 0 width = true -> PrimFloat.ltb width 2147483648 = true ->
  (PrimFloat.leb 0 c0 = true /\ PrimFloat.leb c0 255 = true) ->
  (PrimFloat.leb 0 c1 = true /\ PrimFloat.leb c1 255 = true) ->
  (PrimFloat.leb 0 c2 = true /\ PrimFloat.leb c2 255 = true) ->
  exists l : Line float,
    draw (c0, c1, c2) p1 p2 width w =
      Return tt (mkWorld (random_state w) (surface w ++ [l]) (tree w)) /\
    (1 <= line_width l < 2 ^ 31)%Z /\
    line_start l = p1 /\ line_end l = p2 /\
    (PrimFloat.leb 0 (line_color l).1.1 = true /\
     PrimFloat.leb (line_color l).1.1 255 = true) /\
    (PrimFloat.leb 0 (line_color l).1.2 = true /\
     PrimFloat.leb (line_color l).1.2 255 = true) /\
    (PrimFloat.leb 0 (line_color l).2 = true /\
     PrimFloat.leb (line_color l).2 255 = true).
Proof.
  intros random c0 c1 c2 p1 p2 width w Hw0 Hw1 Hc0 Hc1 Hc2.
  rewrite draw_eq. eexists. split; [reflexivity|].
  pose proof (width_finite width Hw0 Hw1) as Fw.
  change (@lit float float64 1) with 1%float.
  change (@lt float float64 width 1%float) with (PrimFloat.ltb width 1).
  cbn [fst snd].
  destruct (PrimFloat.ltb width 1) eqn:Hlt;
    cbn [line_width line_start line_end line_color fst snd].
  - split; [vm_compute; split; [discriminate|reflexivity]|].
    split; [reflexivity|]. split; [reflexivity|].
    assert (Hunit : (0 <= B2R width <= 1)%R).
    { apply ltb_finite in Hlt; [|exact Fw|reflexivity].
      apply leb_finite in Hw0; [|reflexivity|exact Fw].
      rewrite B2R_0 in Hw0. rewrite B2R_1 in Hlt. lra. }
    assert (Hdim : forall c : float,
              PrimFloat.leb 0 c = true /\ PrimFloat.leb c 255 = true ->
              PrimFloat.leb 0 (c * width) = true /\
              PrimFloat.leb (c * width) 255 = true).
    { intros c [H0 H255].
      assert (Fc : PrimFloat.is_finite c = true)
        by (apply (between_finite c 0 255); auto).
      apply leb_finite in H0; [|reflexivity|exact Fc].
      apply leb_finite in H255; [|exact Fc|reflexivity].
      rewrite B2R_0 in H0.
      destruct (mul_share c width Fc H0 Fw Hunit) as (Fz & Hz & _).
      split; apply leb_finite; auto; rewrite ?B2R_0; lra. }
    change (@mul float float64) with PrimFloat.mul. auto.
  - split.
    + split; [apply truncate_at_least_one; assumption|].
      assert (H0 : (0 <= B2R width)%R).
      { apply leb_finite in Hw0; [|reflexivity|exact Fw].
        rewrite B2R_0 in Hw0. exact Hw0. }
      destruct (truncate_le width Fw H0) as [_ Hle].
      apply ltb_finite in Hw1; [|exact Fw|reflexivity].
      rewrite B2R_2p31 in Hw1. apply lt_IZR.
      apply Rle_lt_trans with (1 := Hle). exact Hw1.
    + auto 10.
Qed.

(** X5, at the width [0.4], below [1]: the line is drawn [1] wide, in
    the colour dimmed to [0.4] of white. *)
Lemma lines_are_at_least_one_wide_witness :
  (PrimFloat.leb 0 (lit 0.4%Q) = true /\
   PrimFloat.ltb (lit 0.4%Q) 2147483648 = true /\
   PrimFloat.leb 0 255 = true /\ PrimFloat.leb 255 255 = true) /\
  exists l : Line float,
    @draw float float64 Demo.replay (255, 255, 255)%float Demo.origin
      Demo.origin (lit 0.4%Q) Demo.world_a1 =
      Return tt (mkWorld (random_state Demo.world_a1)
                   (surface Demo.world_a1 ++ [l]) (tree Demo.world_a1)) /\
    (1 <= line_width l < 2 ^ 31)%Z /\
    line_start l = Demo.origin /\ line_end l = Demo.origin /\
    (PrimFloat.leb 0 (line_color l).1.1 = true /\
     PrimFloat.leb (line_color l).1.1 255 = true) /\
    (PrimFloat.leb 0 (line_color l).1.2 = true /\
     PrimFloat.leb (line_color l).1.2 255 = true) /\
    (PrimFloat.leb 0 (line_color l).2 = true /\
     PrimFloat.leb (line_color l).2 255 = true).
Proof.
  split; [repeat split; reflexivity|].
  exact (lines_are_at_least_one_wide Demo.replay 255%float 255%float 255%float
           Demo.origin Demo.origin (lit 0.4%Q) Demo.world_a1 eq_refl eq_refl
           (conj eq_refl eq_refl) (conj eq_refl eq_refl)
           (conj eq_refl eq_refl)).
Defined.
